(** * Verification of the EPUB image audit service (src/api/server.js)

    The development embeds the reference-resolution engine of the service
    (path resolver, manifest locator, candidate selector, reference
    collector, reconciler and the [/api/validate] handler that strings them
    together) and proves the properties the specification states about it.

    Conventions of the embedding:
    - a JavaScript string is the list of its UTF-16 code units ([list N]);
    - the JavaScript built-ins the source calls ([String.prototype.*],
      [decodeURI], [path.posix.*]) are modelled after ECMAScript and the
      Node.js sources of [lib/path.js];
    - [process.cwd()], on which [path.posix.relative] depends, is an explicit
      parameter [cwd];
    - a [Set] is a [gset], the insertion-ordered [Map] of archive members is
      an association list with unique keys;
    - a number is not-a-number, an infinity or a rational; image
      dimensions are integers, and their product is rounded to the nearest
      double as the runtime does it (it is exact below 2^53);
    - an exception is an [option] or an explicit constructor of the result,
      handled where the source has its [try]/[catch]. *)

From Stdlib Require Import ZArith NArith QArith Ascii String.
From stdpp Require Import base option list gmap.

Set Warnings "-register-all".
Local Open Scope N_scope.

(** ** JavaScript strings *)

Abbreviation jsstring := (list N).

(** Literal of the source text, as code units. *)
Definition js (s : string) : jsstring :=
  map N_of_ascii (list_ascii_of_string s).

Definition SLASH : N := 47.
Definition BACKSLASH : N := 92.
Definition DOT : N := 46.
Definition HASH : N := 35.
Definition QMARK : N := 63.
Definition PERCENT : N := 37.
Definition COLON : N := 58.
Definition COMMA : N := 44.
Definition SPACE : N := 32.

Definition jsstring_eqb (a b : jsstring) : bool := bool_decide (a = b).

Definition is_empty (s : jsstring) : bool :=
  match s with [] => true | _ => false end.

(** [s.startsWith(p)] *)
Fixpoint startsWith (s p : jsstring) {struct p} : bool :=
  match p, s with
  | [], _ => true
  | c :: p', d :: s' => (c =? d) && startsWith s' p'
  | _ :: _, [] => false
  end.

(** [s.endsWith(p)] *)
Definition endsWith (s p : jsstring) : bool :=
  startsWith (rev s) (rev p).

Definition is_upper (c : N) : bool := (65 <=? c) && (c <=? 90).
Definition is_lower (c : N) : bool := (97 <=? c) && (c <=? 122).
Definition is_alpha (c : N) : bool := is_upper c || is_lower c.

Definition lower_char (c : N) : N := if is_upper c then c + 32 else c.

(** [s.toLowerCase()].  Only the letters A-Z are mapped.  The source uses
    the lowered string in comparisons with ASCII literals only; outside A-Z
    the one code unit whose lower-case image is an ASCII letter is the
    Kelvin sign (its image is [k]), and no literal of the source holds a
    [k].  U+0130 lowers to [i] followed by a combining dot, which is part of
    no literal either. *)
Definition toLowerCase (s : jsstring) : jsstring := map lower_char s.

(** ECMAScript WhiteSpace and LineTerminator code units, as stripped by
    [String.prototype.trim] and matched by the regular-expression class
    [\s]. *)
Definition is_space (c : N) : bool :=
  ((9 <=? c) && (c <=? 13)) || (c =? 32) || (c =? 160) || (c =? 5760)
  || ((8192 <=? c) && (c <=? 8202)) || (c =? 8232) || (c =? 8233)
  || (c =? 8239) || (c =? 8287) || (c =? 12288) || (c =? 65279).

Fixpoint trimStart (s : jsstring) : jsstring :=
  match s with
  | c :: s' => if is_space c then trimStart s' else s
  | [] => []
  end.

(** [s.trim()] *)
Definition trim (s : jsstring) : jsstring :=
  rev (trimStart (rev (trimStart s))).

(** [s.split(sep)] for a one-unit separator: never an empty array. *)
Fixpoint split (sep : N) (s : jsstring) : list jsstring :=
  match s with
  | [] => [[]]
  | c :: s' =>
      if c =? sep then [] :: split sep s'
      else match split sep s' with
           | seg :: segs => (c :: seg) :: segs
           | [] => [[c]]
           end
  end.

(** [s.split(sep)[0]] *)
Definition split_first (sep : N) (s : jsstring) : jsstring :=
  hd [] (split sep s).

(** [s.lastIndexOf(c)], [None] for -1. *)
Fixpoint lastIndexOf (c : N) (s : jsstring) : option nat :=
  match s with
  | [] => None
  | d :: s' =>
      match lastIndexOf c s' with
      | Some k => Some (S k)
      | None => if d =? c then Some 0%nat else None
      end
  end.

(** ** Helpers of the source: [normalize], [safeJoin] and the built-ins
       of [path.posix] *)

(** [p.replace(/\\/g, '/')] *)
Definition normalize (p : jsstring) : jsstring :=
  map (fun c => if c =? BACKSLASH then SLASH else c) p.

(** [p.replace(/[^/]+$/, '')]: the trailing run of non-slash units, when
    there is one, is removed. *)
Fixpoint dropNonSlash (s : jsstring) : jsstring :=
  match s with
  | c :: s' => if c =? SLASH then s else dropNonSlash s'
  | [] => []
  end.

Definition stripLastSegment (p : jsstring) : jsstring :=
  rev (dropNonSlash (rev p)).

Module Posix.

(** State of the loop of [normalizeString] in Node's [lib/path.js]: the
    text since the last separator is kept as [seg] in place of the index
    [lastSlash], so that [lastSlash === i - 1] reads [seg = []] and
    [path.slice(lastSlash + 1, i)] reads [seg]. *)
Record nstate := mkN {
  res : jsstring;
  lastSegmentLength : nat;
  seg : jsstring;
  dots : Z
}.

Definition flush (r : jsstring) (l : nat) : nstate :=
  {| res := r; lastSegmentLength := l; seg := []; dots := 0%Z |}.

Definition ends_with_dotdot (r : jsstring) : bool :=
  match rev r with
  | a :: b :: _ => (a =? DOT) && (b =? DOT)
  | _ => false
  end.

(** The branch taken on a path separator. *)
Definition sep_step (allowAboveRoot : bool) (st : nstate) : nstate :=
  let r := res st in
  let above :=
    if allowAboveRoot
    then flush (if is_empty r then js ".." else r ++ js "/..") 2
    else flush r (lastSegmentLength st) in
  if is_empty (seg st) || (dots st =? 1)%Z then
    flush r (lastSegmentLength st)
  else if (dots st =? 2)%Z then
    if (length r <? 2)%nat || negb (lastSegmentLength st =? 2)%nat
       || negb (ends_with_dotdot r)
    then
      if (2 <? length r)%nat then
        match lastIndexOf SLASH r with
        | None => flush [] 0
        | Some k =>
            let r' := take k r in
            flush r' (match lastIndexOf SLASH r' with
                      | None => length r'
                      | Some j => length r' - 1 - j
                      end)%nat
        end
      else if negb (is_empty r) then flush [] 0
      else above
    else above
  else
    flush (if is_empty r then seg st else r ++ SLASH :: seg st)
          (length (seg st)).

(** The branches taken on any other code unit. *)
Definition char_step (c : N) (st : nstate) : nstate :=
  {| res := res st;
     lastSegmentLength := lastSegmentLength st;
     seg := seg st ++ [c];
     dots := if (c =? DOT) && negb (dots st =? -1)%Z
             then (dots st + 1)%Z else (-1)%Z |}.

Definition step (allowAboveRoot : bool) (st : nstate) (c : N) : nstate :=
  if c =? SLASH then sep_step allowAboveRoot st else char_step c st.

(** [normalizeString(path, allowAboveRoot, '/', isPosixPathSeparator)]: the
    last iteration ([i === path.length]) acts as on a separator. *)
Definition normalizeString (path : jsstring) (allowAboveRoot : bool)
  : jsstring :=
  res (sep_step allowAboveRoot
         (fold_left (step allowAboveRoot) path (flush [] 0))).

(** [path.posix.normalize] *)
Definition normalize (path : jsstring) : jsstring :=
  if is_empty path then js "." else
  let isAbsolute := startsWith path [SLASH] in
  let trailingSeparator := endsWith path [SLASH] in
  let p := normalizeString path (negb isAbsolute) in
  if is_empty p then
    if isAbsolute then js "/" else if trailingSeparator then js "./" else js "."
  else
    let p := if trailingSeparator then p ++ [SLASH] else p in
    if isAbsolute then SLASH :: p else p.

(** [path.posix.join(...args)] *)
Definition join (args : list jsstring) : jsstring :=
  match filter (fun a => a <> []) args with
  | [] => js "."
  | a :: rest => normalize (fold_left (fun j x => j ++ SLASH :: x) rest a)
  end.

(** The backward loop of [path.posix.resolve] over the arguments, the
    working directory last. *)
Fixpoint resolve_loop (rargs : list jsstring) (resolvedPath : jsstring)
  : jsstring * bool :=
  match rargs with
  | [] => (resolvedPath, false)
  | p :: rest =>
      if is_empty p then resolve_loop rest resolvedPath
      else
        let rp := p ++ SLASH :: resolvedPath in
        if startsWith p [SLASH] then (rp, true) else resolve_loop rest rp
  end.

(** [path.posix.resolve(...args)] with [process.cwd() = cwd] *)
Definition resolve (cwd : jsstring) (args : list jsstring) : jsstring :=
  let '(rp, resolvedAbsolute) := resolve_loop (rev args ++ [cwd]) [] in
  let rp := normalizeString rp (negb resolvedAbsolute) in
  if resolvedAbsolute then SLASH :: rp
  else if is_empty rp then js "." else rp.

(** First loop of [path.posix.relative]: the longest common prefix of
    [from] and [to] behind their leading slash; returns the final [i] and
    [lastCommonSep]. *)
Fixpoint common_loop (from to : jsstring) (n i : nat) (lastCommonSep : Z)
  : nat * Z :=
  match n with
  | O => (i, lastCommonSep)
  | S n' =>
      match from !! (1 + i)%nat, to !! (1 + i)%nat with
      | Some a, Some b =>
          if a =? b
          then common_loop from to n' (S i)
                 (if a =? SLASH then Z.of_nat i else lastCommonSep)
          else (i, lastCommonSep)
      | _, _ => (i, lastCommonSep)
      end
  end.

(** Second loop of [path.posix.relative]: one [..] for each segment of
    [from] behind the common part. *)
Fixpoint up_loop (from : jsstring) (fromEnd n i : nat) (out : jsstring)
  : jsstring :=
  match n with
  | O => out
  | S n' =>
      let out' :=
        if (i =? fromEnd)%nat || bool_decide (from !! i = Some SLASH)
        then out ++ (if is_empty out then js ".." else js "/..")
        else out in
      up_loop from fromEnd n' (S i) out'
  end.

(** [path.posix.relative(from, to)] with [process.cwd() = cwd] *)
Definition relative (cwd from to : jsstring) : jsstring :=
  if jsstring_eqb from to then [] else
  let from := resolve cwd [from] in
  let to := resolve cwd [to] in
  if jsstring_eqb from to then [] else
  let fromEnd := length from in
  let fromLen := (fromEnd - 1)%nat in
  let toLen := (length to - 1)%nat in
  let len := if (fromLen <? toLen)%nat then fromLen else toLen in
  let '(i, lastCommonSep) := common_loop from to len 0 (-1)%Z in
  let early :=
    if (i =? len)%nat && (len <? toLen)%nat then
      if bool_decide (to !! (1 + i)%nat = Some SLASH)
      then Some (drop (1 + i + 1) to)
      else if (i =? 0)%nat then Some (drop (1 + i) to) else None
    else None in
  match early with
  | Some r => r
  | None =>
      let lastCommonSep :=
        if (i =? len)%nat && negb (len <? toLen)%nat && (len <? fromLen)%nat
        then
          if bool_decide (from !! (1 + i)%nat = Some SLASH) then Z.of_nat i
          else if (i =? 0)%nat then 0%Z else lastCommonSep
        else lastCommonSep in
      let start := Z.to_nat (1 + lastCommonSep + 1) in
      let out := up_loop from fromEnd (fromEnd + 1 - start) start [] in
      out ++ drop (Z.to_nat (1 + lastCommonSep)) to
  end.

(** [path.posix.basename(path)]: trailing separators are skipped, then the
    units back to the previous separator are kept. *)
Fixpoint dropSlashes (s : jsstring) : jsstring :=
  match s with
  | c :: s' => if c =? SLASH then dropSlashes s' else s
  | [] => []
  end.

Fixpoint takeNonSlash (s : jsstring) : jsstring :=
  match s with
  | c :: s' => if c =? SLASH then [] else c :: takeNonSlash s'
  | [] => []
  end.

Definition basename (path : jsstring) : jsstring :=
  rev (takeNonSlash (dropSlashes (rev path))).

End Posix.

(** ** [decodeURI] (ECMAScript, abstract operation Decode) *)

Module Uri.

Definition hexval (c : N) : option N :=
  if (48 <=? c) && (c <=? 57) then Some (c - 48)
  else if (65 <=? c) && (c <=? 70) then Some (c - 55)
  else if (97 <=? c) && (c <=? 102) then Some (c - 87)
  else None.

Definition parseHexOctet (h1 h2 : N) : option N :=
  a ← hexval h1; b ← hexval h2; Some (16 * a + b).

(** Number of leading 1 bits of an octet. *)
Definition leading_ones (b : N) : nat :=
  if b <? 128 then 0
  else if b <? 192 then 1
  else if b <? 224 then 2
  else if b <? 240 then 3
  else if b <? 248 then 4
  else 5.

(** The escapes [decodeURI] leaves alone: the reserved set and [#]. *)
Definition preserved (b : N) : bool :=
  bool_decide (b ∈ js ";/?:@&=+$,#").

(** Reads [n] further escapes [%XX]; the octets and the rest. *)
Fixpoint read_escapes (n : nat) (s : jsstring)
  : option (list N * jsstring) :=
  match n with
  | O => Some ([], s)
  | S n' =>
      match s with
      | p :: h1 :: h2 :: s' =>
          if p =? PERCENT then
            b ← parseHexOctet h1 h2;
            '(os, r) ← read_escapes n' s';
            Some (b :: os, r)
          else None
      | _ => None
      end
  end.

Definition is_cont (b : N) : bool := (128 <=? b) && (b <? 192).

(** The code point a well-formed UTF-8 sequence of 2 to 4 octets encodes:
    continuation octets, no overlong form, no surrogate, at most U+10FFFF. *)
Definition utf8_code_point (octets : list N) : option N :=
  let ok (v lo : N) :=
    if (lo <=? v) && (v <=? 1114111) && negb ((55296 <=? v) && (v <=? 57343))
    then Some v else None in
  match octets with
  | [b0; b1] =>
      if is_cont b1 then ok ((b0 - 192) * 64 + (b1 - 128)) 128 else None
  | [b0; b1; b2] =>
      if is_cont b1 && is_cont b2
      then ok ((b0 - 224) * 4096 + (b1 - 128) * 64 + (b2 - 128)) 2048
      else None
  | [b0; b1; b2; b3] =>
      if is_cont b1 && is_cont b2 && is_cont b3
      then ok ((b0 - 240) * 262144 + (b1 - 128) * 4096 + (b2 - 128) * 64
               + (b3 - 128)) 65536
      else None
  | _ => None
  end.

Definition codePointToUTF16 (v : N) : jsstring :=
  if v <? 65536 then [v]
  else [55296 + (v - 65536) / 1024; 56320 + (v - 65536) mod 1024].

(** The loop of Decode; [None] is the URIError.  Each round consumes at
    least one unit, so the fuel [length s] is never exhausted
    ([decode_loop_fuel] below). *)
Fixpoint decode_loop (fuel : nat) (s : jsstring) : option jsstring :=
  match s, fuel with
  | [], _ => Some []
  | _ :: _, O => None
  | c :: s1, S fuel' =>
      if c =? PERCENT then
        match s1 with
        | h1 :: h2 :: s2 =>
            b ← parseHexOctet h1 h2;
            match leading_ones b with
            | O =>
                r ← decode_loop fuel' s2;
                Some ((if preserved b then [PERCENT; h1; h2] else [b]) ++ r)
            | S O => None
            | S (S (S (S (S _)))) => None
            | S n' =>
                '(os, s3) ← read_escapes n' s2;
                v ← utf8_code_point (b :: os);
                r ← decode_loop fuel' s3;
                Some (codePointToUTF16 v ++ r)
            end
        | _ => None
        end
      else
        r ← decode_loop fuel' s1; Some (c :: r)
  end.

Definition decodeURI (s : jsstring) : option jsstring :=
  decode_loop (length s) s.

End Uri.

(** ** The path resolver *)

(** [ref.split('#')[0].split('?')[0]] *)
Definition stripQueryAndHash (ref : jsstring) : jsstring :=
  split_first QMARK (split_first HASH ref).

(** [try { return decodeURI(ref); } catch { return ref; }] *)
Definition decodeRef (ref : jsstring) : jsstring :=
  default ref (Uri.decodeURI ref).

(** [path.posix.join(...segs)] with back-slashes turned *)
Definition safeJoin (segs : list jsstring) : jsstring :=
  normalize (Posix.join segs).

Fixpoint skipAlpha (s : jsstring) : jsstring :=
  match s with
  | c :: s' => if is_alpha c then skipAlpha s' else s
  | [] => []
  end.

(** [/^([a-z]+:)?\/\//i.test(href)]: two slashes at the start, or behind a
    non-empty run of letters and a colon.  The greedy run of letters is the
    only one a colon can follow. *)
Definition isUrlLike (href : jsstring) : bool :=
  startsWith href (js "//")
  || (match href with c :: _ => is_alpha c | [] => false end
      && startsWith (skipAlpha href) (js "://")).

(** The value of [clean] in [resolveRef]: the trimmed reference without
    query and fragment, decoded, without its leading slash. *)
Definition cleanRef (href : jsstring) : jsstring :=
  let clean := stripQueryAndHash (trim href) in
  let clean := decodeRef clean in
  if startsWith clean [SLASH] then drop 1 clean else clean.

(** The value of [abs] in [resolveRef]: [clean] joined to the directory of
    the referencing file. *)
Definition resolveClean (baseFilePath clean : jsstring) : jsstring :=
  let baseDir := stripLastSegment (normalize baseFilePath) in
  normalize (Posix.normalize (safeJoin [baseDir; clean])).

(** [resolveRef(baseFilePath, href, contentRoot)]; [href] is [None] for
    [undefined], the result [[]] is the empty string the source returns for
    a reference it does not resolve. *)
Definition resolveRef (cwd : jsstring) (baseFilePath : jsstring)
    (href : option jsstring) (contentRoot : jsstring) : jsstring :=
  match href with
  | None => []
  | Some href =>
      if is_empty href then []
      else if isUrlLike href || startsWith href (js "data:") then []
      else
        let abs := resolveClean baseFilePath (cleanRef href) in
        if negb (is_empty contentRoot)
           && startsWith (Posix.relative cwd (normalize contentRoot) abs)
                         (js "..")
        then []
        else abs
  end.

(** ** External collaborators

    The zip reader, the XML parser, the markup parser and the image prober
    are libraries the service calls; the embedding sees them through what
    the source observes of their results.  [None] is an exception; for
    [buffer.toString] it is the error the runtime raises when the decoded
    text would be longer than the longest string it can hold. *)

Abbreviation bytes := (list N).

(** A value of the object tree [fast-xml-parser] returns, as far as the
    source inspects it. *)
Inductive xval :=
| XUndef
| XStr (s : jsstring)
| XOther (truthy : bool)
| XArr (items : list xval)
| XObj (props : list (jsstring * xval)).

(** An element selected by [cheerio]: its attributes and its text. *)
Record element := mkElement {
  attrs : list (jsstring * jsstring);
  text : jsstring
}.

(** A loaded document [$]: selector to matched elements, in document
    order. *)
Definition cheerioDoc : Type := jsstring -> list element.

(** A member of the zip directory; [zbuffer] is [None] when extracting the
    member fails. *)
Record zentry := mkZentry {
  ztype : jsstring;
  zpath : jsstring;
  zbuffer : option bytes
}.

(** What [imageSize] returns: an exception, or an object whose [width] and
    [height] may be missing. *)
Inductive probe :=
| ProbeThrows
| ProbeUndefined
| ProbeDims (width height : option Z).

(** A JavaScript number: not-a-number, an infinity, or a finite value
    (both zeros are [Finite 0]). *)
Inductive jsnum :=
| NaN
| Infinity (negative : bool)
| Finite (q : Q).

Record Runtime := mkRuntime {
  cwd : jsstring;                                  (* process.cwd() *)
  openZip : bytes -> option (list zentry);         (* unzipper.Open.buffer *)
  utf8 : bytes -> option jsstring;                 (* buffer.toString('utf8') *)
  xmlParse : jsstring -> option xval;              (* XMLParser.parse *)
  cheerioLoad : jsstring -> bool -> option cheerioDoc;  (* cheerio.load *)
  imageSize : bytes -> probe;                      (* imageSize *)
  stringToNumber : jsstring -> jsnum               (* Number(string) *)
}.

(** ** Object-tree access *)

Definition xtruthy (v : xval) : bool :=
  match v with
  | XUndef => false
  | XStr s => negb (is_empty s)
  | XOther t => t
  | XArr _ | XObj _ => true
  end.

Fixpoint assoc {V} (k : jsstring) (l : list (jsstring * V)) : option V :=
  match l with
  | [] => None
  | (k', v) :: l' => if jsstring_eqb k k' then Some v else assoc k l'
  end.

(** [v?.[k]] for one of the keys the source reads; none of them is a
    property of a string, a number or an array. *)
Definition xget (v : xval) (k : jsstring) : xval :=
  match v with
  | XObj props => default XUndef (assoc k props)
  | _ => XUndef
  end.

(** [v || ''] *)
Definition xorEmpty (v : xval) : xval :=
  if xtruthy v then v else XStr [].

(** ** The manifest locator *)

(** [getContentRootFromContainerXml(xml)]; a [TypeError] on a [full-path]
    that is no string is caught like a parse failure. *)
Definition getContentRootFromContainerXml (rt : Runtime) (xml : jsstring)
  : jsstring :=
  match xmlParse rt xml with
  | None => []
  | Some doc =>
      let rootfiles := xget (xget doc (js "container")) (js "rootfiles") in
      let fullPath :=
        match xget rootfiles (js "rootfile") with
        | XArr items =>
            xorEmpty (xget (default XUndef (head items)) (js "@_full-path"))
        | rf => xorEmpty (xget rf (js "@_full-path"))
        end in
      if negb (xtruthy fullPath) then []
      else match fullPath with
           | XStr s => normalize (stripLastSegment s)
           | _ => []
           end
  end.

(** One round of the loop over the manifest items; [None] is an exception
    ([startsWith] or [replace] on a value that is no string). *)
Definition manifestItem (hrefs : gset jsstring) (it : xval)
  : option (gset jsstring) :=
  let mt := xorEmpty (xget it (js "@_media-type")) in
  let href := xorEmpty (xget it (js "@_href")) in
  match mt with
  | XStr mt =>
      if startsWith mt (js "image/") && xtruthy href then
        match href with
        | XStr h => Some ({[ normalize h ]} ∪ hrefs)
        | _ => None
        end
      else Some hrefs
  | _ => None
  end.

Fixpoint foldM {A B} (f : A -> B -> option A) (l : list B) (a : A)
  : option A :=
  match l with
  | [] => Some a
  | b :: l' => match f a b with Some a' => foldM f l' a' | None => None end
  end.

(** [getManifestImagesFromOpf(xml)] *)
Definition getManifestImagesFromOpf (rt : Runtime) (xml : jsstring)
  : gset jsstring :=
  match xmlParse rt xml with
  | None => ∅
  | Some doc =>
      let manifest :=
        xget (xget (xget doc (js "package")) (js "manifest")) (js "item") in
      let items :=
        match manifest with
        | XArr l => l
        | _ => if xtruthy manifest then [manifest] else []
        end in
      default ∅ (foldM manifestItem items ∅)
  end.

(** ** The archive file map *)

Record file := mkFile { path : jsstring; buffer : bytes }.

(** A [Map] from path to member, in insertion order. *)
Abbreviation fileMap := (list (jsstring * file)).

(** [files.set(k, v)]: a present key keeps its place. *)
Fixpoint map_set (k : jsstring) (v : file) (m : fileMap) : fileMap :=
  match m with
  | [] => [(k, v)]
  | (k', v') :: m' =>
      if jsstring_eqb k k' then (k, v) :: m' else (k', v') :: map_set k v m'
  end.

Definition map_get (m : fileMap) (k : jsstring) : option file := assoc k m.

Definition map_keys (m : fileMap) : list jsstring := map fst m.

(** [unzipToMap(buffer)]; [None] when the archive or a member cannot be
    read. *)
Definition unzipToMap (rt : Runtime) (buf : bytes) : option fileMap :=
  directory ← openZip rt buf;
  foldM (fun files f =>
           if negb (jsstring_eqb (ztype f) (js "File")) then Some files
           else
             let p := normalize (zpath f) in
             b ← zbuffer f;
             Some (map_set p {| path := p; buffer := b |} files))
        directory [].

(** ** The candidate selector *)

Record Options := mkOptions {
  includeHtml : bool;
  includeCss : bool;
  includeSvg : bool;
  searchAllImages : bool;
  followOpfManifestOnly : bool;
  pixelThreshold : jsnum
}.

Definition isImageFile (p : jsstring) : bool :=
  existsb (fun e => endsWith (toLowerCase p) e)
          [js ".png"; js ".jpg"; js ".jpeg"; js ".gif"].

Definition inImagesFolder (p : jsstring) : bool :=
  bool_decide (js "images" ∈ split SLASH (toLowerCase p)).

(** [listCandidateImages(files, options)] *)
Definition listCandidateImages (files : fileMap) (options : Options)
  : list jsstring :=
  filter (fun p => isImageFile p
                   && (searchAllImages options || inImagesFolder p))
         (map_keys files).

(** ** The reference collector *)

Fixpoint spanWhile (f : N -> bool) (s : jsstring) : jsstring * jsstring :=
  match s with
  | c :: s' =>
      if f c then let '(a, b) := spanWhile f s' in (c :: a, b) else ([], s)
  | [] => ([], [])
  end.

Definition LPAREN : N := 40.
Definition RPAREN : N := 41.

Definition isQuote (c : N) : bool := (c =? 34) || (c =? 39).

(** The class of the second group: any unit but a closing parenthesis, a
    double quote and a single quote. *)
Definition isUrlArgChar (c : N) : bool := negb ((c =? RPAREN) || isQuote c).

(** [\s*\)] at the start of [s]; the rest behind the parenthesis. *)
Definition closeParen (s : jsstring) : option jsstring :=
  match trimStart s with
  | c :: r => if c =? RPAREN then Some r else None
  | [] => None
  end.

(** One attempt of the pattern of [extractUrlsFromCss] at the start of [s]
    (the letters url in either case, an opening parenthesis, white space, an
    optional quote as group 1, a non-empty run of the class above as group
    2, group 1 again, white space, a closing parenthesis): the second group
    and the text behind the match.  With an opening
    quote the argument is the whole run up to the same quote; without one it
    is the run up to the parenthesis, and when only white space precedes the
    parenthesis, backtracking leaves the last white-space unit to the second
    group. *)
Definition matchUrlAt (s : jsstring) : option (jsstring * jsstring) :=
  match s with
  | u :: r :: l :: p :: t =>
      if (lower_char u =? 117) && (lower_char r =? 114)
         && (lower_char l =? 108) && (p =? LPAREN)
      then
        let '(ws, t1) := spanWhile is_space t in
        match t1 with
        | c :: body =>
            if isQuote c then
              let '(g2, t2) := spanWhile isUrlArgChar body in
              match g2, t2 with
              | _ :: _, d :: t3 =>
                  if d =? c then r' ← closeParen t3; Some (g2, r') else None
              | _, _ => None
              end
            else
              let '(g2, t2) := spanWhile isUrlArgChar t1 in
              match t2 with
              | d :: t3 =>
                  if d =? RPAREN then
                    match g2 with
                    | _ :: _ => Some (g2, t3)
                    | [] => w ← last ws; Some ([w], t3)
                    end
                  else None
              | [] => None
              end
        | [] => None
        end
      else None
  | _ => None
  end.

(** The [exec] loop: the next attempt starts behind a match, or one unit
    further when there is none; [fuel] bounds the units left
    ([scanUrls_fuel] below). *)
Fixpoint scanUrls (fuel : nat) (s : jsstring) : list jsstring :=
  match fuel, s with
  | S fuel', c :: s' =>
      match matchUrlAt s with
      | Some (m2, rest) => m2 :: scanUrls fuel' rest
      | None => scanUrls fuel' s'
      end
  | _, _ => []
  end.

(** [extractUrlsFromCss(cssText)] *)
Definition extractUrlsFromCss (cssText : jsstring) : list jsstring :=
  scanUrls (length cssText) cssText.

(** [$(el).attr(name)] *)
Definition attr (el : element) (name : jsstring) : option jsstring :=
  assoc name (attrs el).

(** [a || b] on strings that may be undefined *)
Definition orElse (a b : option jsstring) : option jsstring :=
  match a with
  | Some (_ :: _) => a
  | _ => b
  end.

(** [a || ''] *)
Definition orEmpty (a : option jsstring) : jsstring := default [] a.

Section Collector.

Variable rt : Runtime.

(** [const abs = resolveRef(p, href, contentRoot); if (abs) usedAbs.add(abs)] *)
Definition addRef (p contentRoot : jsstring) (usedAbs : gset jsstring)
    (href : option jsstring) : gset jsstring :=
  let abs := resolveRef (cwd rt) p href contentRoot in
  if is_empty abs then usedAbs else {[ abs ]} ∪ usedAbs.

Definition addRefs (p contentRoot : jsstring) (usedAbs : gset jsstring)
    (hrefs : list (option jsstring)) : gset jsstring :=
  fold_left (addRef p contentRoot) hrefs usedAbs.

(** The references one element yields under each of the extraction rules. *)
Definition srcRef (el : element) : list (option jsstring) :=
  [attr el (js "src")].

Definition srcsetRefs (el : element) : list (option jsstring) :=
  map (fun part => Some (split_first SPACE (trim part)))
      (split COMMA (orEmpty (attr el (js "srcset")))).

Definition styleRefs (el : element) : list (option jsstring) :=
  map Some (extractUrlsFromCss (orEmpty (attr el (js "style")))).

Definition imageRef (el : element) : list (option jsstring) :=
  [orElse (attr el (js "href")) (attr el (js "xlink:href"))].

Definition styleTextRefs (el : element) : list (option jsstring) :=
  map Some (extractUrlsFromCss (text el)).

(** [$(selector).each((_, el) => ...)]: every matched element in turn. *)
Definition each (doc : cheerioDoc) (selector : jsstring)
    (refs : element -> list (option jsstring))
    (p contentRoot : jsstring) (usedAbs : gset jsstring) : gset jsstring :=
  fold_left (fun u el => addRefs p contentRoot u (refs el))
            (doc selector) usedAbs.

Definition isDoc (options : Options) (p : jsstring) : bool :=
  existsb (fun e => endsWith (toLowerCase p) e)
          (js ".xhtml" :: if includeHtml options
                          then [js ".html"; js ".htm"] else []).

Definition isCss (p : jsstring) : bool := endsWith (toLowerCase p) (js ".css").
Definition isSvg (p : jsstring) : bool := endsWith (toLowerCase p) (js ".svg").

(** The body of [if (isDoc(p)) { ... }]; [None] when [buffer.toString] or
    [cheerio.load] throws, which nothing in [collectReferences] catches. *)
Definition scanMarkup (options : Options) (contentRoot p : jsstring)
    (obj : file) (usedAbs : gset jsstring) : option (gset jsstring) :=
  html ← utf8 rt (buffer obj);
  doc ← cheerioLoad rt html (endsWith (toLowerCase p) (js ".xhtml"));
  let usedAbs := each doc (js "img[src]") srcRef p contentRoot usedAbs in
  let usedAbs := each doc (js "[srcset]") srcsetRefs p contentRoot usedAbs in
  let usedAbs := each doc (js "[style]") styleRefs p contentRoot usedAbs in
  Some (if includeSvg options
        then each doc (js "image") imageRef p contentRoot usedAbs
        else usedAbs).

(** The body of [if (options.includeCss && isCss(p)) { ... }] *)
Definition scanCss (contentRoot p : jsstring) (obj : file)
    (usedAbs : gset jsstring) : option (gset jsstring) :=
  css ← utf8 rt (buffer obj);
  Some (addRefs p contentRoot usedAbs (map Some (extractUrlsFromCss css))).

(** The body of [if (options.includeSvg && isSvg(p)) { ... }]: the text
    is decoded in front of the [try]; an exception of [cheerio.load] is
    caught and the document skipped. *)
Definition scanSvg (contentRoot p : jsstring) (obj : file)
    (usedAbs : gset jsstring) : option (gset jsstring) :=
  xml ← utf8 rt (buffer obj);
  Some match cheerioLoad rt xml true with
       | Some doc =>
           let usedAbs :=
             each doc (js "image") imageRef p contentRoot usedAbs in
           each doc (js "style") styleTextRefs p contentRoot usedAbs
       | None => usedAbs
       end.

(** One round of [for (const [p, obj] of files.entries())] *)
Definition scanFile (options : Options) (contentRoot : jsstring)
    (usedAbs : gset jsstring) (entry : jsstring * file)
  : option (gset jsstring) :=
  let '(p, obj) := entry in
  usedAbs ← (if isDoc options p
             then scanMarkup options contentRoot p obj usedAbs
             else Some usedAbs);
  usedAbs ← (if includeCss options && isCss p
             then scanCss contentRoot p obj usedAbs else Some usedAbs);
  if includeSvg options && isSvg p
  then scanSvg contentRoot p obj usedAbs else Some usedAbs.

(** [collectReferences({ files, contentRoot, options })]; [None] is an
    uncaught exception. *)
Definition collectReferences (files : fileMap) (contentRoot : jsstring)
    (options : Options) : option (gset jsstring) :=
  foldM (scanFile options contentRoot) files ∅.

End Collector.

(** ** The request *)

(** A value of [req.query] as the query parser of the web framework builds
    it: a missing key, a string, an array or a nested object. *)
Inductive qvalue :=
| QUndef
| QStr (s : jsstring)
| QArr (items : list qvalue)
| QObj (props : list (jsstring * qvalue)).

Record Query := mkQuery {
  q_includeHtml : qvalue;
  q_includeCss : qvalue;
  q_includeSvg : qvalue;
  q_searchAllImages : qvalue;
  q_followOpfManifestOnly : qvalue;
  q_pixelThreshold : qvalue;
  q_epubBasePath : qvalue
}.

Record Request := mkRequest {
  req_file : option bytes;       (* req.file.buffer, None without upload *)
  req_query : Query
}.

Definition qtruthy (v : qvalue) : bool :=
  match v with
  | QUndef => false
  | QStr s => negb (is_empty s)
  | QArr _ | QObj _ => true
  end.

(** [v === 'true'] *)
Definition isTrueString (v : qvalue) : bool :=
  match v with
  | QStr s => jsstring_eqb s (js "true")
  | _ => false
  end.

(** [String(v)] as [Number] computes it for a value that is no string: an
    array joins its elements with commas, a missing element counts as the
    empty string, an object prints as [[object Object]]. *)
Fixpoint qToString (v : qvalue) : jsstring :=
  match v with
  | QUndef => []
  | QStr s => s
  | QArr items =>
      (fix joinAll (l : list qvalue) : jsstring :=
         match l with
         | [] => []
         | [x] => qToString x
         | x :: l' => qToString x ++ COMMA :: joinAll l'
         end) items
  | QObj _ => js "[object Object]"
  end.

Definition numTruthy (n : jsnum) : bool :=
  match n with
  | NaN => false
  | Infinity _ => true
  | Finite q => negb (Qeq_bool q 0)
  end.

Definition DEFAULT_PIXEL_THRESHOLD : jsnum := Finite 5600000.

(** [Number(q.pixelThreshold || DEFAULT_PIXEL_THRESHOLD)
     || DEFAULT_PIXEL_THRESHOLD] *)
Definition thresholdOf (rt : Runtime) (v : qvalue) : jsnum :=
  let n := if qtruthy v then stringToNumber rt (qToString v)
           else DEFAULT_PIXEL_THRESHOLD in
  if numTruthy n then n else DEFAULT_PIXEL_THRESHOLD.

Definition optionsOf (rt : Runtime) (q : Query) : Options :=
  {| includeHtml := isTrueString (q_includeHtml q);
     includeCss := isTrueString (q_includeCss q);
     includeSvg := isTrueString (q_includeSvg q);
     searchAllImages := isTrueString (q_searchAllImages q);
     followOpfManifestOnly := isTrueString (q_followOpfManifestOnly q);
     pixelThreshold := thresholdOf rt (q_pixelThreshold q) |}.

(** [s.replace(/[\\\/]$/, '')] *)
Definition stripTrailingSlash (s : jsstring) : jsstring :=
  match rev s with
  | c :: r => if (c =? SLASH) || (c =? BACKSLASH) then rev r else s
  | [] => s
  end.

(** [q.epubBasePath ? q.epubBasePath.replace(...) : '']; [None] is the
    [TypeError] of calling [replace] on an array or an object. *)
Definition epubBasePathOf (v : qvalue) : option jsstring :=
  match v with
  | QUndef => Some []
  | QStr s => Some (if is_empty s then [] else stripTrailingSlash s)
  | QArr _ | QObj _ => None
  end.

(** ** The reconciler and the handler of [/api/validate] *)

Definition eq_ci (s lit : jsstring) : bool :=
  jsstring_eqb (toLowerCase s) lit.

(** [IMG_EXT_REGEX.test(s)]: a dot somewhere, and behind it, up to the end
    of the string, one of the four extensions in either case. *)
Fixpoint IMG_EXT_REGEX_test (s : jsstring) : bool :=
  match s with
  | [] => false
  | c :: r =>
      ((c =? DOT)
       && (eq_ci r (js "png") || eq_ci r (js "jpg") || eq_ci r (js "jpeg")
           || eq_ci r (js "gif")))
      || IMG_EXT_REGEX_test r
  end.

(** [buildFullPath(internalPath, epubBasePath)], [path.join] being the
    POSIX one on the hosts the service runs on. *)
Definition buildFullPath (internalPath epubBasePath : jsstring) : jsstring :=
  if is_empty epubBasePath then internalPath
  else Posix.join [epubBasePath; internalPath].

Record unrefEntry := mkUnref {
  u_file : jsstring;
  u_internalPath : jsstring;
  u_fullPath : jsstring
}.

Record oversizedEntry := mkOversized {
  o_file : jsstring;
  o_internalPath : jsstring;
  o_fullPath : jsstring;
  o_width : Z;
  o_height : Z;
  o_px : jsnum
}.

(** The JSON body of a successful run; [reportText], a rendering of the
    two lists, is left out. *)
Record Report := mkReport {
  unreferenced : list unrefEntry;
  oversized : list oversizedEntry;
  r_contentRoot : jsstring;
  r_epubBasePath : jsstring
}.

Inductive response :=
| Status400
| Status500
| Json (r : Report).

(** The double nearest to the integer [x], ties to the even significand;
    an integer below 2^53 in absolute value is a double. *)
Definition roundToDouble (x : Z) : Z :=
  let a := Z.abs x in
  if (a <? 2 ^ 53)%Z then x
  else
    let e := (Z.log2 a - 52)%Z in
    let q := (a / 2 ^ e)%Z in
    let r := (a mod 2 ^ e)%Z in
    let half := (2 ^ (e - 1))%Z in
    let q' := if (half <? r)%Z || ((r =? half)%Z && Z.odd q)
              then (q + 1)%Z else q in
    (Z.sgn x * (q' * 2 ^ e))%Z.

(** [w * h] on two numbers with integer values: the product is rounded to
    a double, and is an infinity from 2^1024 on. *)
Definition mulNum (w h : Z) : jsnum :=
  let p := roundToDouble (w * h) in
  if (2 ^ 1024 <=? Z.abs p)%Z then Infinity (p <? 0)%Z
  else Finite (inject_Z p).

(** [a >= t] *)
Definition geNum (a t : jsnum) : bool :=
  match a, t with
  | NaN, _ | _, NaN => false
  | Infinity na, Infinity nt => negb na || nt
  | Infinity na, Finite _ => negb na
  | Finite _, Infinity nt => nt
  | Finite x, Finite q => Qle_bool q x
  end.

Section Handler.

Variable rt : Runtime.

(** [contentRoot] of the handler; [None] when decoding the container
    descriptor throws. *)
Definition contentRootOf (files : fileMap) : option jsstring :=
  match map_get files (js "META-INF/container.xml") with
  | Some container =>
      xml ← utf8 rt (buffer container);
      Some (getContentRootFromContainerXml rt xml)
  | None => Some []
  end.

(** The loop that looks for the first [.opf] member under the content
    root; [None] is an exception. *)
Definition manifestAbsOf (files : fileMap) (options : Options)
    (contentRoot : jsstring) : option (gset jsstring) :=
  if followOpfManifestOnly options && negb (is_empty contentRoot) then
    match List.find (fun p => startsWith p contentRoot
                              && endsWith (toLowerCase p) (js ".opf"))
                    (map_keys files) with
    | Some p =>
        f ← map_get files p;
        xml ← utf8 rt (buffer f);
        let hrefs := getManifestImagesFromOpf rt xml in
        Some (set_map (C := gset jsstring) (D := gset jsstring)
                (fun h => normalize
                            (Posix.join [normalize contentRoot; normalize h]))
                hrefs)
    | None => Some ∅
    end
  else Some ∅.

Definition candidatesAbsOf (files : fileMap) (options : Options)
    (manifestAbs : gset jsstring) : list jsstring :=
  filter (fun p => negb (followOpfManifestOnly options
                         && negb (bool_decide (p ∈ manifestAbs))))
         (listCandidateImages files options).

(** What [imageSize(files.get(abs).buffer)] does inside the [try]. *)
Definition probeOf (files : fileMap) (abs : jsstring) : probe :=
  match map_get files abs with
  | Some f => imageSize rt (buffer f)
  | None => ProbeThrows
  end.

(** One round of [for (const abs of candidatesAbs)] *)
Definition classifyOne (files : fileMap) (usedAbs : gset jsstring)
    (options : Options) (epubBasePath : jsstring)
    (acc : list unrefEntry * list oversizedEntry) (abs : jsstring)
  : list unrefEntry * list oversizedEntry :=
  let '(unreferenced, oversized) := acc in
  let unreferenced :=
    if negb (bool_decide (abs ∈ usedAbs))
    then unreferenced ++ [ {| u_file := Posix.basename abs;
                              u_internalPath := abs;
                              u_fullPath := buildFullPath abs epubBasePath |} ]
    else unreferenced in
  let oversized :=
    if IMG_EXT_REGEX_test abs then
      match probeOf files abs with
      | ProbeDims (Some w) (Some h) =>
          if negb (w =? 0)%Z && negb (h =? 0)%Z
             && geNum (mulNum w h) (pixelThreshold options)
          then oversized ++ [ {| o_file := Posix.basename abs;
                                 o_internalPath := abs;
                                 o_fullPath := buildFullPath abs epubBasePath;
                                 o_width := w;
                                 o_height := h;
                                 o_px := mulNum w h |} ]
          else oversized
      | _ => oversized
      end
    else oversized in
  (unreferenced, oversized).

Definition classify (files : fileMap) (usedAbs : gset jsstring)
    (options : Options) (epubBasePath : jsstring)
    (candidatesAbs : list jsstring)
  : list unrefEntry * list oversizedEntry :=
  fold_left (classifyOne files usedAbs options epubBasePath)
            candidatesAbs ([], []).

(** [app.post('/api/validate', ...)]: every exception ends in the [catch]
    of the handler, which answers with status 500. *)
Definition validate (req : Request) : response :=
  match req_file req with
  | None => Status400
  | Some buf =>
      let q := req_query req in
      let options := optionsOf rt q in
      match epubBasePathOf (q_epubBasePath q) with
      | None => Status500
      | Some epubBasePath =>
      match unzipToMap rt buf with
      | None => Status500
      | Some files =>
      match contentRootOf files with
      | None => Status500
      | Some contentRoot =>
      match manifestAbsOf files options contentRoot with
      | None => Status500
      | Some manifestAbs =>
      let candidatesAbs := candidatesAbsOf files options manifestAbs in
      match collectReferences rt files contentRoot options with
      | None => Status500
      | Some usedAbs =>
      let '(unreferenced, oversized) :=
        classify files usedAbs options epubBasePath candidatesAbs in
      Json {| unreferenced := unreferenced;
              oversized := oversized;
              r_contentRoot := contentRoot;
              r_epubBasePath := epubBasePath |}
      end end end end end
  end.

End Handler.

(** ** A sample runtime and archive, for the worked scenarios *)

Module Sample.

Fixpoint digitsValue (acc : Z) (s : jsstring) : option Z :=
  match s with
  | [] => Some acc
  | c :: s' =>
      if (48 <=? c) && (c <=? 57)
      then digitsValue (10 * acc + Z.of_N (c - 48))%Z s'
      else None
  end.

(** [Number(s)] on the empty string and on the decimal integers with an
    optional minus sign; every other string is taken as not-a-number. *)
Definition decimalToNumber (s : jsstring) : jsnum :=
  match s with
  | [] => Finite 0
  | 45 :: ((_ :: _) as ds) =>
      match digitsValue 0 ds with
      | Some z => Finite (inject_Z (- z))
      | None => NaN
      end
  | _ =>
      match digitsValue 0 s with
      | Some z => Finite (inject_Z z)
      | None => NaN
      end
  end.

Definition docOf (matches : list (jsstring * list element)) : cheerioDoc :=
  fun selector => default [] (assoc selector matches).

(** The longest string of the runtime, 0x1fffffe8 units: decoding a longer
    buffer throws. *)
Definition maxStringLength : N := 536870888.

(** A runtime given by tables: the zip directory, the object tree of each
    XML text, the loaded document of each markup text and the dimensions of
    each image buffer.  A text or buffer absent from its table makes the
    collaborator throw.  The sample archives hold ASCII text, which decodes
    to itself. *)
Definition runtime (directory : list zentry)
    (xmls : list (jsstring * xval))
    (doms : list (jsstring * cheerioDoc))
    (sizes : list (bytes * probe)) : Runtime :=
  {| cwd := js "/srv/app";
     openZip := fun _ => Some directory;
     utf8 := fun b => if (maxStringLength <? N.of_nat (length b))%N
                      then None else Some b;
     xmlParse := fun t => assoc t xmls;
     cheerioLoad := fun t _ => assoc t doms;
     imageSize := fun b => default ProbeThrows (assoc b sizes);
     stringToNumber := decimalToNumber |}.

Definition member (p content : string) : zentry :=
  {| ztype := js "File"; zpath := js p; zbuffer := Some (js content) |}.

Definition noQuery : Query :=
  {| q_includeHtml := QUndef; q_includeCss := QUndef; q_includeSvg := QUndef;
     q_searchAllImages := QUndef; q_followOpfManifestOnly := QUndef;
     q_pixelThreshold := QUndef; q_epubBasePath := QUndef |}.

Definition upload (q : Query) : Request :=
  {| req_file := Some []; req_query := q |}.

(** The archive of scenario A: one page that shows [a.png], and a second
    image nothing refers to. *)
Definition pageText : jsstring := js "<img src='images/a.png'/>".

Definition page : cheerioDoc :=
  docOf [(js "img[src]",
          [ {| attrs := [(js "src", js "images/a.png")]; text := [] |} ])].

Definition archiveA : list zentry :=
  [ member "content/index.xhtml" "<img src='images/a.png'/>";
    member "content/images/a.png" "bytes of a";
    member "content/images/b.png" "bytes of b" ].

Definition rtA : Runtime :=
  runtime archiveA [] [(pageText, page)]
          [(js "bytes of a", ProbeDims (Some 3000%Z) (Some 2000%Z));
           (js "bytes of b", ProbeDims (Some 10%Z) (Some 10%Z))].

End Sample.

(** * Vocabulary of the properties *)

(** ** The path resolver *)

(** The containment check at the end of [resolveRef]. *)
Definition escapesRoot (cwd contentRoot abs : jsstring) : bool :=
  negb (is_empty contentRoot)
  && startsWith (Posix.relative cwd (normalize contentRoot) abs) (js "..").

(** A scheme as the pattern of [resolveRef] reads it: a non-empty run of
    letters. *)
Definition isScheme (s : jsstring) : Prop :=
  s <> [] /\ Forall (fun c => is_alpha c = true) s.

(** A scheme as RFC 3986 writes it: a letter, then letters, digits and the
    signs [+], [-] and [.]. *)
Definition isUriScheme (s : jsstring) : bool :=
  match s with
  | c :: r =>
      is_alpha c
      && forallb (fun x => is_alpha x || ((48 <=? x) && (x <=? 57))
                           || (x =? 43) || (x =? 45) || (x =? 46)) r
  | [] => false
  end.

(** A reference the guards of [resolveRef] let through and whose first
    unit is neither a slash nor white space. *)
Definition plainRef (rest : jsstring) : Prop :=
  match rest with
  | [] => False
  | c :: _ => c <> SLASH /\ is_space c = false
  end
  /\ isUrlLike rest = false
  /\ startsWith rest (js "data:") = false.

(** [T] is [F] or lies beneath the directory [F]. *)
Definition beneath (F T : jsstring) : Prop :=
  T = F
  \/ (exists rest, T = F ++ SLASH :: rest)
  \/ (F = [SLASH] /\ exists rest, T = SLASH :: rest).

(** ** Raw references *)

(** The raw references the collector takes from a document, rule by rule,
    as lists; [collect_spec] compares them with what [collectReferences]
    adds to the used-set. *)
Definition markupRefs (rt : Runtime) (options : Options) (p : jsstring)
    (obj : file) : list (option jsstring) :=
  match utf8 rt (buffer obj)
          ≫= fun html =>
               cheerioLoad rt html (endsWith (toLowerCase p) (js ".xhtml"))
  with
  | None => []
  | Some doc =>
      flat_map srcRef (doc (js "img[src]"))
      ++ flat_map srcsetRefs (doc (js "[srcset]"))
      ++ flat_map styleRefs (doc (js "[style]"))
      ++ (if includeSvg options
          then flat_map imageRef (doc (js "image")) else [])
  end.

Definition cssRefs (rt : Runtime) (obj : file) : list (option jsstring) :=
  map Some (extractUrlsFromCss (default [] (utf8 rt (buffer obj)))).

Definition svgRefs (rt : Runtime) (obj : file) : list (option jsstring) :=
  match utf8 rt (buffer obj) ≫= fun xml => cheerioLoad rt xml true with
  | None => []
  | Some doc =>
      flat_map imageRef (doc (js "image"))
      ++ flat_map styleTextRefs (doc (js "style"))
  end.

(** Every raw reference the collector extracts from the member [p] under
    the options. *)
Definition rawRefs (rt : Runtime) (options : Options) (p : jsstring)
    (obj : file) : list (option jsstring) :=
  (if isDoc options p then markupRefs rt options p obj else [])
  ++ (if includeCss options && isCss p then cssRefs rt obj else [])
  ++ (if includeSvg options && isSvg p then svgRefs rt obj else []).

(** One of the references [hrefs] of the document [p] resolves to [x]. *)
Definition resolvesTo (rt : Runtime) (contentRoot p : jsstring)
    (hrefs : list (option jsstring)) (x : jsstring) : Prop :=
  exists href, In href hrefs
               /\ resolveRef (cwd rt) p href contentRoot = x /\ x <> [].

(** ** Reports *)

(** The entry a candidate gets in [unreferenced]. *)
Definition unrefEntryOf (epubBasePath abs : jsstring) : unrefEntry :=
  {| u_file := Posix.basename abs;
     u_internalPath := abs;
     u_fullPath := buildFullPath abs epubBasePath |}.

(** The entry a candidate gets in [oversized], if any. *)
Definition oversizedEntryOf (rt : Runtime) (files : fileMap)
    (options : Options) (epubBasePath abs : jsstring)
  : option oversizedEntry :=
  if IMG_EXT_REGEX_test abs then
    match probeOf rt files abs with
    | ProbeDims (Some w) (Some h) =>
        if negb (w =? 0)%Z && negb (h =? 0)%Z
           && geNum (mulNum w h) (pixelThreshold options)
        then Some {| o_file := Posix.basename abs;
                     o_internalPath := abs;
                     o_fullPath := buildFullPath abs epubBasePath;
                     o_width := w;
                     o_height := h;
                     o_px := mulNum w h |}
        else None
    | _ => None
    end
  else None.

(** The content root of a run that gets past the container descriptor. *)
Definition rootOf (rt : Runtime) (files : fileMap) : jsstring :=
  default [] (contentRootOf rt files).

(** The intermediate values of a run that reaches the classification: the
    file map, the manifest-image set, the used-set and the display
    prefix. *)
Definition stages (rt : Runtime) (req : Request) (files : fileMap)
    (manifestAbs usedAbs : gset jsstring) (epubBasePath : jsstring) : Prop :=
  let options := optionsOf rt (req_query req) in
  let contentRoot := rootOf rt files in
  (exists buf, req_file req = Some buf /\ unzipToMap rt buf = Some files)
  /\ epubBasePathOf (q_epubBasePath (req_query req)) = Some epubBasePath
  /\ contentRootOf rt files = Some contentRoot
  /\ manifestAbsOf rt files options contentRoot = Some manifestAbs
  /\ collectReferences rt files contentRoot options = Some usedAbs.

(** The report of such a run. *)
Definition reportOf (rt : Runtime) (req : Request) (files : fileMap)
    (manifestAbs usedAbs : gset jsstring) (epubBasePath : jsstring)
  : Report :=
  let options := optionsOf rt (req_query req) in
  let candidatesAbs := candidatesAbsOf files options manifestAbs in
  {| unreferenced :=
       map (unrefEntryOf epubBasePath)
           (filter (fun abs => abs ∉ usedAbs) candidatesAbs);
     oversized :=
       omap (oversizedEntryOf rt files options epubBasePath) candidatesAbs;
     r_contentRoot := rootOf rt files;
     r_epubBasePath := epubBasePath |}.

(** Membership of a candidate in the two lists of a report. *)
Definition inUnreferenced (rep : Report) (abs : jsstring) : Prop :=
  exists e, e ∈ unreferenced rep /\ u_internalPath e = abs.

Definition inOversized (rep : Report) (abs : jsstring) : Prop :=
  exists e, e ∈ oversized rep /\ o_internalPath e = abs.

(** The runtime with another image prober. *)
Definition withImageSize (rt : Runtime) (f : bytes -> probe) : Runtime :=
  {| cwd := cwd rt;
     openZip := openZip rt;
     utf8 := utf8 rt;
     xmlParse := xmlParse rt;
     cheerioLoad := cheerioLoad rt;
     imageSize := f;
     stringToNumber := stringToNumber rt |}.


(** The paths of a report: the unreferenced ones, and the oversized ones
    with their pixel areas. *)
Definition paths (r : response)
  : option (list jsstring * list (jsstring * jsnum)) :=
  match r with
  | Json rep =>
      Some (map u_internalPath (unreferenced rep),
            map (fun e => (o_internalPath e, o_px e)) (oversized rep))
  | _ => None
  end.

(** ** Sample runs *)

Module SampleRuns.
Import Sample.

Definition filesA : fileMap :=
  [ (js "content/index.xhtml",
     {| path := js "content/index.xhtml"; buffer := pageText |});
    (js "content/images/a.png",
     {| path := js "content/images/a.png"; buffer := js "bytes of a" |});
    (js "content/images/b.png",
     {| path := js "content/images/b.png"; buffer := js "bytes of b" |}) ].

Definition usedA : gset jsstring := {[ js "content/images/a.png" ]}.

(** The query that only asks for the manifest restriction. *)
Definition manifestOnly : Query :=
  {| q_includeHtml := QUndef; q_includeCss := QUndef; q_includeSvg := QUndef;
     q_searchAllImages := QUndef;
     q_followOpfManifestOnly := QStr (js "true");
     q_pixelThreshold := QUndef; q_epubBasePath := QUndef |}.

(** The archive of scenario C: a stylesheet that refers to an image. *)
Definition rtC : Runtime :=
  runtime
    [ member "css/style.css" "div { background: url('../images/c.png') }";
      member "images/c.png" "bytes of c" ]
    [] [] [].

Definition withCss : Query :=
  {| q_includeHtml := QUndef; q_includeCss := QStr (js "true");
     q_includeSvg := QUndef;
     q_searchAllImages := QUndef; q_followOpfManifestOnly := QUndef;
     q_pixelThreshold := QUndef; q_epubBasePath := QUndef |}.

(** The archive of scenario D: a container descriptor, a package document
    that declares one image, and an image the manifest does not list. *)
Definition containerTree : xval :=
  XObj [(js "container",
         XObj [(js "rootfiles",
                XObj [(js "rootfile",
                       XObj [(js "@_full-path",
                              XStr (js "OEBPS/content.opf"));
                             (js "@_media-type",
                              XStr (js "application/oebps-package+xml"))])])])].

Definition packageTree : xval :=
  XObj [(js "package",
         XObj [(js "manifest",
                XObj [(js "item",
                       XArr [ XObj [(js "@_href", XStr (js "images/a.png"));
                                    (js "@_media-type",
                                     XStr (js "image/png"))];
                              XObj [(js "@_href", XStr (js "ch1.xhtml"));
                                    (js "@_media-type",
                                     XStr (js "application/xhtml+xml"))] ])])])].

Definition rtD : Runtime :=
  runtime
    [ member "META-INF/container.xml" "container descriptor";
      member "OEBPS/content.opf" "package document";
      member "OEBPS/images/a.png" "bytes of a";
      member "OEBPS/images/stray.jpg" "bytes of stray" ]
    [ (js "container descriptor", containerTree);
      (js "package document", packageTree) ]
    [] [].

End SampleRuns.


(** ** The manifest locator and the archive *)

(** The items [getManifestImagesFromOpf] walks over. *)
Definition manifestItemsOf (doc : xval) : list xval :=
  let manifest :=
    xget (xget (xget doc (js "package")) (js "manifest")) (js "item") in
  match manifest with
  | XArr l => l
  | _ => if xtruthy manifest then [manifest] else []
  end.

(** The [href] of an item that declares an image: a media type that begins
    with [image/] and a non-empty [href]. *)
Definition imageHrefOf (it : xval) : option jsstring :=
  match xget it (js "@_media-type"), xget it (js "@_href") with
  | XStr mt, XStr h =>
      if startsWith mt (js "image/") && negb (is_empty h) then Some h
      else None
  | _, _ => None
  end.

(** An item whose two attributes, when present, are strings, as the XML
    parser delivers attributes. *)
Definition itemWellTyped (it : xval) : Prop :=
  match xget it (js "@_media-type") with
  | XStr _ | XUndef => True
  | _ => False
  end
  /\ match xget it (js "@_href") with
     | XStr _ | XUndef => True
     | _ => False
     end.

(** The last regular member of the zip directory that is stored under the
    key [k]. *)
Fixpoint lastMember (k : jsstring) (directory : list zentry)
  : option zentry :=
  match directory with
  | [] => None
  | e :: rest =>
      match lastMember k rest with
      | Some e' => Some e'
      | None =>
          if jsstring_eqb (ztype e) (js "File")
             && jsstring_eqb (normalize (zpath e)) k
          then Some e else None
      end
  end.

(** The options with [searchAllImages] set. *)
Definition withSearchAll (options : Options) : Options :=
  {| includeHtml := includeHtml options;
     includeCss := includeCss options;
     includeSvg := includeSvg options;
     searchAllImages := true;
     followOpfManifestOnly := followOpfManifestOnly options;
     pixelThreshold := pixelThreshold options |}.

(** The round of [unzipToMap] on one member of the directory. *)
Definition unzipStep (files : fileMap) (f : zentry) : option fileMap :=
  if negb (jsstring_eqb (ztype f) (js "File")) then Some files
  else
    let p := normalize (zpath f) in
    b ← zbuffer f;
    Some (map_set p {| path := p; buffer := b |} files).

(** ** Requests that differ in one query value *)

Definition withThreshold (q : Query) (v : qvalue) : Query :=
  {| q_includeHtml := q_includeHtml q;
     q_includeCss := q_includeCss q;
     q_includeSvg := q_includeSvg q;
     q_searchAllImages := q_searchAllImages q;
     q_followOpfManifestOnly := q_followOpfManifestOnly q;
     q_pixelThreshold := v;
     q_epubBasePath := q_epubBasePath q |}.

Definition withBasePath (q : Query) (v : qvalue) : Query :=
  {| q_includeHtml := q_includeHtml q;
     q_includeCss := q_includeCss q;
     q_includeSvg := q_includeSvg q;
     q_searchAllImages := q_searchAllImages q;
     q_followOpfManifestOnly := q_followOpfManifestOnly q;
     q_pixelThreshold := q_pixelThreshold q;
     q_epubBasePath := v |}.

(** Scanning the member [p] throws outside every [try] of the collector:
    its text cannot be decoded, or it is a page and the markup parser
    throws on it. *)
Definition scanned (options : Options) (p : jsstring) : bool :=
  isDoc options p || (includeCss options && isCss p)
  || (includeSvg options && isSvg p).

Definition documentAborts (rt : Runtime) (options : Options) (p : jsstring)
    (obj : file) : Prop :=
  (scanned options p = true /\ utf8 rt (buffer obj) = None)
  \/ (isDoc options p = true
      /\ exists html,
           utf8 rt (buffer obj) = Some html
           /\ cheerioLoad rt html (endsWith (toLowerCase p) (js ".xhtml"))
              = None).

(** ** Paths as lists of segments *)

(** The segments joined by single slashes. *)
Fixpoint joinSlash (segs : list jsstring) : jsstring :=
  match segs with
  | [] => []
  | s :: rest =>
      match rest with
      | [] => s
      | _ :: _ => s ++ SLASH :: joinSlash rest
      end
  end.

(** A string without a separator of either kind. *)
Definition sepFree (s : jsstring) : Prop :=
  (SLASH ∉ s) /\ (BACKSLASH ∉ s).

(** A name of a directory or of a member: not empty, without a separator,
    not a dot segment. *)
Definition plainName (s : jsstring) : Prop :=
  s <> [] /\ sepFree s /\ s <> js "." /\ s <> js "..".

(** Walking the segments of a reference from the directory [dir] (its
    names, outermost first): an empty segment and [.] stay, [..] goes up,
    any other segment goes down; [None] when the walk leaves the top
    directory. *)
Fixpoint walk (dir : list jsstring) (segs : list jsstring)
  : option (list jsstring) :=
  match segs with
  | [] => Some dir
  | s :: rest =>
      if is_empty s || jsstring_eqb s (js ".") then walk dir rest
      else if jsstring_eqb s (js "..") then
        match dir with
        | [] => None
        | _ :: _ => walk (removelast dir) rest
        end
      else walk (dir ++ [s]) rest
  end.

(** The state of [normalizeString] behind a separator, when the segments
    kept so far are [stack]. *)
Definition stateOf (stack : list jsstring) : Posix.nstate :=
  Posix.flush (joinSlash stack) (length (default [] (last stack))).

(** The counter [dots] of [normalizeString] behind one more unit of a
    segment. *)
Definition dotStep (d : Z) (c : N) : Z :=
  if (c =? DOT) && negb (d =? -1)%Z then (d + 1)%Z else (-1)%Z.

(** One segment and the separator behind it, in [normalizeString]. *)
Definition segStep (allowAboveRoot : bool) (st : Posix.nstate)
    (s : jsstring) : Posix.nstate :=
  Posix.sep_step allowAboveRoot (fold_left (Posix.step allowAboveRoot) s st).

(** ** Values of a [srcset] attribute *)

(** The texts joined by commas. *)
Fixpoint joinComma (parts : list jsstring) : jsstring :=
  match parts with
  | [] => []
  | s :: rest =>
      match rest with
      | [] => s
      | _ :: _ => s ++ COMMA :: joinComma rest
      end
  end.

(** One image candidate of a [srcset] value: white space [ws], the address
    [u], and behind it [tail], which is empty or a space and a
    descriptor. *)
Record candidate := mkCandidate {
  c_ws : jsstring;
  c_url : jsstring;
  c_tail : jsstring
}.

Definition candidateText (c : candidate) : jsstring :=
  c_ws c ++ c_url c ++ c_tail c.

Definition wellFormedCandidate (c : candidate) : Prop :=
  forallb is_space (c_ws c) = true
  /\ c_url c <> []
  /\ Forall (fun x => is_space x = false /\ x <> COMMA) (c_url c)
  /\ (COMMA ∉ c_tail c)
  /\ (c_tail c = [] \/ exists d, c_tail c = SPACE :: d).

(** ** The package document *)

(** The member the handler reads the manifest from: the first key under
    the content root that ends with [.opf] in either case. *)
Definition firstPackageDocument (files : fileMap) (contentRoot : jsstring)
  : option jsstring :=
  List.find (fun p => startsWith p contentRoot
                      && endsWith (toLowerCase p) (js ".opf"))
            (map_keys files).

(** The archive of scenario A with a prober that reports a width of zero
    for the second image. *)
Definition rtFlat : Runtime :=
  withImageSize Sample.rtA
    (fun b => if jsstring_eqb b (js "bytes of b")
              then ProbeDims (Some 0%Z) (Some 5%Z)
              else ProbeThrows).

(** The same archive with a second image of 94,906,267 by 94,906,269
    pixels, as the header of a PNG file may declare them. *)
Definition rtWide : Runtime :=
  withImageSize Sample.rtA
    (fun b => if jsstring_eqb b (js "bytes of b")
              then ProbeDims (Some 94906267%Z) (Some 94906269%Z)
              else ProbeThrows).

Definition wideThreshold : Query :=
  withThreshold Sample.noQuery (QStr (js "9007199705687824")).

(** A stylesheet of white space, one unit longer than the longest string
    of the runtime, in an archive with one image. *)
Definition longText : bytes :=
  repeat SPACE (N.to_nat (Sample.maxStringLength + 1)).

Definition rtLong : Runtime :=
  Sample.runtime
    [ {| ztype := js "File"; zpath := js "css/style.css";
         zbuffer := Some longText |};
      Sample.member "images/c.png" "bytes of c" ]
    [] [] [].

(** ** The references a document holds

    The extraction rules of the collector as the specification words them,
    on the text and the tag tree of a document; none of the helpers of
    [collectReferences] is used. *)

(** The path [p] ends with the extension [ext], in either case. *)
Definition hasExtension (p ext : jsstring) : Prop :=
  exists stem, toLowerCase p = stem ++ ext.

(** The three kinds of documents that are scanned under the options. *)
Definition isMarkupDocument (options : Options) (p : jsstring) : Prop :=
  hasExtension p (js ".xhtml")
  \/ (includeHtml options = true
      /\ (hasExtension p (js ".html") \/ hasExtension p (js ".htm"))).

Definition isStylesheet (options : Options) (p : jsstring) : Prop :=
  includeCss options = true /\ hasExtension p (js ".css").

Definition isVectorDocument (options : Options) (p : jsstring) : Prop :=
  includeSvg options = true /\ hasExtension p (js ".svg").

(** A [url(...)] call of a style text: the name of the function, white
    space behind the opening parenthesis, the argument, bare or between
    two quotes, and white space in front of the closing parenthesis. *)
Record urlCall := mkUrlCall {
  uc_name : jsstring;
  uc_lead : jsstring;
  uc_quote : option N;
  uc_arg : jsstring;
  uc_trail : jsstring
}.

Definition quoteText (q : option N) : jsstring :=
  match q with
  | Some c => [c]
  | None => []
  end.

Definition urlCallText (c : urlCall) : jsstring :=
  uc_name c ++ [LPAREN] ++ uc_lead c ++ quoteText (uc_quote c) ++ uc_arg c
    ++ quoteText (uc_quote c) ++ uc_trail c ++ [RPAREN].

(** A call as a stylesheet may write it: the name in either case; a quoted
    argument holds any unit but its own quote, a bare one neither white
    space nor a quote nor a closing parenthesis. *)
Definition isUrlCall (c : urlCall) : Prop :=
  toLowerCase (uc_name c) = js "url"
  /\ forallb is_space (uc_lead c) = true
  /\ forallb is_space (uc_trail c) = true
  /\ uc_arg c <> []
  /\ match uc_quote c with
     | Some q => (q = 34 \/ q = 39) /\ (q ∉ uc_arg c)
     | None =>
         Forall (fun x => is_space x = false
                          /\ x <> RPAREN /\ x <> 34 /\ x <> 39) (uc_arg c)
     end.

(** The style text [css] holds the call [c]. *)
Definition holdsUrlCall (css : jsstring) (c : urlCall) : Prop :=
  isUrlCall c /\ exists pre post, css = pre ++ urlCallText c ++ post.

(** A call the pattern of the scan reads: its argument, quoted or not,
    holds neither a closing parenthesis nor a quote of either kind. *)
Definition readableUrlCall (c : urlCall) : Prop :=
  isUrlCall c
  /\ Forall (fun x => x <> RPAREN /\ x <> 34 /\ x <> 39) (uc_arg c).

(** Text without the opening of a call, [url] and a parenthesis, in either
    case. *)
Definition callFree (s : jsstring) : Prop :=
  forall a k b, s = a ++ k ++ b -> toLowerCase k <> js "url(".

(** A style text that begins with calls, each behind a piece of other
    text, and goes on with [rest]. *)
Fixpoint styleText (items : list (jsstring * urlCall)) (rest : jsstring)
  : jsstring :=
  match items with
  | [] => rest
  | (other, c) :: items' => other ++ urlCallText c ++ styleText items' rest
  end.

(** The style text [css] holds a call with the argument [r], and up to
    that call it is made of readable calls and of text without the opening
    of a call. *)
Definition readsUrl (css : jsstring) (r : jsstring) : Prop :=
  exists items rest other c,
    css = styleText items rest
    /\ Forall (fun it => callFree (fst it) /\ readableUrlCall (snd it)) items
    /\ In (other, c) items
    /\ uc_arg c = r.

(** The address of an [image] element: its [href], or its [xlink:href]
    when [href] is absent or empty. *)
Definition imageAddress (el : element) (r : jsstring) : Prop :=
  (attr el (js "href") = Some r /\ r <> [])
  \/ ((attr el (js "href") = None \/ attr el (js "href") = Some [])
      /\ attr el (js "xlink:href") = Some r).

(** The address of one candidate of a [srcset] attribute made of
    well-formed candidates. *)
Definition srcsetAddress (el : element) (r : jsstring) : Prop :=
  exists cands c,
    attr el (js "srcset") = Some (joinComma (map candidateText cands))
    /\ Forall wellFormedCandidate cands
    /\ In c cands /\ c_url c = r.

(** The references of the tag tree of a markup document, rule by rule. *)
Inductive markupHolds (options : Options) (doc : cheerioDoc) (r : jsstring)
  : Prop :=
| holds_src (el : element) :
    In el (doc (js "img[src]")) -> attr el (js "src") = Some r ->
    markupHolds options doc r
| holds_srcset (el : element) :
    In el (doc (js "[srcset]")) -> srcsetAddress el r ->
    markupHolds options doc r
| holds_style (el : element) (css : jsstring) :
    In el (doc (js "[style]")) -> attr el (js "style") = Some css ->
    readsUrl css r ->
    markupHolds options doc r
| holds_image (el : element) :
    includeSvg options = true ->
    In el (doc (js "image")) -> imageAddress el r ->
    markupHolds options doc r.

(** The references of the tag tree of a vector document. *)
Inductive vectorHolds (doc : cheerioDoc) (r : jsstring) : Prop :=
| vector_image (el : element) :
    In el (doc (js "image")) -> imageAddress el r -> vectorHolds doc r
| vector_style (el : element) :
    In el (doc (js "style")) -> readsUrl (text el) r -> vectorHolds doc r.

(** The member [p] of the archive, scanned under the options, holds the
    raw reference [r]. *)
Inductive holdsReference (rt : Runtime) (options : Options) (p : jsstring)
    (obj : file) (r : jsstring) : Prop :=
| in_markup (html : jsstring) (mode : bool) (doc : cheerioDoc) :
    isMarkupDocument options p ->
    utf8 rt (buffer obj) = Some html ->
    (mode = true <-> hasExtension p (js ".xhtml")) ->
    cheerioLoad rt html mode = Some doc ->
    markupHolds options doc r ->
    holdsReference rt options p obj r
| in_stylesheet (css : jsstring) :
    isStylesheet options p ->
    utf8 rt (buffer obj) = Some css ->
    readsUrl css r ->
    holdsReference rt options p obj r
| in_vector (xml : jsstring) (doc : cheerioDoc) :
    isVectorDocument options p ->
    utf8 rt (buffer obj) = Some xml ->
    cheerioLoad rt xml true = Some doc ->
    vectorHolds doc r ->
    holdsReference rt options p obj r.

(** What the scan takes from a readable call: a bare argument comes with
    the white space behind it. *)
Definition extractedArg (c : urlCall) : jsstring :=
  match uc_quote c with
  | Some _ => uc_arg c
  | None => uc_arg c ++ uc_trail c
  end.

(** An archive whose stylesheet refers to an image with a parenthesis in
    its name. *)
Definition rtParen : Runtime :=
  Sample.runtime
    [ Sample.member "css/style.css"
                    "div { background: url('../images/a(1).png') }";
      Sample.member "images/a(1).png" "bytes of a" ]
    [] [] [].

Definition parenCall : urlCall :=
  {| uc_name := js "url"; uc_lead := []; uc_quote := Some 39;
     uc_arg := js "../images/a(1).png"; uc_trail := [] |}.

(** A test for [callFree]. *)
Fixpoint callFreeb (s : jsstring) : bool :=
  match s with
  | [] => true
  | _ :: s' =>
      negb (startsWith (toLowerCase s) (js "url(")) && callFreeb s'
  end.

(** * Properties *)

(** ** The option monad *)

Lemma bind_Some {A B} (f : A -> option B) (a : A) : (Some a ≫= f) = f a.
Proof. reflexivity. Qed.

Lemma bind_inv {A B} (f : A -> option B) (m : option A) (b : B) :
  m ≫= f = Some b -> exists a, m = Some a /\ f a = Some b.
Proof. destruct m as [a|]; [eauto | discriminate]. Qed.


(** ** Strings *)

Section StringFacts.

Implicit Types s p r : jsstring.

Lemma startsWith_spec s p :
  startsWith s p = true <-> exists r, s = p ++ r.
Proof.
  revert s; induction p as [|c p IH]; intros s; simpl.
  - split; [exists s; reflexivity | reflexivity].
  - destruct s as [|d s].
    + split; [discriminate | intros [r Hr]; discriminate].
    + rewrite andb_true_iff, N.eqb_eq, IH. split.
      * intros [-> [r ->]]. exists r; reflexivity.
      * intros [r Hr]. injection Hr as -> ->. eauto.
Qed.

Lemma startsWith_app p r : startsWith (p ++ r) p = true.
Proof. apply startsWith_spec; eauto. Qed.

Lemma startsWith_false_head s c d p :
  c <> d -> startsWith (c :: s) (d :: p) = false.
Proof.
  intros Hne; simpl. destruct (N.eqb_spec d c); [congruence | reflexivity].
Qed.

Lemma is_empty_true s : is_empty s = true <-> s = [].
Proof. destruct s; simpl; split; congruence. Qed.

Lemma is_empty_false s : is_empty s = false <-> s <> [].
Proof. destruct s; simpl; split; congruence. Qed.

Lemma normalize_nil_iff s : normalize s = [] <-> s = [].
Proof. destruct s; simpl; split; congruence. Qed.

Lemma skipAlpha_app s r :
  Forall (fun c => is_alpha c = true) s ->
  match r with c :: _ => is_alpha c = false | [] => True end ->
  skipAlpha (s ++ r) = r.
Proof.
  intros Hs Hr; induction Hs as [|c s Hc _ IH]; simpl.
  - destruct r as [|c r]; [reflexivity | simpl; rewrite Hr; reflexivity].
  - rewrite Hc; exact IH.
Qed.

(** White space in front of a visible unit at the end is all that
    [trimStart] removes. *)
Lemma trimStart_snoc s c :
  is_space c = false -> trimStart (s ++ [c]) = trimStart s ++ [c].
Proof.
  intros Hc; induction s as [|d s IH]; simpl.
  - rewrite Hc; reflexivity.
  - destruct (is_space d); [exact IH | reflexivity].
Qed.

(** A reference that starts with a visible unit keeps it through [trim]. *)
Lemma trim_cons c s :
  is_space c = false -> trim (c :: s) = c :: rev (trimStart (rev s)).
Proof.
  intros Hc; unfold trim; simpl; rewrite Hc; simpl.
  rewrite trimStart_snoc by exact Hc.
  rewrite rev_app_distr; reflexivity.
Qed.

Lemma split_nonempty sep s : split sep s <> [].
Proof.
  destruct s as [|c s]; simpl; [discriminate|].
  destruct (c =? sep); [discriminate|].
  destruct (split sep s); discriminate.
Qed.

Lemma split_first_sep sep s : split_first sep (sep :: s) = [].
Proof. unfold split_first; simpl; rewrite N.eqb_refl; reflexivity. Qed.

Lemma split_first_cons sep c s :
  c <> sep -> split_first sep (c :: s) = c :: split_first sep s.
Proof.
  intros Hne; unfold split_first; simpl.
  destruct (N.eqb_spec c sep); [congruence|].
  pose proof (split_nonempty sep s).
  destruct (split sep s); [congruence | reflexivity].
Qed.

End StringFacts.

(** ** The fuel of the two scanning loops is enough *)

Lemma read_escapes_length (n : nat) :
  forall (s r : jsstring) (os : list N),
    Uri.read_escapes n s = Some (os, r) -> (length r <= length s)%nat.
Proof.
  induction n as [|n IH]; intros s r os H; cbn [Uri.read_escapes] in H.
  - injection H as _ <-. lia.
  - destruct s as [|p [|h1 [|h2 s']]]; try discriminate.
    destruct (p =? PERCENT); [|discriminate].
    destruct (Uri.parseHexOctet h1 h2) as [b|]; [|discriminate].
    rewrite bind_Some in H.
    destruct (Uri.read_escapes n s') as [[os' r']|] eqn:Hr; [|discriminate].
    rewrite bind_Some in H. injection H as _ <-.
    apply IH in Hr. cbn [length]. lia.
Qed.

(** [decodeURI] answers [None] for a malformed escape only: any fuel from
    the length of the string on gives the same result. *)
Lemma decode_loop_fuel (f1 : nat) :
  forall (f2 : nat) (s : jsstring),
    (length s <= f1)%nat -> (length s <= f2)%nat ->
    Uri.decode_loop f1 s = Uri.decode_loop f2 s.
Proof.
  induction f1 as [|f1 IH]; intros f2 s H1 H2.
  - destruct s; [destruct f2; reflexivity | cbn [length] in H1; lia].
  - destruct s as [|c s1]; [destruct f2; reflexivity|].
    destruct f2 as [|f2]; [cbn [length] in H2; lia|].
    cbn [length] in H1, H2. cbn [Uri.decode_loop].
    destruct (c =? PERCENT).
    + destruct s1 as [|h1 [|h2 s2]]; try reflexivity.
      cbn [length] in H1, H2.
      destruct (Uri.parseHexOctet h1 h2) as [b|]; [|reflexivity].
      rewrite !bind_Some.
      destruct (Uri.leading_ones b) as [|[|[|[|[|n]]]]]; try reflexivity.
      * rewrite (IH f2 s2) by lia. reflexivity.
      * destruct (Uri.read_escapes 1 s2) as [[os s3]|] eqn:Hr;
          [|reflexivity].
        apply read_escapes_length in Hr. rewrite !bind_Some.
        destruct (Uri.utf8_code_point (b :: os)); [|reflexivity].
        rewrite !bind_Some, (IH f2 s3) by lia. reflexivity.
      * destruct (Uri.read_escapes 2 s2) as [[os s3]|] eqn:Hr;
          [|reflexivity].
        apply read_escapes_length in Hr. rewrite !bind_Some.
        destruct (Uri.utf8_code_point (b :: os)); [|reflexivity].
        rewrite !bind_Some, (IH f2 s3) by lia. reflexivity.
      * destruct (Uri.read_escapes 3 s2) as [[os s3]|] eqn:Hr;
          [|reflexivity].
        apply read_escapes_length in Hr. rewrite !bind_Some.
        destruct (Uri.utf8_code_point (b :: os)); [|reflexivity].
        rewrite !bind_Some, (IH f2 s3) by lia. reflexivity.
    + rewrite (IH f2 s1) by lia. reflexivity.
Qed.

Lemma spanWhile_length (f : N -> bool) (s a b : jsstring) :
  spanWhile f s = (a, b) -> (length b <= length s)%nat.
Proof.
  revert a b; induction s as [|c s IH]; intros a b H; cbn [spanWhile] in H.
  - injection H as _ <-. lia.
  - destruct (f c).
    + destruct (spanWhile f s) as [a' b'] eqn:Hs.
      injection H as _ <-. specialize (IH _ _ eq_refl). cbn [length]. lia.
    + injection H as _ <-. lia.
Qed.

Lemma trimStart_length (s : jsstring) :
  (length (trimStart s) <= length s)%nat.
Proof.
  induction s as [|c s IH]; cbn [trimStart]; [lia|].
  destruct (is_space c); cbn [length]; lia.
Qed.

Lemma closeParen_length (s r : jsstring) :
  closeParen s = Some r -> (length r < length s)%nat.
Proof.
  unfold closeParen. pose proof (trimStart_length s) as Hl.
  destruct (trimStart s) as [|c t]; [discriminate|].
  destruct (c =? RPAREN); [|discriminate].
  intros [= <-]. cbn [length] in Hl. lia.
Qed.

(** A match of the url pattern is never empty. *)
Lemma matchUrlAt_length (s m2 rest : jsstring) :
  matchUrlAt s = Some (m2, rest) -> (length rest < length s)%nat.
Proof.
  unfold matchUrlAt.
  destruct s as [|u [|r [|l [|p t]]]]; try discriminate.
  destruct ((lower_char u =? 117) && (lower_char r =? 114)
            && (lower_char l =? 108) && (p =? LPAREN)); [|discriminate].
  destruct (spanWhile is_space t) as [ws t1] eqn:Hws.
  apply spanWhile_length in Hws.
  destruct t1 as [|c body]; [discriminate|].
  cbn [length] in *.
  destruct (isQuote c).
  - destruct (spanWhile isUrlArgChar body) as [g2 t2] eqn:Hg.
    apply spanWhile_length in Hg.
    destruct g2 as [|g g2]; [discriminate|].
    destruct t2 as [|d t3]; [discriminate|].
    destruct (d =? c); [|discriminate].
    destruct (closeParen t3) as [r'|] eqn:Hc; [|discriminate].
    rewrite bind_Some. intros [= _ <-].
    apply closeParen_length in Hc. cbn [length] in Hg. lia.
  - destruct (spanWhile isUrlArgChar (c :: body)) as [g2 t2] eqn:Hg.
    apply spanWhile_length in Hg.
    destruct t2 as [|d t3]; [discriminate|].
    destruct (d =? RPAREN); [|discriminate].
    cbn [length] in Hg.
    destruct g2 as [|g g2].
    + destruct (last ws) as [w|]; [|discriminate].
      rewrite bind_Some. intros [= _ <-]. lia.
    + intros [= _ <-]. lia.
Qed.

(** [extractUrlsFromCss] scans the whole text: any fuel from the length of
    the text on gives the same list. *)
Lemma scanUrls_fuel (f1 : nat) :
  forall (f2 : nat) (s : jsstring),
    (length s <= f1)%nat -> (length s <= f2)%nat ->
    scanUrls f1 s = scanUrls f2 s.
Proof.
  induction f1 as [|f1 IH]; intros f2 s H1 H2.
  - destruct s; [destruct f2; reflexivity | cbn [length] in H1; lia].
  - destruct s as [|c s1]; [destruct f2; reflexivity|].
    destruct f2 as [|f2]; [cbn [length] in H2; lia|].
    cbn [scanUrls].
    destruct (matchUrlAt (c :: s1)) as [[m2 rest]|] eqn:Hm.
    + apply matchUrlAt_length in Hm. cbn [length] in *.
      rewrite (IH f2 rest) by lia. reflexivity.
    + cbn [length] in *. rewrite (IH f2 s1) by lia. reflexivity.
Qed.

(** ** [path.posix.normalize] never returns the empty string *)

Lemma posix_normalize_nonempty (p : jsstring) : Posix.normalize p <> [].
Proof.
  unfold Posix.normalize.
  destruct (is_empty p); [discriminate|].
  destruct (is_empty (Posix.normalizeString p _)) eqn:He.
  - destruct (startsWith p [SLASH]); [discriminate|].
    destruct (endsWith p [SLASH]); discriminate.
  - apply is_empty_false in He.
    destruct (startsWith p [SLASH]); [discriminate|].
    destruct (endsWith p [SLASH]); [|exact He].
    intros H; apply app_eq_nil in H as [_ H]; discriminate.
Qed.

Lemma resolveClean_nonempty (base clean : jsstring) :
  resolveClean base clean <> [].
Proof.
  unfold resolveClean; rewrite normalize_nil_iff.
  apply posix_normalize_nonempty.
Qed.

(** ** The path resolver *)


Lemma resolveRef_unfold cwd base href root :
  resolveRef cwd base (Some href) root =
    if is_empty href then []
    else if isUrlLike href || startsWith href (js "data:") then []
    else if escapesRoot cwd root (resolveClean base (cleanRef href)) then []
    else resolveClean base (cleanRef href).
Proof. reflexivity. Qed.


Lemma isUrlLike_scheme scheme rest :
  isScheme scheme -> isUrlLike (scheme ++ js "://" ++ rest) = true.
Proof.
  intros [Hne Hall]; unfold isUrlLike.
  rewrite skipAlpha_app by (auto; reflexivity).
  rewrite startsWith_app, andb_true_r.
  destruct scheme as [|c scheme]; [congruence|].
  inversion Hall as [|? ? Hc _]; subst; simpl; rewrite Hc.
  apply orb_true_r.
Qed.

(** C6 (as amended) -- absolute and data exclusion: a reference whose
    first characters are a non-empty run of letters, a colon and two
    slashes, or two slashes alone, or the lower-case word [data] and a
    colon, is Unresolvable whatever the referencing file and the content
    root are. *)
Theorem resolveRef_absolute_or_data_unresolvable
    (cwd base root href : jsstring) :
  (exists scheme rest, isScheme scheme /\ href = scheme ++ js "://" ++ rest)
  \/ (exists rest, href = js "//" ++ rest)
  \/ (exists rest, href = js "data:" ++ rest) ->
  resolveRef cwd base (Some href) root = [].
Proof.
  intros H; rewrite resolveRef_unfold.
  destruct (is_empty href); [reflexivity|].
  assert (isUrlLike href || startsWith href (js "data:") = true) as ->;
    [|reflexivity].
  destruct H as [(scheme & rest & Hs & ->) | [[rest ->] | [rest ->]]].
  - rewrite isUrlLike_scheme by exact Hs; reflexivity.
  - unfold isUrlLike; rewrite startsWith_app; reflexivity.
  - rewrite startsWith_app; apply orb_true_r.
Qed.

Lemma resolveRef_absolute_or_data_witness :
  resolveRef (js "/srv/app") (js "OEBPS/text/ch1.xhtml")
             (Some (js "https://example.org/cover.png")) (js "OEBPS/") = [].
Proof.
  apply resolveRef_absolute_or_data_unresolvable.
  left; exists (js "https"), (js "example.org/cover.png"); split.
  - split; [discriminate | repeat constructor].
  - reflexivity.
Defined.

(** C6, the claim as stated fails: an absolute URL whose scheme holds a
    sign or a digit (RFC 3986 allows both behind the first letter), and a
    data URI whose scheme is written in capitals, are resolved like
    relative paths, to a path inside the archive. *)
Lemma absolute_url_outside_the_pattern_is_resolved :
  (isUriScheme (js "svn+ssh") = true
   /\ resolveRef (js "/srv/app") (js "OEBPS/text/ch1.xhtml")
                 (Some (js "svn+ssh://host/repo/cover.png")) (js "OEBPS/")
      = js "OEBPS/text/svn+ssh:/host/repo/cover.png")
  /\ (isUriScheme (js "h2") = true
      /\ resolveRef (js "/srv/app") (js "OEBPS/text/ch1.xhtml")
                    (Some (js "h2://host/cover.png")) (js "OEBPS/")
         = js "OEBPS/text/h2:/host/cover.png")
  /\ (toLowerCase (js "DATA:") = js "data:"
      /\ resolveRef (js "/srv/app") (js "OEBPS/text/ch1.xhtml")
                    (Some (js "DATA:image/png;base64,AAAA")) (js "OEBPS/")
         = js "OEBPS/text/DATA:image/png;base64,AAAA").
Proof. repeat split; vm_compute; reflexivity. Qed.

(** The two guards read the raw reference from its first character: with
    white space in front of the scheme the reference is resolved like a
    relative path. *)
Example guards_read_the_raw_reference :
  resolveRef (js "/srv/app") (js "OEBPS/text/ch1.xhtml")
             (Some (js " https://example.org/cover.png")) (js "OEBPS/")
    = js "OEBPS/text/https:/example.org/cover.png".
Proof. vm_compute; reflexivity. Qed.

(** *** Empty and fragment-only references *)

Lemma cleanRef_fragment (frag : jsstring) : cleanRef (HASH :: frag) = [].
Proof.
  unfold cleanRef, stripQueryAndHash.
  rewrite trim_cons by reflexivity.
  rewrite split_first_sep; reflexivity.
Qed.

(** C5 (as amended) -- the empty reference is Unresolvable; a reference
    that is only a fragment is not rejected for being empty once the
    fragment is stripped: it resolves to the directory of the referencing
    file, which is never the empty string, and is Unresolvable only when
    that directory fails the containment check of a non-empty root. *)
Theorem resolveRef_empty_and_fragment_only (cwd base root : jsstring) :
  resolveRef cwd base None root = []
  /\ resolveRef cwd base (Some []) root = []
  /\ forall frag : jsstring,
       let dir := resolveClean base [] in
       dir <> []
       /\ resolveRef cwd base (Some (HASH :: frag)) root =
            if escapesRoot cwd root dir then [] else dir.
Proof.
  split; [reflexivity|]. split; [reflexivity|].
  intros frag dir; split; [apply resolveClean_nonempty|].
  rewrite resolveRef_unfold, cleanRef_fragment; reflexivity.
Qed.

(** C5, the claim as stated fails: [#anchor] in a chapter resolves to the
    chapter's directory. *)
Lemma fragment_only_is_resolved :
  resolveRef (js "/srv/app") (js "OEBPS/text/ch1.xhtml")
             (Some (js "#anchor")) (js "OEBPS/") = js "OEBPS/text/"
  /\ resolveRef (js "/srv/app") (js "OEBPS/text/ch1.xhtml")
                (Some (js "#anchor")) (js "OEBPS/") <> [].
Proof. split; [vm_compute; reflexivity | vm_compute; discriminate]. Qed.

(** *** References with a leading slash *)

Lemma utf8_code_point_ge (octets : list N) (v : N) :
  Uri.utf8_code_point octets = Some v -> 128 <= v.
Proof.
  unfold Uri.utf8_code_point.
  assert (Hok : forall x lo, 128 <= lo ->
            (if (lo <=? x) && (x <=? 1114111)
                && negb ((55296 <=? x) && (x <=? 57343))
             then Some x else None) = Some v -> 128 <= v).
  { intros x lo Hlo H.
    destruct (N.leb_spec lo x); simpl in H; [|discriminate].
    destruct ((x <=? 1114111) && _); [|discriminate].
    injection H as <-. lia. }
  destruct octets as [|b0 [|b1 [|b2 [|b3 [|? ?]]]]]; try discriminate.
  - destruct (Uri.is_cont b1); [|discriminate].
    apply Hok; lia.
  - destruct (Uri.is_cont b1 && Uri.is_cont b2); [|discriminate].
    apply Hok; lia.
  - destruct (Uri.is_cont b1 && Uri.is_cont b2 && Uri.is_cont b3);
      [|discriminate].
    apply Hok; lia.
Qed.

Lemma codePointToUTF16_head (v : N) (r : jsstring) :
  128 <= v -> startsWith (Uri.codePointToUTF16 v ++ r) [SLASH] = false.
Proof.
  intros Hv; unfold Uri.codePointToUTF16.
  destruct (v <? 65536); cbn -[N.eqb N.add N.div N.modulo N.sub];
    rewrite andb_true_r; apply N.eqb_neq; unfold SLASH; [lia|].
  generalize ((v - 65536) / 1024); intros x; lia.
Qed.

Local Opaque Uri.utf8_code_point Uri.read_escapes Uri.codePointToUTF16
  Uri.parseHexOctet Uri.leading_ones Uri.preserved.

(** Decoding leaves an escaped slash escaped: no decoded reference starts
    with a slash unless the raw one does. *)
Lemma decode_loop_no_new_slash (fuel : nat) (t d : jsstring) :
  startsWith t [SLASH] = false ->
  Uri.decode_loop fuel t = Some d ->
  startsWith d [SLASH] = false.
Proof.
  intros Ht Hd.
  destruct t as [|c t1]; [destruct fuel; injection Hd as <-; reflexivity|].
  destruct fuel as [|fuel]; [discriminate|].
  simpl in Hd.
  destruct (N.eqb_spec c PERCENT) as [->|Hc].
  - destruct t1 as [|h1 [|h2 s2]]; try discriminate.
    destruct (Uri.parseHexOctet h1 h2) as [b|]; [|discriminate].
    simpl in Hd.
    destruct (Uri.leading_ones b) as [|[|[|[|[|n]]]]]; try discriminate.
    + destruct (Uri.decode_loop fuel s2) as [r|]; [|discriminate].
      simpl in Hd; injection Hd as <-.
      destruct (Uri.preserved b) eqn:Hp; [reflexivity|].
      apply (startsWith_false_head r b SLASH []); intros ->.
      vm_compute in Hp; discriminate.
    + destruct (Uri.read_escapes 1 s2) as [[os s3]|]; [|discriminate].
      simpl in Hd.
      destruct (Uri.utf8_code_point (b :: os)) as [v|] eqn:Hv;
        [|discriminate].
      destruct (Uri.decode_loop fuel s3) as [r|]; [|discriminate].
      simpl in Hd; injection Hd as <-.
      apply codePointToUTF16_head, (utf8_code_point_ge _ _ Hv).
    + destruct (Uri.read_escapes 2 s2) as [[os s3]|]; [|discriminate].
      simpl in Hd.
      destruct (Uri.utf8_code_point (b :: os)) as [v|] eqn:Hv;
        [|discriminate].
      destruct (Uri.decode_loop fuel s3) as [r|]; [|discriminate].
      simpl in Hd; injection Hd as <-.
      apply codePointToUTF16_head, (utf8_code_point_ge _ _ Hv).
    + destruct (Uri.read_escapes 3 s2) as [[os s3]|]; [|discriminate].
      simpl in Hd.
      destruct (Uri.utf8_code_point (b :: os)) as [v|] eqn:Hv;
        [|discriminate].
      destruct (Uri.decode_loop fuel s3) as [r|]; [|discriminate].
      simpl in Hd; injection Hd as <-.
      apply codePointToUTF16_head, (utf8_code_point_ge _ _ Hv).
  - destruct (Uri.decode_loop fuel t1) as [r|]; [|discriminate].
    simpl in Hd; injection Hd as <-. exact Ht.
Qed.

Local Transparent Uri.utf8_code_point Uri.read_escapes Uri.codePointToUTF16
  Uri.parseHexOctet Uri.leading_ones Uri.preserved.

Lemma decodeRef_no_new_slash (t : jsstring) :
  startsWith t [SLASH] = false -> startsWith (decodeRef t) [SLASH] = false.
Proof.
  intros Ht; unfold decodeRef, Uri.decodeURI.
  destruct (Uri.decode_loop (length t) t) as [d|] eqn:Hd; simpl; [|exact Ht].
  exact (decode_loop_no_new_slash _ _ _ Ht Hd).
Qed.

Lemma decodeRef_slash (t : jsstring) :
  decodeRef (SLASH :: t) = SLASH :: decodeRef t.
Proof.
  unfold decodeRef, Uri.decodeURI; simpl.
  destruct (Uri.decode_loop (length t) t); reflexivity.
Qed.

Lemma stripQueryAndHash_slash (t : jsstring) :
  stripQueryAndHash (SLASH :: t) = SLASH :: stripQueryAndHash t.
Proof.
  unfold stripQueryAndHash.
  rewrite !split_first_cons by discriminate; reflexivity.
Qed.

Lemma split_first_head (sep : N) (s : jsstring) :
  startsWith s [SLASH] = false ->
  startsWith (split_first sep s) [SLASH] = false.
Proof.
  destruct s as [|c s]; [reflexivity|]; intros Hc.
  destruct (N.eqb_spec c sep) as [->|Hne].
  - rewrite split_first_sep; reflexivity.
  - rewrite split_first_cons by exact Hne. exact Hc.
Qed.


Lemma cleanRef_slash (rest : jsstring) :
  match rest with
  | [] => False
  | c :: _ => c <> SLASH /\ is_space c = false
  end ->
  cleanRef (SLASH :: rest) = cleanRef rest.
Proof.
  destruct rest as [|c r]; [intros []|]; intros [Hc Hsp].
  unfold cleanRef.
  rewrite (trim_cons SLASH) by reflexivity.
  assert (rev (trimStart (rev (c :: r))) = trim (c :: r)) as ->.
  { rewrite trim_cons by exact Hsp. simpl.
    rewrite trimStart_snoc by exact Hsp.
    rewrite rev_app_distr; reflexivity. }
  rewrite stripQueryAndHash_slash, decodeRef_slash.
  change (startsWith (SLASH :: ?x) [SLASH]) with true; cbn iota.
  rewrite decodeRef_no_new_slash; [reflexivity|].
  unfold stripQueryAndHash; apply split_first_head, split_first_head.
  rewrite trim_cons by exact Hsp.
  apply startsWith_false_head; congruence.
Qed.

(** C4 (as amended) -- a reference that begins with one slash has the
    slash dropped and the remainder joined against the directory of the
    referencing file: it resolves exactly as the same reference written
    without the slash, so the result follows the referencing document, not
    the content root. *)
Theorem leading_slash_resolves_against_document
    (cwd base root rest : jsstring) :
  plainRef rest ->
  resolveRef cwd base (Some (SLASH :: rest)) root =
    resolveRef cwd base (Some rest) root
  /\ resolveRef cwd base (Some (SLASH :: rest)) root =
       if escapesRoot cwd root (resolveClean base (cleanRef rest)) then []
       else resolveClean base (cleanRef rest).
Proof.
  intros (Hhead & Hurl & Hdata).
  assert (E : resolveRef cwd base (Some (SLASH :: rest)) root =
              if escapesRoot cwd root (resolveClean base (cleanRef rest))
              then [] else resolveClean base (cleanRef rest)).
  { rewrite resolveRef_unfold, cleanRef_slash by exact Hhead.
    destruct rest as [|c r]; [destruct Hhead|]. destruct Hhead as [Hc _].
    assert (isUrlLike (SLASH :: c :: r) = false) as ->.
    { unfold isUrlLike. change (js "//") with [SLASH; SLASH].
      cbn [startsWith]. rewrite N.eqb_refl.
      destruct (N.eqb_spec SLASH c); [congruence | reflexivity]. }
    reflexivity. }
  split; [|exact E].
  rewrite E, resolveRef_unfold, Hurl, Hdata.
  destruct rest; [destruct Hhead | reflexivity].
Qed.

Lemma leading_slash_resolves_against_document_witness :
  resolveRef (js "/srv/app") (js "OEBPS/text/ch1.xhtml")
             (Some (js "/images/a.png")) (js "OEBPS/") =
  resolveRef (js "/srv/app") (js "OEBPS/text/ch1.xhtml")
             (Some (js "images/a.png")) (js "OEBPS/").
Proof.
  apply (leading_slash_resolves_against_document
           (js "/srv/app") (js "OEBPS/text/ch1.xhtml") (js "OEBPS/")
           (js "images/a.png")).
  split; [split; [discriminate | reflexivity] | split; reflexivity].
Defined.

(** C4, the claim as stated fails: the same root-relative reference in two
    documents of the content root resolves to two different paths, and in
    the nested document not to the path joined against the root. *)
Lemma leading_slash_depends_on_document :
  resolveRef (js "/srv/app") (js "OEBPS/ch1.xhtml")
             (Some (js "/images/a.png")) (js "OEBPS/")
    = js "OEBPS/images/a.png"
  /\ resolveRef (js "/srv/app") (js "OEBPS/text/ch1.xhtml")
                (Some (js "/images/a.png")) (js "OEBPS/")
    = js "OEBPS/text/images/a.png".
Proof. split; vm_compute; reflexivity. Qed.

(** *** Root containment *)

Section Relative.

Local Open Scope nat_scope.

(** With an absolute working directory, [path.posix.resolve] returns an
    absolute path. *)
Lemma resolve_absolute (cwd x : jsstring) :
  startsWith cwd [SLASH] = true ->
  exists r, Posix.resolve cwd [x] = SLASH :: r.
Proof.
  intros Hcwd.
  assert (Hne : is_empty cwd = false)
    by (destruct cwd; [discriminate | reflexivity]).
  unfold Posix.resolve.
  change (rev [x] ++ [cwd]) with [x; cwd]; cbn [Posix.resolve_loop].
  rewrite Hne, Hcwd.
  destruct (is_empty x); [eauto|].
  destruct (startsWith x [SLASH]); eauto.
Qed.

(** The first loop of [relative] stops at a position up to which the two
    paths agree, and the last common separator lies before it. *)
Lemma common_loop_spec (F T : jsstring) (n : nat) :
  forall (i : nat) (lcs : Z) (i' : nat) (lcs' : Z),
    Posix.common_loop F T n i lcs = (i', lcs') ->
    (forall k, k < i -> exists c, F !! S k = Some c /\ T !! S k = Some c) ->
    (-1 <= lcs < Z.of_nat i)%Z ->
    i <= i' <= i + n
    /\ (forall k, k < i' ->
          exists c, F !! S k = Some c /\ T !! S k = Some c)
    /\ (-1 <= lcs' < Z.of_nat i')%Z.
Proof.
  induction n as [|n IH]; intros i lcs i' lcs' Hrun Hpre Hlcs; simpl in Hrun.
  - injection Hrun as <- <-. repeat split; [lia | lia | exact Hpre | lia | lia].
  - destruct (F !! S i) as [a|] eqn:Ha;
      [|injection Hrun as <- <-;
        repeat split; [lia | lia | exact Hpre | lia | lia]].
    destruct (T !! S i) as [b|] eqn:Hb;
      [|injection Hrun as <- <-;
        repeat split; [lia | lia | exact Hpre | lia | lia]].
    destruct (N.eqb_spec a b) as [->|Hab];
      [|injection Hrun as <- <-;
        repeat split; [lia | lia | exact Hpre | lia | lia]].
    apply IH in Hrun.
    + destruct Hrun as (Hi & Hk & Hl); repeat split; [lia | lia | exact Hk | lia | lia].
    + intros k Hk. destruct (decide (k = i)) as [->|Hne].
      * exists b; split; assumption.
      * apply Hpre; lia.
    + destruct (b =? SLASH)%N; lia.
Qed.

Lemma agree_take (F T : jsstring) (i : nat) :
  (forall k, k < i -> exists c, F !! k = Some c /\ T !! k = Some c) ->
  take i F = take i T.
Proof.
  intros H; apply list_eq; intros k.
  destruct (decide (k < i)) as [Hk|Hk].
  - rewrite !lookup_take_lt by exact Hk.
    destruct (H k Hk) as (c & -> & ->); reflexivity.
  - rewrite !lookup_take_ge by lia; reflexivity.
Qed.

(** The second loop only ever appends [..] segments, and appends one when
    it reaches the end of [from]. *)
Lemma up_loop_keeps_dotdot (F : jsstring) (e n : nat) :
  forall (i : nat) (out : jsstring),
    startsWith out (js "..") = true ->
    startsWith (Posix.up_loop F e n i out) (js "..") = true.
Proof.
  induction n as [|n IH]; intros i out Hout; simpl; [exact Hout|].
  apply IH.
  destruct ((i =? e) || bool_decide (F !! i = Some SLASH)); [|exact Hout].
  apply startsWith_spec in Hout as [r ->].
  rewrite <- app_assoc; apply startsWith_app.
Qed.

Lemma up_loop_dotdot (F : jsstring) (e n : nat) :
  forall i : nat,
    i <= e < i + n ->
    startsWith (Posix.up_loop F e n i []) (js "..") = true.
Proof.
  induction n as [|n IH]; intros i Hi; simpl; [lia|].
  destruct (Nat.eqb_spec i e) as [->|Hne]; simpl.
  - apply up_loop_keeps_dotdot; reflexivity.
  - destruct (bool_decide (F !! i = Some SLASH)).
    + apply up_loop_keeps_dotdot; reflexivity.
    + apply IH; lia.
Qed.


(** A relative path that does not climb means containment of the resolved
    paths. *)
Lemma relative_inside (cwd f t : jsstring) :
  startsWith cwd [SLASH] = true ->
  startsWith (Posix.relative cwd f t) (js "..") = false ->
  beneath (Posix.resolve cwd [f]) (Posix.resolve cwd [t]).
Proof.
  intros Hcwd; unfold Posix.relative, jsstring_eqb.
  case_bool_decide as Hft; [subst; left; reflexivity|].
  destruct (resolve_absolute cwd f Hcwd) as [F' HF].
  destruct (resolve_absolute cwd t Hcwd) as [T' HT].
  rewrite HF, HT.
  case_bool_decide as HFT; [left; congruence|].
  cbn [length]. rewrite !Nat.sub_succ, !Nat.sub_0_r.
  set (len := if length F' <? length T' then length F' else length T').
  destruct (Posix.common_loop _ _ len 0 (-1)%Z) as [i lcs] eqn:Hloop.
  apply common_loop_spec in Hloop as (Hi & Hagree & Hlcs);
    [|intros k Hk; lia | lia].
  assert (Hlen : len <= length F' /\ len <= length T').
  { subst len; destruct (Nat.ltb_spec (length F') (length T')); lia. }
  destruct (Nat.eqb_spec i len) as [->|Hilen]; cbn [andb].
  - destruct (Nat.ltb_spec len (length T')) as [HlenT|HlenT]; cbn [andb negb].
    + assert (HlenF : len = length F').
      { subst len. destruct (Nat.ltb_spec (length F') (length T')); lia. }
      assert (HF' : F' = take len T').
      { rewrite <- (take_ge F' len) by lia. apply agree_take, Hagree. }
      case_bool_decide as Hsl.
      * intros _. right; left. exists (drop (S len) T').
        rewrite <- (take_drop_middle T' len SLASH) at 1 by exact Hsl.
        rewrite HF'; reflexivity.
      * destruct (Nat.eqb_spec len 0) as [H0|H0].
        -- intros _. right; right.
           destruct F'; [|simpl in HlenF; lia].
           split; [reflexivity | eauto].
        -- intros Hfalse. exfalso.
           rewrite (proj2 (startsWith_spec _ _)) in Hfalse; [discriminate|].
           assert (Hup : startsWith
                     (Posix.up_loop (SLASH :: F') (S (length F'))
                        (S (length F') + 1 - Z.to_nat (1 + lcs + 1))
                        (Z.to_nat (1 + lcs + 1)) []) (js "..") = true)
             by (apply up_loop_dotdot; lia).
           apply startsWith_spec in Hup as [r ->].
           rewrite <- app_assoc; eauto.
    + intros Hfalse. exfalso.
      rewrite (proj2 (startsWith_spec _ _)) in Hfalse; [discriminate|].
      match type of Hfalse with
      | context [Posix.up_loop ?a ?b ?c ?d []] =>
          assert (Hup : startsWith (Posix.up_loop a b c d []) (js "..") = true)
      end.
      { destruct (Nat.ltb_spec len (length F')); cbn [andb];
          [case_bool_decide; [|destruct (Nat.eqb_spec len 0)]|];
          apply up_loop_dotdot; lia. }
      apply startsWith_spec in Hup as [r ->].
      rewrite <- app_assoc; eauto.
  - intros Hfalse. exfalso.
    rewrite (proj2 (startsWith_spec _ _)) in Hfalse; [discriminate|].
    assert (Hup : startsWith
              (Posix.up_loop (SLASH :: F') (S (length F'))
                 (S (length F') + 1 - Z.to_nat (1 + lcs + 1))
                 (Z.to_nat (1 + lcs + 1)) []) (js "..") = true)
      by (apply up_loop_dotdot; lia).
    apply startsWith_spec in Hup as [r ->].
    rewrite <- app_assoc; eauto.
Qed.

End Relative.

(** ** The pixel threshold *)

(** C10 -- a threshold that is absent, empty, not a number or zero is
    replaced by the default of 5,600,000; the effective threshold is never
    zero and never not-a-number. *)
Theorem threshold_defaults (rt : Runtime) (q : Query) :
  let v := q_pixelThreshold q in
  let t := pixelThreshold (optionsOf rt q) in
  (v = QUndef
   \/ v = QStr []
   \/ stringToNumber rt (qToString v) = NaN
   \/ (exists z, stringToNumber rt (qToString v) = Finite z /\ (z == 0)%Q) ->
   t = Finite 5600000)
  /\ t <> NaN
  /\ (forall z, t = Finite z -> ~ (z == 0)%Q).
Proof.
  intros v t; subst v t; cbn [optionsOf pixelThreshold].
  unfold thresholdOf, DEFAULT_PIXEL_THRESHOLD.
  split; [|split].
  - intros [-> | [-> | [Hn | (z & Hn & Hz)]]]; try reflexivity.
    + destruct (qtruthy _); [rewrite Hn|]; reflexivity.
    + destruct (qtruthy _); [rewrite Hn; cbn [numTruthy]|reflexivity].
      apply Qeq_bool_iff in Hz; rewrite Hz; reflexivity.
  - destruct (qtruthy _); [|discriminate].
    destruct (stringToNumber rt _) as [| |z] eqn:Hn; cbn [numTruthy];
      try discriminate.
    destruct (Qeq_bool z 0); discriminate.
  - intros z.
    assert (Hd : ~ (5600000 == 0)%Q) by (intros H; discriminate H).
    destruct (qtruthy _); [|intros [= <-]; exact Hd].
    destruct (stringToNumber rt _) as [| |z'] eqn:Hn; cbn [numTruthy];
      [intros [= <-]; exact Hd | discriminate |].
    destruct (Qeq_bool z' 0) eqn:Hz; cbn [negb].
    + intros [= <-]; exact Hd.
    + intros [= <-] H. apply Qeq_bool_iff in H. congruence.
Qed.

Lemma threshold_defaults_witness :
  pixelThreshold
    (optionsOf Sample.rtA
       {| q_includeHtml := QUndef; q_includeCss := QUndef;
          q_includeSvg := QUndef; q_searchAllImages := QUndef;
          q_followOpfManifestOnly := QUndef;
          q_pixelThreshold := QStr (js "0"); q_epubBasePath := QUndef |})
  = Finite 5600000.
Proof.
  apply (threshold_defaults Sample.rtA).
  right; right; right. exists 0%Q. split; reflexivity.
Defined.

(** ** The reconciler *)

Section Reconciler.

Variable rt : Runtime.
Variables (files : fileMap) (usedAbs : gset jsstring) (options : Options)
          (epubBasePath : jsstring).

Lemma classifyOne_eq (acc : list unrefEntry * list oversizedEntry)
    (abs : jsstring) :
  classifyOne rt files usedAbs options epubBasePath acc abs =
    (acc.1 ++ (if bool_decide (abs ∈ usedAbs) then []
               else [unrefEntryOf epubBasePath abs]),
     acc.2 ++ match oversizedEntryOf rt files options epubBasePath abs with
              | Some e => [e]
              | None => []
              end).
Proof.
  destruct acc as [u o]; unfold classifyOne, oversizedEntryOf, unrefEntryOf.
  cbn [fst snd]. f_equal.
  - destruct (bool_decide (abs ∈ usedAbs)); cbn [negb];
      [rewrite app_nil_r|]; reflexivity.
  - destruct (IMG_EXT_REGEX_test abs); [|rewrite app_nil_r; reflexivity].
    destruct (probeOf rt files abs) as [| |[w|] [h|]];
      try (rewrite app_nil_r; reflexivity).
    destruct (negb (w =? 0)%Z && negb (h =? 0)%Z && geNum _ _);
      [|rewrite app_nil_r]; reflexivity.
Qed.

(** The loop of the handler computes a filter and a partial map of the
    candidates, in their order. *)
Lemma classify_eq (candidatesAbs : list jsstring) :
  classify rt files usedAbs options epubBasePath candidatesAbs =
    (map (unrefEntryOf epubBasePath) (filter (fun abs => abs ∉ usedAbs) candidatesAbs),
     omap (oversizedEntryOf rt files options epubBasePath) candidatesAbs).
Proof.
  unfold classify.
  enough (H : forall acc,
            fold_left (classifyOne rt files usedAbs options epubBasePath)
                      candidatesAbs acc =
            (acc.1 ++ map (unrefEntryOf epubBasePath)
                        (filter (fun abs => abs ∉ usedAbs) candidatesAbs),
             acc.2 ++ omap (oversizedEntryOf rt files options epubBasePath) candidatesAbs))
    by (rewrite H; reflexivity).
  induction candidatesAbs as [|abs l IH]; intros acc; cbn [fold_left].
  - cbn. rewrite !app_nil_r. destruct acc; reflexivity.
  - rewrite IH, classifyOne_eq; cbn [fst snd].
    rewrite <- !app_assoc. f_equal.
    + f_equal. rewrite filter_cons.
      destruct (decide (abs ∉ usedAbs)) as [Hn|Hn].
      * rewrite bool_decide_eq_false_2 by exact Hn; reflexivity.
      * rewrite bool_decide_eq_true_2; [reflexivity|].
        destruct (decide (abs ∈ usedAbs)); [assumption | contradiction].
    + f_equal. cbn [omap list_omap].
      destruct (oversizedEntryOf rt files options epubBasePath abs); reflexivity.
Qed.

Lemma oversizedEntryOf_path (abs : jsstring) (e : oversizedEntry) :
  oversizedEntryOf rt files options epubBasePath abs = Some e -> o_internalPath e = abs.
Proof.
  unfold oversizedEntryOf.
  destruct (IMG_EXT_REGEX_test abs); [|discriminate].
  destruct (probeOf rt files abs) as [| |[w|] [h|]]; try discriminate.
  destruct (negb (w =? 0)%Z && negb (h =? 0)%Z && geNum _ _);
    [|discriminate].
  intros [= <-]; reflexivity.
Qed.

End Reconciler.

(** *** The two tests for an image extension agree *)

Lemma lower_char_dot (c : N) : lower_char c = DOT -> c = DOT.
Proof.
  unfold lower_char, is_upper, DOT.
  destruct (N.leb_spec 65 c); cbn [andb]; [|auto].
  destruct (N.leb_spec c 90); [lia | auto].
Qed.

Lemma IMG_EXT_REGEX_test_app (p1 r : jsstring) :
  IMG_EXT_REGEX_test (DOT :: r) = true ->
  IMG_EXT_REGEX_test (p1 ++ DOT :: r) = true.
Proof.
  intros H; induction p1 as [|c p1 IH]; [exact H|].
  cbn [app IMG_EXT_REGEX_test]. rewrite IH; apply orb_true_r.
Qed.

Lemma toLowerCase_app_inv (p a b : jsstring) :
  toLowerCase p = a ++ b ->
  exists p1 p2, p = p1 ++ p2 /\ toLowerCase p1 = a /\ toLowerCase p2 = b.
Proof.
  unfold toLowerCase; intros H.
  exists (take (length a) p), (drop (length a) p).
  rewrite take_drop; split; [reflexivity|].
  rewrite <- firstn_map, <- skipn_map, H.
  rewrite take_app_length, drop_app_length; split; reflexivity.
Qed.

(** Every path [listCandidateImages] keeps passes [IMG_EXT_REGEX]. *)
Lemma isImageFile_IMG_EXT_REGEX (p : jsstring) :
  isImageFile p = true -> IMG_EXT_REGEX_test p = true.
Proof.
  unfold isImageFile; rewrite existsb_exists.
  intros (e & He & Hends).
  unfold endsWith in Hends; apply startsWith_spec in Hends as [r Hr].
  apply (f_equal (@rev N)) in Hr.
  rewrite rev_involutive, rev_app_distr, rev_involutive in Hr.
  apply toLowerCase_app_inv in Hr as (p1 & p2 & -> & _ & Hp2).
  assert (Hdot : exists ext, e = DOT :: ext
                 /\ (ext = js "png" \/ ext = js "jpg" \/ ext = js "jpeg"
                     \/ ext = js "gif")).
  { cbn in He.
    destruct He as [<- | [<- | [<- | [<- | []]]]]; eexists; split;
      try reflexivity; auto. }
  destruct Hdot as (ext & -> & Hext).
  destruct p2 as [|c r2]; [discriminate|].
  cbn [toLowerCase map] in Hp2; injection Hp2 as Hc Hr2.
  apply lower_char_dot in Hc as ->.
  apply IMG_EXT_REGEX_test_app.
  cbn [IMG_EXT_REGEX_test]. rewrite N.eqb_refl; cbn [andb].
  unfold eq_ci, jsstring_eqb. change (toLowerCase r2 = ext) in Hr2.
  rewrite Hr2.
  destruct Hext as [-> | [-> | [-> | ->]]]; reflexivity.
Qed.

Lemma listCandidateImages_isImageFile (files : fileMap) (options : Options)
    (p : jsstring) :
  p ∈ listCandidateImages files options -> isImageFile p = true.
Proof.
  unfold listCandidateImages; rewrite list_elem_of_filter.
  intros [H _]. apply andb_prop_elim in H as [H _].
  apply Is_true_true; exact H.
Qed.

Lemma candidatesAbsOf_isImageFile (files : fileMap) (options : Options)
    (manifestAbs : gset jsstring) (p : jsstring) :
  p ∈ candidatesAbsOf files options manifestAbs -> isImageFile p = true.
Proof.
  unfold candidatesAbsOf; rewrite list_elem_of_filter.
  intros [_ H]. exact (listCandidateImages_isImageFile _ _ _ H).
Qed.

(** ** Runs of the handler *)



Lemma validate_stages rt req files manifestAbs usedAbs epubBasePath :
  stages rt req files manifestAbs usedAbs epubBasePath ->
  validate rt req = Json (reportOf rt req files manifestAbs usedAbs
                                   epubBasePath).
Proof.
  intros ((buf & Hbuf & Hzip) & Hebp & Hroot & Hman & Hused).
  unfold validate.
  rewrite Hbuf, Hebp, Hzip, Hroot, Hman, Hused, classify_eq.
  reflexivity.
Qed.

Lemma validate_Json rt req rep :
  validate rt req = Json rep ->
  exists files manifestAbs usedAbs epubBasePath,
    stages rt req files manifestAbs usedAbs epubBasePath
    /\ rep = reportOf rt req files manifestAbs usedAbs epubBasePath.
Proof.
  unfold validate, stages.
  destruct (req_file req) as [buf|]; [|discriminate].
  destruct (epubBasePathOf _) as [ebp|]; [|discriminate].
  destruct (unzipToMap rt buf) as [files|] eqn:Hzip; [|discriminate].
  destruct (contentRootOf rt files) as [root|] eqn:Hroot; [|discriminate].
  destruct (manifestAbsOf rt files _ _) as [manifestAbs|] eqn:Hman;
    [|discriminate].
  destruct (collectReferences rt files _ _) as [usedAbs|] eqn:Hused;
    [|discriminate].
  rewrite classify_eq. intros [= <-].
  exists files, manifestAbs, usedAbs, ebp.
  unfold reportOf, rootOf. rewrite Hroot. cbn [default from_option id].
  repeat split; eauto.
Qed.

Lemma validate_report rt req files manifestAbs usedAbs epubBasePath rep :
  stages rt req files manifestAbs usedAbs epubBasePath ->
  validate rt req = Json rep ->
  rep = reportOf rt req files manifestAbs usedAbs epubBasePath.
Proof.
  intros Hst Hv. rewrite (validate_stages _ _ _ _ _ _ Hst) in Hv.
  congruence.
Qed.


Lemma inUnreferenced_reportOf rt req files manifestAbs usedAbs ebp abs :
  inUnreferenced (reportOf rt req files manifestAbs usedAbs ebp) abs <->
  abs ∈ candidatesAbsOf files (optionsOf rt (req_query req)) manifestAbs
  /\ abs ∉ usedAbs.
Proof.
  unfold inUnreferenced, reportOf; cbn [unreferenced]. split.
  - intros (e & He & <-).
    apply list_elem_of_fmap in He as (p & -> & Hp).
    apply list_elem_of_filter in Hp as [Hn Hc]. split; assumption.
  - intros [Hc Hn]. exists (unrefEntryOf ebp abs); split; [|reflexivity].
    apply list_elem_of_fmap. exists abs; split; [reflexivity|].
    apply list_elem_of_filter; split; assumption.
Qed.

Lemma inOversized_reportOf rt req files manifestAbs usedAbs ebp abs :
  inOversized (reportOf rt req files manifestAbs usedAbs ebp) abs <->
  abs ∈ candidatesAbsOf files (optionsOf rt (req_query req)) manifestAbs
  /\ is_Some (oversizedEntryOf rt files (optionsOf rt (req_query req))
                               ebp abs).
Proof.
  unfold inOversized, reportOf; cbn [oversized]. split.
  - intros (e & He & <-).
    apply list_elem_of_omap in He as (p & Hp & He).
    rewrite (oversizedEntryOf_path _ _ _ _ _ _ He). split; eauto.
  - intros [Hc [e He]]. exists e; split.
    + apply list_elem_of_omap; eauto.
    + exact (oversizedEntryOf_path _ _ _ _ _ _ He).
Qed.

(** ** Sample runs *)

(** The stages of the sample run, whatever the three options left open. *)
Lemma stagesA (q : Query) :
  q_includeHtml q = QUndef -> q_includeCss q = QUndef ->
  q_includeSvg q = QUndef -> q_epubBasePath q = QUndef ->
  stages Sample.rtA (Sample.upload q) SampleRuns.filesA ∅ SampleRuns.usedA [].
Proof.
  destruct q as [q1 q2 q3 q4 q5 q6 q7]; cbn; intros -> -> -> ->.
  unfold stages; cbn [req_query req_file Sample.upload].
  split; [exists []; split; [reflexivity | vm_compute; reflexivity]|].
  split; [reflexivity|].
  replace (rootOf Sample.rtA SampleRuns.filesA) with (@nil N)
    by (vm_compute; reflexivity).
  split; [vm_compute; reflexivity|].
  split.
  - unfold manifestAbsOf.
    rewrite andb_false_r; reflexivity.
  - unfold collectReferences.
    unfold optionsOf; cbn [q_includeHtml q_includeCss q_includeSvg].
    vm_compute; reflexivity.
Qed.

(** ** Oversized images *)

Lemma stages_withImageSize rt f req files manifestAbs usedAbs ebp :
  stages rt req files manifestAbs usedAbs ebp ->
  stages (withImageSize rt f) req files manifestAbs usedAbs ebp.
Proof. intros H; exact H. Qed.

Lemma roundToDouble_exact (x : Z) :
  (Z.abs x < 2 ^ 53)%Z -> roundToDouble x = x.
Proof.
  intros H. unfold roundToDouble.
  apply Z.ltb_lt in H. rewrite H. reflexivity.
Qed.

(** Below 2^53 the product of the runtime is the product of the
    integers. *)
Lemma mulNum_exact (w h : Z) :
  (Z.abs (w * h) < 2 ^ 53)%Z -> mulNum w h = Finite (inject_Z (w * h)).
Proof.
  intros H. unfold mulNum. rewrite (roundToDouble_exact _ H).
  assert (E : (2 ^ 1024 <=? Z.abs (w * h))%Z = false).
  { apply Z.leb_gt. eapply Z.lt_trans; [exact H|]. reflexivity. }
  rewrite E. reflexivity.
Qed.

Lemma geNum_integer (a n : Z) :
  geNum (Finite (inject_Z a)) (Finite (inject_Z n)) = true <-> (n <= a)%Z.
Proof.
  cbn [geNum]. rewrite Qle_bool_iff, <- Zle_Qle. reflexivity.
Qed.

Lemma oversizedEntryOf_probed rt files options ebp abs w h :
  isImageFile abs = true ->
  probeOf rt files abs = ProbeDims (Some w) (Some h) ->
  w <> 0%Z -> h <> 0%Z ->
  oversizedEntryOf rt files options ebp abs =
    if geNum (mulNum w h) (pixelThreshold options)
    then Some {| o_file := Posix.basename abs;
                 o_internalPath := abs;
                 o_fullPath := buildFullPath abs ebp;
                 o_width := w; o_height := h; o_px := mulNum w h |}
    else None.
Proof.
  intros Himg Hprobe Hw Hh. unfold oversizedEntryOf.
  rewrite (isImageFile_IMG_EXT_REGEX _ Himg), Hprobe.
  apply Z.eqb_neq in Hw, Hh. rewrite Hw, Hh. reflexivity.
Qed.

(** A zero width or height keeps a candidate out of [oversized] whatever
    the threshold is. *)
Lemma zero_dimension_not_oversized rt files options ebp abs w h :
  probeOf rt files abs = ProbeDims (Some w) (Some h) ->
  w = 0%Z \/ h = 0%Z ->
  oversizedEntryOf rt files options ebp abs = None.
Proof.
  intros Hprobe Hz. unfold oversizedEntryOf. rewrite Hprobe.
  destruct (IMG_EXT_REGEX_test abs); [|reflexivity].
  destruct Hz as [-> | ->]; cbn [Z.eqb negb andb];
    [|rewrite andb_false_r]; reflexivity.
Qed.

(** C7 (as amended) -- threshold boundary.  A candidate whose probe yields
    a width and a height is never listed in [oversized] when one of them is
    zero; when both are non-zero and their product is below 2^53, it is
    listed, with these dimensions and their product, exactly when the
    product reaches the threshold: at the threshold it is listed, one pixel
    below it is not. *)
Theorem oversized_iff_area_reaches_threshold
    rt req files manifestAbs usedAbs ebp rep (abs : jsstring) (w h : Z) :
  stages rt req files manifestAbs usedAbs ebp ->
  validate rt req = Json rep ->
  abs ∈ candidatesAbsOf files (optionsOf rt (req_query req)) manifestAbs ->
  probeOf rt files abs = ProbeDims (Some w) (Some h) ->
  let t := pixelThreshold (optionsOf rt (req_query req)) in
  (w = 0%Z \/ h = 0%Z -> ~ inOversized rep abs)
  /\ (w <> 0%Z -> h <> 0%Z -> (Z.abs (w * h) < 2 ^ 53)%Z ->
      (inOversized rep abs <-> geNum (Finite (inject_Z (w * h))) t = true)
      /\ (forall e, e ∈ oversized rep -> o_internalPath e = abs ->
            o_width e = w /\ o_height e = h
            /\ o_px e = Finite (inject_Z (w * h)))
      /\ (forall n : Z, t = Finite (inject_Z n) ->
            (inOversized rep abs <-> (n <= w * h)%Z)
            /\ ((w * h = n)%Z -> inOversized rep abs)
            /\ ((w * h = n - 1)%Z -> ~ inOversized rep abs))).
Proof.
  intros Hst Hv Hc Hprobe t.
  rewrite (validate_report _ _ _ _ _ _ _ Hst Hv).
  pose proof (candidatesAbsOf_isImageFile _ _ _ _ Hc) as Himg.
  split.
  - intros Hz Hin. apply inOversized_reportOf in Hin as [_ [e He]].
    rewrite (zero_dimension_not_oversized _ _ _ _ _ _ _ Hprobe Hz) in He.
    discriminate He.
  - intros Hw Hh Hsmall.
    pose proof (oversizedEntryOf_probed rt files
                  (optionsOf rt (req_query req)) ebp abs w h
                  Himg Hprobe Hw Hh) as Hentry.
    fold t in Hentry. rewrite (mulNum_exact w h Hsmall) in Hentry.
    assert (Hiff : inOversized
                     (reportOf rt req files manifestAbs usedAbs ebp) abs
                   <-> geNum (Finite (inject_Z (w * h))) t = true).
    { rewrite inOversized_reportOf, Hentry.
      destruct (geNum (Finite (inject_Z (w * h))) t); split.
      - reflexivity.
      - intros _; split; [exact Hc | eauto].
      - intros [_ [e He]]; discriminate.
      - discriminate. }
    split; [exact Hiff|]. split.
    + intros e He Hpath. cbn [reportOf oversized] in He.
      apply list_elem_of_omap in He as (p & Hp & He).
      pose proof (oversizedEntryOf_path _ _ _ _ _ _ He) as Hp'.
      rewrite Hpath in Hp'; subst p. rewrite Hentry in He.
      destruct (geNum (Finite (inject_Z (w * h))) t); [|discriminate].
      injection He as <-. repeat split.
    + intros n Ht. rewrite Hiff, Ht, geNum_integer.
      repeat split; try tauto; lia.
Qed.

Lemma oversized_iff_area_reaches_threshold_witness :
  inOversized (reportOf Sample.rtA (Sample.upload Sample.noQuery)
                        SampleRuns.filesA ∅ SampleRuns.usedA [])
              (js "content/images/a.png")
  <-> (5600000 <= 3000 * 2000)%Z.
Proof.
  assert (Hst : stages Sample.rtA (Sample.upload Sample.noQuery)
                       SampleRuns.filesA ∅ SampleRuns.usedA [])
    by (apply stagesA; reflexivity).
  assert (Hc : js "content/images/a.png"
               ∈ candidatesAbsOf SampleRuns.filesA
                   (optionsOf Sample.rtA
                      (req_query (Sample.upload Sample.noQuery))) ∅)
    by (refine (bool_decide_unpack _ _); vm_compute; exact I).
  assert (Hp : probeOf Sample.rtA SampleRuns.filesA
                 (js "content/images/a.png")
               = ProbeDims (Some 3000%Z) (Some 2000%Z))
    by (vm_compute; reflexivity).
  destruct (oversized_iff_area_reaches_threshold
              Sample.rtA (Sample.upload Sample.noQuery)
              SampleRuns.filesA ∅ SampleRuns.usedA [] _
              (js "content/images/a.png") 3000 2000
              Hst (validate_stages _ _ _ _ _ _ Hst) Hc Hp) as [_ H].
  destruct (H ltac:(lia) ltac:(lia) ltac:(lia)) as (_ & _ & Hn).
  exact (proj1 (Hn 5600000%Z eq_refl)).
Defined.

(** C7, the claim as stated fails, in two ways.  Under the threshold -1
    (the query value [-1] is a number other than zero) the second image of
    scenario A, for which the prober reports 0 by 5 pixels, has an area of
    0, which is not below the threshold; it is probed with success and is
    not listed.  And under the threshold 9,007,199,705,687,824 an image of
    94,906,267 by 94,906,269 pixels, whose area is one pixel below the
    threshold, is listed: the product is computed in double precision. *)
Lemma threshold_test_is_not_on_the_exact_area :
  (probeOf rtFlat SampleRuns.filesA (js "content/images/b.png")
     = ProbeDims (Some 0%Z) (Some 5%Z)
   /\ pixelThreshold
        (optionsOf rtFlat (withThreshold Sample.noQuery (QStr (js "-1"))))
      = Finite (inject_Z (-1))
   /\ (-1 <= 0 * 5)%Z
   /\ exists rep,
        validate rtFlat
          (Sample.upload (withThreshold Sample.noQuery (QStr (js "-1"))))
        = Json rep
        /\ js "content/images/b.png"
           ∈ candidatesAbsOf SampleRuns.filesA
               (optionsOf rtFlat
                  (withThreshold Sample.noQuery (QStr (js "-1")))) ∅
        /\ ~ inOversized rep (js "content/images/b.png"))
  /\ (probeOf rtWide SampleRuns.filesA (js "content/images/b.png")
        = ProbeDims (Some 94906267%Z) (Some 94906269%Z)
      /\ pixelThreshold (optionsOf rtWide wideThreshold)
         = Finite (inject_Z 9007199705687824)
      /\ (94906267 * 94906269 = 9007199705687824 - 1)%Z
      /\ exists rep,
           validate rtWide (Sample.upload wideThreshold) = Json rep
           /\ js "content/images/b.png"
              ∈ candidatesAbsOf SampleRuns.filesA
                  (optionsOf rtWide wideThreshold) ∅
           /\ inOversized rep (js "content/images/b.png")).
Proof.
  split.
  - split; [vm_compute; reflexivity|].
    split; [vm_compute; reflexivity|].
    split; [lia|].
    assert (Hst : stages rtFlat
                    (Sample.upload
                       (withThreshold Sample.noQuery (QStr (js "-1"))))
                    SampleRuns.filesA ∅ SampleRuns.usedA [])
      by (apply (stages_withImageSize Sample.rtA),
            (stagesA (withThreshold Sample.noQuery (QStr (js "-1"))));
          reflexivity).
    eexists. split; [exact (validate_stages _ _ _ _ _ _ Hst)|].
    split; [refine (bool_decide_unpack _ _); vm_compute; exact I|].
    intros Hin. apply inOversized_reportOf in Hin as [_ [e He]].
    vm_compute in He. discriminate He.
  - split; [vm_compute; reflexivity|].
    split; [vm_compute; reflexivity|].
    split; [reflexivity|].
    assert (Hst : stages rtWide (Sample.upload wideThreshold)
                    SampleRuns.filesA ∅ SampleRuns.usedA [])
      by (apply (stages_withImageSize Sample.rtA), (stagesA wideThreshold);
          reflexivity).
    assert (Hc : js "content/images/b.png"
                 ∈ candidatesAbsOf SampleRuns.filesA
                     (optionsOf rtWide wideThreshold) ∅)
      by (refine (bool_decide_unpack _ _); vm_compute; exact I).
    eexists. split; [exact (validate_stages _ _ _ _ _ _ Hst)|].
    split; [exact Hc|].
    apply inOversized_reportOf. split; [exact Hc|].
    eexists. vm_compute. reflexivity.
Qed.

(** Above 2^53 the product is rounded: 94,906,267 by 94,906,269 pixels are
    one pixel less than 9,007,199,705,687,824, and the runtime computes
    that number; the square of 94,906,267 is reported one pixel short. *)
Lemma product_is_rounded_above_2_53 :
  (94906267 * 94906269 = 9007199705687824 - 1)%Z
  /\ mulNum 94906267 94906269 = Finite (inject_Z 9007199705687824)
  /\ (94906267 * 94906267 = 9007199515875289)%Z
  /\ mulNum 94906267 94906267 = Finite (inject_Z 9007199515875288).
Proof. repeat split; vm_compute; reflexivity. Qed.

(** ** Independence of the two checks *)




(** ** The manifest restriction *)

(** C3 (as amended) -- with [followOpfManifestOnly] the candidates are
    restricted to the manifest-image set whether or not that set is empty:
    when it is empty no candidate is classified and both lists are empty.
    Without the option every eligible candidate is classified. *)
Theorem manifest_restriction_unconditional
    rt req files manifestAbs usedAbs ebp rep :
  stages rt req files manifestAbs usedAbs ebp ->
  validate rt req = Json rep ->
  let options := optionsOf rt (req_query req) in
  (followOpfManifestOnly options = true ->
     candidatesAbsOf files options manifestAbs =
       filter (fun p => p ∈ manifestAbs) (listCandidateImages files options)
     /\ (manifestAbs = ∅ -> unreferenced rep = [] /\ oversized rep = []))
  /\ (followOpfManifestOnly options = false ->
        candidatesAbsOf files options manifestAbs =
          listCandidateImages files options).
Proof.
  intros Hst Hv options.
  rewrite (validate_report _ _ _ _ _ _ _ Hst Hv).
  unfold reportOf; fold options; cbn [unreferenced oversized].
  unfold candidatesAbsOf. split; intros ->; cbn [andb negb].
  - assert (E : filter (fun p => negb (negb (bool_decide (p ∈ manifestAbs))))
                       (listCandidateImages files options)
                = filter (fun p => p ∈ manifestAbs)
                         (listCandidateImages files options)).
    { apply list_filter_iff; intros p.
      rewrite negb_involutive. apply bool_decide_spec. }
    rewrite E. split; [reflexivity|]. intros ->.
    clear E. induction (listCandidateImages files options) as [|p l IH];
      [split; reflexivity|].
    rewrite filter_cons.
    destruct (decide (p ∈ (∅ : gset jsstring))) as [Hin|]; [|exact IH].
    set_solver.
  - induction (listCandidateImages files options) as [|p l IH];
      [reflexivity|].
    rewrite filter_cons, IH. reflexivity.
Qed.

Lemma manifest_restriction_unconditional_witness :
  unreferenced (reportOf Sample.rtA (Sample.upload SampleRuns.manifestOnly)
                         SampleRuns.filesA ∅ SampleRuns.usedA []) = []
  /\ oversized (reportOf Sample.rtA (Sample.upload SampleRuns.manifestOnly)
                         SampleRuns.filesA ∅ SampleRuns.usedA []) = [].
Proof.
  assert (Hst : stages Sample.rtA (Sample.upload SampleRuns.manifestOnly)
                       SampleRuns.filesA ∅ SampleRuns.usedA [])
    by (apply stagesA; reflexivity).
  destruct (manifest_restriction_unconditional
              Sample.rtA (Sample.upload SampleRuns.manifestOnly)
              SampleRuns.filesA ∅ SampleRuns.usedA [] _
              Hst (validate_stages _ _ _ _ _ _ Hst)) as [H _].
  destruct (H eq_refl) as [_ Hempty].
  apply Hempty; reflexivity.
Defined.

(** C3, the claim as stated fails: the archive of scenario A has no
    package document, so the manifest-image set is empty; with the option
    the unused image [b.png], listed without it, is no longer reported. *)
Lemma empty_manifest_drops_every_candidate :
  manifestAbsOf Sample.rtA SampleRuns.filesA
      (optionsOf Sample.rtA SampleRuns.manifestOnly)
      (rootOf Sample.rtA SampleRuns.filesA) = Some ∅
  /\ (exists rep,
        validate Sample.rtA (Sample.upload Sample.noQuery) = Json rep
        /\ map u_internalPath (unreferenced rep)
           = [js "content/images/b.png"])
  /\ (exists rep,
        validate Sample.rtA (Sample.upload SampleRuns.manifestOnly) = Json rep
        /\ unreferenced rep = [] /\ oversized rep = []).
Proof.
  split; [|split].
  - apply (stagesA SampleRuns.manifestOnly); reflexivity.
  - eexists; split.
    + apply validate_stages, (stagesA Sample.noQuery); reflexivity.
    + vm_compute; reflexivity.
  - eexists; split.
    + apply validate_stages, (stagesA SampleRuns.manifestOnly);
        reflexivity.
    + split; vm_compute; reflexivity.
Qed.

(** ** The reference collector *)

Section CollectorFacts.

Variable rt : Runtime.
Variables (options : Options) (contentRoot : jsstring).

Lemma resolvesTo_nil p x : ~ resolvesTo rt contentRoot p [] x.
Proof. intros (href & [] & _). Qed.

Lemma resolvesTo_app p l1 l2 x :
  resolvesTo rt contentRoot p (l1 ++ l2) x <-> resolvesTo rt contentRoot p l1 x \/ resolvesTo rt contentRoot p l2 x.
Proof.
  unfold resolvesTo; split.
  - intros (href & Hin & H). apply in_app_or in Hin as [Hin|Hin]; eauto.
  - intros [(href & Hin & H) | (href & Hin & H)];
      exists href; (split; [apply in_or_app; auto | exact H]).
Qed.

Lemma addRef_spec p usedAbs href x :
  x ∈ addRef rt p contentRoot usedAbs href <->
  x ∈ usedAbs \/ resolvesTo rt contentRoot p [href] x.
Proof.
  unfold addRef, resolvesTo.
  destruct (is_empty (resolveRef (cwd rt) p href contentRoot)) eqn:He.
  - apply is_empty_true in He. split; [auto|].
    intros [H | (h & [<- | []] & Hr & Hx)]; [exact H | congruence].
  - apply is_empty_false in He. rewrite elem_of_union, elem_of_singleton.
    split.
    + intros [-> | H]; [right | auto]. exists href; simpl; auto.
    + intros [H | (h & [<- | []] & Hr & Hx)]; auto.
Qed.

Lemma addRefs_spec p hrefs : forall usedAbs x,
  x ∈ addRefs rt p contentRoot usedAbs hrefs <->
  x ∈ usedAbs \/ resolvesTo rt contentRoot p hrefs x.
Proof.
  unfold addRefs.
  induction hrefs as [|href hrefs IH]; intros usedAbs x; cbn [fold_left].
  - pose proof (resolvesTo_nil p x). tauto.
  - rewrite IH, addRef_spec.
    rewrite (resolvesTo_app p [href] hrefs x). tauto.
Qed.

Lemma each_spec doc selector refs p : forall usedAbs x,
  x ∈ each rt doc selector refs p contentRoot usedAbs <->
  x ∈ usedAbs \/ resolvesTo rt contentRoot p (flat_map refs (doc selector)) x.
Proof.
  unfold each.
  induction (doc selector) as [|el els IH]; intros usedAbs x;
    cbn [fold_left flat_map].
  - pose proof (resolvesTo_nil p x). tauto.
  - rewrite IH, addRefs_spec, resolvesTo_app. tauto.
Qed.

Lemma scanMarkup_spec p obj usedAbs used' x :
  scanMarkup rt options contentRoot p obj usedAbs = Some used' ->
  x ∈ used' <-> x ∈ usedAbs \/ resolvesTo rt contentRoot p (markupRefs rt options p obj) x.
Proof.
  unfold scanMarkup, markupRefs.
  destruct (utf8 rt (buffer obj)) as [html|]; [|discriminate].
  cbn [mbind option_bind].
  destruct (cheerioLoad rt _ _) as [doc|]; [|discriminate].
  cbn [mbind option_bind]. intros [= <-].
  rewrite !resolvesTo_app.
  destruct (includeSvg options); rewrite !each_spec.
  - tauto.
  - pose proof (resolvesTo_nil p x). tauto.
Qed.

Lemma scanCss_spec p obj usedAbs used' x :
  scanCss rt contentRoot p obj usedAbs = Some used' ->
  x ∈ used' <->
  x ∈ usedAbs \/ resolvesTo rt contentRoot p (cssRefs rt obj) x.
Proof.
  unfold scanCss, cssRefs.
  destruct (utf8 rt (buffer obj)) as [css|]; [|discriminate].
  cbn [mbind option_bind default from_option id]. intros [= <-].
  apply addRefs_spec.
Qed.

Lemma scanSvg_spec p obj usedAbs used' x :
  scanSvg rt contentRoot p obj usedAbs = Some used' ->
  x ∈ used' <->
  x ∈ usedAbs \/ resolvesTo rt contentRoot p (svgRefs rt obj) x.
Proof.
  unfold scanSvg, svgRefs.
  destruct (utf8 rt (buffer obj)) as [xml|]; [|discriminate].
  cbn [mbind option_bind]. intros [= <-].
  destruct (cheerioLoad rt _ true) as [doc|].
  - rewrite !each_spec, resolvesTo_app. tauto.
  - pose proof (resolvesTo_nil p x). tauto.
Qed.

Lemma scanFile_spec p obj usedAbs used' x :
  scanFile rt options contentRoot usedAbs (p, obj) = Some used' ->
  x ∈ used' <-> x ∈ usedAbs \/ resolvesTo rt contentRoot p (rawRefs rt options p obj) x.
Proof.
  unfold scanFile, rawRefs. rewrite !resolvesTo_app.
  pose proof (resolvesTo_nil p x) as Hnil.
  intros H.
  apply bind_inv in H as (u1 & H1 & H).
  apply bind_inv in H as (u2 & H2 & H3).
  assert (E1 : x ∈ u1 <->
               x ∈ usedAbs
               \/ resolvesTo rt contentRoot p
                    (if isDoc options p
                     then markupRefs rt options p obj else []) x).
  { destruct (isDoc options p).
    - exact (scanMarkup_spec _ _ _ _ x H1).
    - injection H1 as <-. tauto. }
  assert (E2 : x ∈ u2 <->
               x ∈ u1
               \/ resolvesTo rt contentRoot p
                    (if includeCss options && isCss p
                     then cssRefs rt obj else []) x).
  { destruct (includeCss options && isCss p).
    - exact (scanCss_spec _ _ _ _ x H2).
    - injection H2 as <-. tauto. }
  assert (E3 : x ∈ used' <->
               x ∈ u2
               \/ resolvesTo rt contentRoot p
                    (if includeSvg options && isSvg p
                     then svgRefs rt obj else []) x).
  { destruct (includeSvg options && isSvg p).
    - exact (scanSvg_spec _ _ _ _ x H3).
    - injection H3 as <-. tauto. }
  tauto.
Qed.

(** The used-set holds exactly the non-empty resolutions of the raw
    references of the scanned members. *)
Lemma collect_spec (files : fileMap) : forall usedAbs used' x,
  foldM (scanFile rt options contentRoot) files usedAbs = Some used' ->
  x ∈ used' <->
  x ∈ usedAbs
  \/ exists p obj, In (p, obj) files /\ resolvesTo rt contentRoot p (rawRefs rt options p obj) x.
Proof.
  induction files as [|[p obj] files IH]; intros usedAbs used' x; cbn [foldM].
  - intros [= <-]. split; [auto|]. intros [H | (? & ? & [] & _)]; exact H.
  - destruct (scanFile rt options contentRoot usedAbs (p, obj)) as [u1|] eqn:H1;
      [|discriminate].
    intros H2. rewrite (IH _ _ x H2), (scanFile_spec _ _ _ _ x H1).
    split.
    + intros [[H | H] | (p' & obj' & Hin & H)]; [auto | right | right].
      * exists p, obj; split; [left; reflexivity | exact H].
      * exists p', obj'; split; [right; exact Hin | exact H].
    + intros [H | (p' & obj' & [[= <- <-] | Hin] & Hr)]; [auto | auto |].
      right; exists p', obj'; auto.
Qed.

End CollectorFacts.

Lemma isImageFile_nonempty (p : jsstring) : isImageFile p = true -> p <> [].
Proof. intros H ->. vm_compute in H. discriminate. Qed.

(** ** Documents that cannot be read *)

Lemma scanFile_None rt options root used p obj :
  scanFile rt options root used (p, obj) = None <->
  documentAborts rt options p obj.
Proof.
  unfold scanFile, scanMarkup, scanCss, scanSvg, documentAborts, scanned.
  destruct (isDoc options p), (includeCss options && isCss p),
    (includeSvg options && isSvg p),
    (utf8 rt (buffer obj)) as [t|];
    cbn [mbind option_bind orb];
    try destruct (cheerioLoad rt t (endsWith (toLowerCase p) (js ".xhtml")))
      as [doc|] eqn:Hload;
    cbn [mbind option_bind];
    split; intros H; try discriminate H; try reflexivity;
    try (left; split; reflexivity);
    try (right; split; [reflexivity|]; exists t; split;
         [reflexivity | exact Hload]);
    exfalso;
    destruct H as [[H1 H2] | [H1 (html & H2 & H3)]];
    try discriminate H1; try discriminate H2;
    injection H2 as <-; congruence.
Qed.

Lemma collectReferences_None rt files root options :
  collectReferences rt files root options = None <->
  exists p obj, In (p, obj) files /\ documentAborts rt options p obj.
Proof.
  unfold collectReferences. generalize (∅ : gset jsstring).
  induction files as [|[p obj] files IH]; intros used; cbn [foldM].
  - split; [discriminate | intros (? & ? & [] & _)].
  - destruct (scanFile rt options root used (p, obj)) as [u|] eqn:Hs.
    + rewrite IH. split.
      * intros (p' & obj' & Hin & H). exists p', obj'; split; [right|]; auto.
      * intros (p' & obj' & [Heq | Hin] & Hrej).
        -- injection Heq as <- <-.
           pose proof (proj2 (scanFile_None rt options root used p obj) Hrej).
           congruence.
        -- eauto.
    + apply scanFile_None in Hs. split; [|reflexivity].
      intros _. exists p, obj; split; [left; reflexivity | exact Hs].
Qed.

Lemma longText_length :
  N.of_nat (length longText) = (Sample.maxStringLength + 1)%N.
Proof. unfold longText. rewrite repeat_length. apply N2Nat.id. Qed.

(** C9 -- a scanned document that cannot be read ends the run.  When the
    text of a scanned member of the archive cannot be decoded, be it a
    page, a stylesheet or a vector image, or when the markup parser throws
    on a page, the run answers with status 500 and no report.  Only an
    exception of the parser on a vector image is caught: that document
    then adds nothing to the used-set and the scan goes on. *)
Theorem unreadable_document_aborts_the_run
    rt req buf files (p : jsstring) (obj : file) :
  req_file req = Some buf ->
  unzipToMap rt buf = Some files ->
  In (p, obj) files ->
  let options := optionsOf rt (req_query req) in
  (documentAborts rt options p obj -> validate rt req = Status500)
  /\ (forall contentRoot usedAbs xml,
        utf8 rt (buffer obj) = Some xml ->
        cheerioLoad rt xml true = None ->
        scanSvg rt contentRoot p obj usedAbs = Some usedAbs).
Proof.
  intros Hbuf Hzip Hin options. split.
  - intros Hab. unfold validate. rewrite Hbuf, Hzip.
    destruct (epubBasePathOf _); [|reflexivity].
    destruct (contentRootOf rt files) as [root|]; [|reflexivity].
    destruct (manifestAbsOf rt files _ root); [|reflexivity].
    assert (E : collectReferences rt files root options = None)
      by (apply collectReferences_None; eauto).
    fold options. rewrite E. reflexivity.
  - intros contentRoot usedAbs xml Hxml Hload. unfold scanSvg.
    rewrite Hxml. cbn [mbind option_bind]. rewrite Hload. reflexivity.
Qed.

Lemma unreadable_document_aborts_the_run_witness :
  validate rtLong (Sample.upload SampleRuns.withCss) = Status500.
Proof.
  refine (proj1 (unreadable_document_aborts_the_run
                   rtLong (Sample.upload SampleRuns.withCss) []
                   [ (js "css/style.css",
                      {| path := js "css/style.css"; buffer := longText |});
                     (js "images/c.png",
                      {| path := js "images/c.png";
                         buffer := js "bytes of c" |}) ]
                   (js "css/style.css")
                   {| path := js "css/style.css"; buffer := longText |}
                   eq_refl _ _) _).
  - lazy -[longText]. reflexivity.
  - left; reflexivity.
  - left. split; [lazy -[longText]; reflexivity|].
    change ((if (Sample.maxStringLength <? N.of_nat (length longText))%N
             then None else Some longText) = None).
    rewrite longText_length. reflexivity.
Defined.

(** ** The worked scenarios of the specification *)

(** Scenarios A and B: the image the page shows is not reported unused, and
    is reported oversized with its 6,000,000 pixels. *)
Example scenario_A_B :
  paths (validate Sample.rtA (Sample.upload Sample.noQuery))
  = Some ([js "content/images/b.png"],
          [(js "content/images/a.png", Finite (inject_Z 6000000))]).
Proof. vm_compute; reflexivity. Qed.

(** Scenario C: the stylesheet counts only with [includeCss]. *)
Example scenario_C :
  paths (validate SampleRuns.rtC (Sample.upload SampleRuns.withCss))
  = Some ([], [])
  /\ paths (validate SampleRuns.rtC (Sample.upload Sample.noQuery))
     = Some ([js "images/c.png"], []).
Proof. split; vm_compute; reflexivity. Qed.

(** Scenario D: an image the manifest does not declare is no candidate. *)
Example scenario_D :
  paths (validate SampleRuns.rtD (Sample.upload SampleRuns.manifestOnly))
  = Some ([js "OEBPS/images/a.png"], [])
  /\ paths (validate SampleRuns.rtD (Sample.upload Sample.noQuery))
     = Some ([js "OEBPS/images/a.png"; js "OEBPS/images/stray.jpg"], []).
Proof. split; vm_compute; reflexivity. Qed.

(** * Further properties of the source *)

(** ** [normalize] and [stripQueryAndHash] *)

Lemma normalize_idempotent (p : jsstring) : normalize (normalize p) = normalize p.
Proof.
  unfold normalize. rewrite map_map. apply map_ext; intros c.
  destruct (N.eqb_spec c BACKSLASH) as [->|Hne]; [reflexivity|].
  cbv iota. apply N.eqb_neq in Hne. rewrite Hne. reflexivity.
Qed.

Lemma normalize_no_backslash (p : jsstring) : BACKSLASH ∉ normalize p.
Proof.
  unfold normalize. rewrite list_elem_of_In, in_map_iff.
  intros (c & Hc & _).
  destruct (N.eqb_spec c BACKSLASH); [discriminate Hc | congruence].
Qed.

Lemma normalize_id (p : jsstring) : BACKSLASH ∉ p -> normalize p = p.
Proof.
  unfold normalize. induction p as [|c p IH]; intros H; [reflexivity|].
  cbn [map]. apply not_elem_of_cons in H as [Hc Hp].
  destruct (N.eqb_spec c BACKSLASH); [congruence|].
  rewrite IH by exact Hp. reflexivity.
Qed.

(** [normalize] turns every back-slash and nothing else: it is idempotent,
    keeps the length, leaves no back-slash, and is the identity on a path
    without one; [safeJoin] answers with such a path, and never with the
    empty string. *)
Theorem normalize_turns_backslashes (p : jsstring) (segs : list jsstring) :
  normalize (normalize p) = normalize p
  /\ length (normalize p) = length p
  /\ (BACKSLASH ∉ normalize p)
  /\ (BACKSLASH ∉ p -> normalize p = p)
  /\ (BACKSLASH ∉ safeJoin segs)
  /\ safeJoin segs <> [].
Proof.
  repeat split.
  - apply normalize_idempotent.
  - unfold normalize. apply length_map.
  - apply normalize_no_backslash.
  - apply normalize_id.
  - apply normalize_no_backslash.
  - unfold safeJoin, Posix.join. rewrite normalize_nil_iff.
    destruct (filter _ segs); [discriminate | apply posix_normalize_nonempty].
Qed.

Lemma split_first_prefix (sep : N) (s : jsstring) :
  exists r, s = split_first sep s ++ r.
Proof.
  induction s as [|c s [r IH]].
  - exists []; reflexivity.
  - destruct (N.eqb_spec c sep) as [->|Hne].
    + rewrite split_first_sep. eexists; reflexivity.
    + rewrite split_first_cons by exact Hne. exists r.
      cbn [app]. congruence.
Qed.

Lemma split_first_free (sep : N) (s : jsstring) : sep ∉ split_first sep s.
Proof.
  induction s as [|c s IH].
  - unfold split_first; cbn. apply not_elem_of_nil.
  - destruct (N.eqb_spec c sep) as [->|Hne].
    + rewrite split_first_sep. apply not_elem_of_nil.
    + rewrite split_first_cons by exact Hne.
      apply not_elem_of_cons; split; [congruence | exact IH].
Qed.

Lemma split_first_id (sep : N) (s : jsstring) :
  sep ∉ s -> split_first sep s = s.
Proof.
  induction s as [|c s IH]; intros H; [reflexivity|].
  apply not_elem_of_cons in H as [Hc Hs].
  rewrite split_first_cons by congruence. rewrite IH by exact Hs.
  reflexivity.
Qed.

Lemma split_first_keeps_free (sep c : N) (s : jsstring) :
  c ∉ s -> c ∉ split_first sep s.
Proof.
  intros H Hin. destruct (split_first_prefix sep s) as [r Hr].
  apply H. rewrite Hr. apply elem_of_app; auto.
Qed.

(** What follows the first separator does not matter. *)
Lemma split_first_app (sep : N) (y z : jsstring) :
  split_first sep (y ++ sep :: z) = split_first sep y.
Proof.
  induction y as [|c y IH]; cbn [app].
  - rewrite split_first_sep. reflexivity.
  - destruct (N.eqb_spec c sep) as [->|Hne].
    + rewrite !split_first_sep. reflexivity.
    + rewrite !split_first_cons by exact Hne. rewrite IH. reflexivity.
Qed.

Lemma stripQueryAndHash_app_hash (y z : jsstring) :
  stripQueryAndHash (y ++ HASH :: z) = stripQueryAndHash y.
Proof. unfold stripQueryAndHash. rewrite split_first_app. reflexivity. Qed.

Lemma stripQueryAndHash_app_qmark (y z : jsstring) :
  stripQueryAndHash (y ++ QMARK :: z) = stripQueryAndHash y.
Proof.
  unfold stripQueryAndHash.
  induction y as [|c y IH]; cbn [app].
  - rewrite (split_first_cons HASH QMARK) by discriminate.
    rewrite split_first_sep. reflexivity.
  - destruct (N.eqb_spec c HASH) as [->|Hh].
    + rewrite !split_first_sep. reflexivity.
    + rewrite !(split_first_cons HASH c) by exact Hh.
      destruct (N.eqb_spec c QMARK) as [->|Hq].
      * rewrite !split_first_sep. reflexivity.
      * rewrite !(split_first_cons QMARK c) by exact Hq.
        rewrite IH. reflexivity.
Qed.

(** [stripQueryAndHash] cuts the reference at its first [#] or [?]: the
    result is a prefix of the reference that holds neither, it is the
    reference itself when the reference holds neither, a second pass
    changes nothing, and whatever follows a [#] or a [?] is ignored. *)
Theorem stripQueryAndHash_cuts (ref tail : jsstring) :
  (exists r, ref = stripQueryAndHash ref ++ r)
  /\ (HASH ∉ stripQueryAndHash ref)
  /\ (QMARK ∉ stripQueryAndHash ref)
  /\ (HASH ∉ ref -> QMARK ∉ ref -> stripQueryAndHash ref = ref)
  /\ stripQueryAndHash (stripQueryAndHash ref) = stripQueryAndHash ref
  /\ stripQueryAndHash (ref ++ HASH :: tail) = stripQueryAndHash ref
  /\ stripQueryAndHash (ref ++ QMARK :: tail) = stripQueryAndHash ref.
Proof.
  assert (Hh : HASH ∉ stripQueryAndHash ref)
    by apply split_first_keeps_free, split_first_free.
  assert (Hq : QMARK ∉ stripQueryAndHash ref) by apply split_first_free.
  repeat split.
  - unfold stripQueryAndHash.
    destruct (split_first_prefix HASH ref) as [r1 H1].
    destruct (split_first_prefix QMARK (split_first HASH ref)) as [r2 H2].
    exists (r2 ++ r1). rewrite app_assoc, <- H2. exact H1.
  - exact Hh.
  - exact Hq.
  - intros H1 H2. unfold stripQueryAndHash.
    rewrite (split_first_id HASH) by exact H1. apply split_first_id, H2.
  - unfold stripQueryAndHash at 1.
    rewrite (split_first_id HASH) by exact Hh. apply split_first_id, Hq.
  - apply stripQueryAndHash_app_hash.
  - apply stripQueryAndHash_app_qmark.
Qed.

(** ** [decodeRef] *)

Lemma decode_loop_plain (fuel : nat) (s : jsstring) :
  PERCENT ∉ s -> (length s <= fuel)%nat -> Uri.decode_loop fuel s = Some s.
Proof.
  revert fuel; induction s as [|c s IH]; intros fuel Hp Hf.
  - destruct fuel; reflexivity.
  - destruct fuel as [|fuel]; [cbn [length] in Hf; lia|].
    apply not_elem_of_cons in Hp as [Hc Hs].
    cbn [Uri.decode_loop length] in *.
    destruct (N.eqb_spec c PERCENT); [congruence|].
    rewrite IH by (auto; lia). reflexivity.
Qed.

Lemma codePointToUTF16_length (v : N) :
  (length (Uri.codePointToUTF16 v) <= 2)%nat.
Proof. unfold Uri.codePointToUTF16. destruct (v <? 65536); cbn; lia. Qed.

(** A reference without a percent sign is its own decoding, and a
    reference whose escapes are malformed is kept as it is. *)
Theorem decodeRef_plain (ref : jsstring) :
  (PERCENT ∉ ref -> decodeRef ref = ref)
  /\ (Uri.decodeURI ref = None -> decodeRef ref = ref)
  /\ (forall d, Uri.decodeURI ref = Some d ->
        decodeRef ref = d /\ (length d <= length ref)%nat).
Proof.
  unfold decodeRef. split; [|split].
  - intros H. unfold Uri.decodeURI.
    rewrite decode_loop_plain by (auto; lia). reflexivity.
  - intros ->. reflexivity.
  - intros d Hd. rewrite Hd. split; [reflexivity|].
    unfold Uri.decodeURI in Hd. revert d Hd.
    generalize (Nat.le_refl (length ref)).
    generalize (length ref) at 2 3 as fuel.
    intros fuel; revert ref.
    induction fuel as [|fuel IH]; intros s Hf d Hd.
    + destruct s; [|cbn [length] in Hf; lia].
      injection Hd as <-. cbn [length]; lia.
    + destruct s as [|c s1]; [injection Hd as <-; cbn [length]; lia|].
      cbn [length] in Hf. cbn [Uri.decode_loop] in Hd.
      destruct (c =? PERCENT).
      * destruct s1 as [|h1 [|h2 s2]]; try discriminate.
        cbn [length] in Hf.
        destruct (Uri.parseHexOctet h1 h2) as [b|]; [|discriminate].
        rewrite bind_Some in Hd.
        destruct (Uri.leading_ones b) as [|[|[|[|[|n]]]]]; try discriminate.
        -- destruct (Uri.decode_loop fuel s2) as [r|] eqn:Hr; [|discriminate].
           rewrite bind_Some in Hd. injection Hd as <-.
           apply IH in Hr; [|lia].
           destruct (Uri.preserved b); cbn [length app]; lia.
        -- destruct (Uri.read_escapes 1 s2) as [[os s3]|] eqn:He;
             [|discriminate].
           apply read_escapes_length in He. rewrite bind_Some in Hd.
           destruct (Uri.utf8_code_point (b :: os)) as [v|]; [|discriminate].
           rewrite bind_Some in Hd.
           destruct (Uri.decode_loop fuel s3) as [r|] eqn:Hr; [|discriminate].
           rewrite bind_Some in Hd. injection Hd as <-.
           apply IH in Hr; [|lia]. rewrite length_app. cbn [length].
           pose proof (codePointToUTF16_length v). lia.
        -- destruct (Uri.read_escapes 2 s2) as [[os s3]|] eqn:He;
             [|discriminate].
           apply read_escapes_length in He. rewrite bind_Some in Hd.
           destruct (Uri.utf8_code_point (b :: os)) as [v|]; [|discriminate].
           rewrite bind_Some in Hd.
           destruct (Uri.decode_loop fuel s3) as [r|] eqn:Hr; [|discriminate].
           rewrite bind_Some in Hd. injection Hd as <-.
           apply IH in Hr; [|lia]. rewrite length_app. cbn [length].
           pose proof (codePointToUTF16_length v). lia.
        -- destruct (Uri.read_escapes 3 s2) as [[os s3]|] eqn:He;
             [|discriminate].
           apply read_escapes_length in He. rewrite bind_Some in Hd.
           destruct (Uri.utf8_code_point (b :: os)) as [v|]; [|discriminate].
           rewrite bind_Some in Hd.
           destruct (Uri.decode_loop fuel s3) as [r|] eqn:Hr; [|discriminate].
           rewrite bind_Some in Hd. injection Hd as <-.
           apply IH in Hr; [|lia]. rewrite length_app. cbn [length].
           pose proof (codePointToUTF16_length v). lia.
      * destruct (Uri.decode_loop fuel s1) as [r|] eqn:Hr; [|discriminate].
        rewrite bind_Some in Hd. injection Hd as <-.
        apply IH in Hr; [|lia]. cbn [length]; lia.
Qed.

(** ** [resolveRef]: what the result does not depend on *)

Lemma trimStart_app (a b : jsstring) :
  trimStart a <> [] -> trimStart (a ++ b) = trimStart a ++ b.
Proof.
  induction a as [|c a IH]; cbn [trimStart app]; [congruence|].
  destruct (is_space c); [exact IH | reflexivity].
Qed.

(** A tail behind a visible separator stays behind it when the reference
    is trimmed. *)
Lemma trim_app_sep (h : jsstring) (c sep : N) (tail : jsstring) :
  is_space c = false -> is_space sep = false ->
  exists tail',
    trim ((h ++ [c]) ++ sep :: tail) = trim (h ++ [c]) ++ sep :: tail'.
Proof.
  intros Hc Hsep. exists (rev (trimStart (rev tail))).
  assert (Hne : trimStart (h ++ [c]) <> []).
  { rewrite trimStart_snoc by exact Hc. intros H.
    apply app_eq_nil in H as [_ H]; discriminate. }
  unfold trim. rewrite (trimStart_app _ _ Hne).
  rewrite trimStart_snoc by exact Hc.
  rewrite !rev_app_distr. cbn [rev app].
  rewrite <- !app_assoc. cbn [app].
  change (rev tail ++ sep :: c :: rev (trimStart h))
    with (rev tail ++ [sep] ++ c :: rev (trimStart h)).
  rewrite app_assoc, (trimStart_app (rev tail ++ [sep])).
  - rewrite trimStart_snoc by exact Hsep.
    cbn [trimStart]. rewrite Hc.
    rewrite !rev_app_distr. cbn [rev app].
    rewrite <- !app_assoc. reflexivity.
  - rewrite trimStart_snoc by exact Hsep. intros H.
    apply app_eq_nil in H as [_ H]; discriminate.
Qed.

Lemma startsWith_app_sep (h p : jsstring) (sep : N) (tail : jsstring) :
  sep ∉ p -> startsWith (h ++ sep :: tail) p = startsWith h p.
Proof.
  revert h; induction p as [|d p IH]; intros h Hp; [reflexivity|].
  apply not_elem_of_cons in Hp as [Hd Hp].
  destruct h as [|c h]; cbn [app startsWith].
  - destruct (N.eqb_spec d sep); [congruence | reflexivity].
  - rewrite IH by exact Hp. reflexivity.
Qed.

Lemma skipAlpha_app_sep (h : jsstring) (sep : N) (tail : jsstring) :
  is_alpha sep = false ->
  skipAlpha (h ++ sep :: tail) = skipAlpha h ++ sep :: tail.
Proof.
  intros Hsep; induction h as [|c h IH]; cbn [app skipAlpha].
  - rewrite Hsep. reflexivity.
  - destruct (is_alpha c); [exact IH | reflexivity].
Qed.

Lemma guards_app_sep (h : jsstring) (c sep : N) (tail : jsstring) :
  sep = HASH \/ sep = QMARK ->
  isUrlLike ((h ++ [c]) ++ sep :: tail) = isUrlLike (h ++ [c])
  /\ startsWith ((h ++ [c]) ++ sep :: tail) (js "data:")
     = startsWith (h ++ [c]) (js "data:").
Proof.
  intros Hsep.
  assert (Ha : is_alpha sep = false) by (destruct Hsep as [-> | ->]; reflexivity).
  assert (H1 : sep ∉ js "//")
    by (destruct Hsep as [-> | ->];
        refine (bool_decide_unpack _ _); vm_compute; exact I).
  assert (H2 : sep ∉ js "://")
    by (destruct Hsep as [-> | ->];
        refine (bool_decide_unpack _ _); vm_compute; exact I).
  assert (H3 : sep ∉ js "data:")
    by (destruct Hsep as [-> | ->];
        refine (bool_decide_unpack _ _); vm_compute; exact I).
  split; [|apply (startsWith_app_sep (h ++ [c]) _ sep tail H3)].
  unfold isUrlLike.
  rewrite (startsWith_app_sep (h ++ [c]) _ sep tail H1).
  rewrite (skipAlpha_app_sep (h ++ [c]) sep tail Ha).
  rewrite (startsWith_app_sep (skipAlpha (h ++ [c])) _ sep tail H2).
  destruct h; reflexivity.
Qed.

(** A fragment or a query behind a reference does not change what the
    reference resolves to, as long as no white space stands between the
    reference and the [#] or [?]. *)
Theorem resolveRef_ignores_fragment_and_query
    (cwd base root href tail : jsstring) (c : N) :
  last href = Some c -> is_space c = false ->
  resolveRef cwd base (Some (href ++ HASH :: tail)) root
    = resolveRef cwd base (Some href) root
  /\ resolveRef cwd base (Some (href ++ QMARK :: tail)) root
     = resolveRef cwd base (Some href) root.
Proof.
  intros Hlast Hc.
  apply last_Some in Hlast as [h ->].
  assert (Hclean : forall sep, sep = HASH \/ sep = QMARK ->
            cleanRef ((h ++ [c]) ++ sep :: tail) = cleanRef (h ++ [c])).
  { intros sep Hsep. unfold cleanRef.
    destruct (trim_app_sep h c sep tail Hc) as [tail' ->];
      [destruct Hsep as [-> | ->]; reflexivity|].
    destruct Hsep as [-> | ->];
      [rewrite stripQueryAndHash_app_hash
      |rewrite stripQueryAndHash_app_qmark]; reflexivity. }
  assert (Hne : forall x, is_empty ((h ++ [c]) ++ x) = false)
    by (intros x; destruct h; reflexivity).
  assert (Hne2 : is_empty (h ++ [c]) = false) by (destruct h; reflexivity).
  split; rewrite !resolveRef_unfold.
  - destruct (guards_app_sep h c HASH tail (or_introl eq_refl)) as [-> ->].
    rewrite (Hclean HASH (or_introl eq_refl)).
    rewrite Hne, Hne2. reflexivity.
  - destruct (guards_app_sep h c QMARK tail (or_intror eq_refl)) as [-> ->].
    rewrite (Hclean QMARK (or_intror eq_refl)).
    rewrite Hne, Hne2. reflexivity.
Qed.

Lemma resolveRef_ignores_fragment_and_query_witness :
  resolveRef (js "/srv/app") (js "OEBPS/text/ch1.xhtml")
             (Some (js "../images/a.png" ++ HASH :: js "top")) (js "OEBPS/")
  = resolveRef (js "/srv/app") (js "OEBPS/text/ch1.xhtml")
               (Some (js "../images/a.png")) (js "OEBPS/").
Proof.
  apply (resolveRef_ignores_fragment_and_query
           (js "/srv/app") (js "OEBPS/text/ch1.xhtml") (js "OEBPS/")
           (js "../images/a.png") (js "top") 103);
    reflexivity.
Defined.

Lemma resolveClean_normalize_base (base clean : jsstring) :
  resolveClean (normalize base) clean = resolveClean base clean.
Proof. unfold resolveClean. rewrite normalize_idempotent. reflexivity. Qed.

(** Back-slashes in the path of the referencing file and in the content
    root count as slashes, and no result holds a back-slash. *)
Theorem resolveRef_backslash_insensitive
    (cwd base root : jsstring) (href : option jsstring) :
  resolveRef cwd (normalize base) href (normalize root)
    = resolveRef cwd base href root
  /\ (BACKSLASH ∉ resolveRef cwd base href root).
Proof.
  destruct href as [href|]; [|split; [reflexivity | apply not_elem_of_nil]].
  rewrite !resolveRef_unfold. unfold escapesRoot.
  rewrite resolveClean_normalize_base, normalize_idempotent.
  assert (is_empty (normalize root) = is_empty root) as ->
    by (destruct root; reflexivity).
  split; [reflexivity|].
  destruct (is_empty href); [apply not_elem_of_nil|].
  destruct (isUrlLike href || startsWith href (js "data:"));
    [apply not_elem_of_nil|].
  destruct (negb (is_empty root) && _); [apply not_elem_of_nil|].
  unfold resolveClean. apply normalize_no_backslash.
Qed.

(** Without a content root the guards alone make a reference
    Unresolvable: the empty reference, the URL-like one and the data URI. *)
Theorem resolveRef_unscoped_unresolvable (cwd base href : jsstring) :
  resolveRef cwd base (Some href) [] = []
  <-> href = [] \/ isUrlLike href = true
      \/ startsWith href (js "data:") = true.
Proof.
  rewrite resolveRef_unfold. unfold escapesRoot. cbn [is_empty negb andb].
  destruct href as [|c h]; cbn [is_empty]; [tauto|].
  destruct (isUrlLike (c :: h)); cbn [orb]; [tauto|].
  destruct (startsWith (c :: h) (js "data:")); [tauto|].
  split.
  - intros H. exfalso. exact (resolveClean_nonempty _ _ H).
  - intros [H | [H | H]]; discriminate.
Qed.

(** ** The content root *)

Lemma dropNonSlash_spec (t : jsstring) :
  exists pre, t = pre ++ dropNonSlash t
              /\ (SLASH ∉ pre)
              /\ (dropNonSlash t = [] \/ exists r, dropNonSlash t = SLASH :: r).
Proof.
  induction t as [|c t (pre & Ht & Hpre & Hd)]; cbn [dropNonSlash].
  - exists []. repeat split; [apply not_elem_of_nil | auto].
  - destruct (N.eqb_spec c SLASH) as [->|Hne].
    + exists []. repeat split; [apply not_elem_of_nil | eauto].
    + exists (c :: pre). repeat split.
      * cbn [app]. congruence.
      * apply not_elem_of_cons; auto.
      * exact Hd.
Qed.

(** [stripLastSegment] splits a path into its directory, empty or closed
    by a slash, and a last segment without a slash. *)
Lemma stripLastSegment_spec (s : jsstring) :
  exists name, s = stripLastSegment s ++ name
               /\ (SLASH ∉ name)
               /\ (stripLastSegment s = []
                   \/ last (stripLastSegment s) = Some SLASH).
Proof.
  unfold stripLastSegment.
  destruct (dropNonSlash_spec (rev s)) as (pre & Ht & Hpre & Hd).
  exists (rev pre). repeat split.
  - rewrite <- rev_app_distr, <- Ht, rev_involutive. reflexivity.
  - rewrite list_elem_of_In, <- in_rev, <- list_elem_of_In. exact Hpre.
  - destruct Hd as [-> | [r ->]]; [left; reflexivity | right].
    cbn [rev]. apply last_snoc.
Qed.

Lemma dropNonSlash_app (pre t : jsstring) :
  SLASH ∉ pre -> (t = [] \/ exists r, t = SLASH :: r) ->
  dropNonSlash (pre ++ t) = t.
Proof.
  intros Hpre Ht; induction pre as [|c pre IH]; cbn [app].
  - destruct Ht as [-> | [r ->]]; [reflexivity|].
    cbn [dropNonSlash]. rewrite N.eqb_refl. reflexivity.
  - apply not_elem_of_cons in Hpre as [Hc Hpre]. cbn [dropNonSlash].
    destruct (N.eqb_spec c SLASH); [congruence | auto].
Qed.

Lemma stripLastSegment_app (dir name : jsstring) :
  dir = [] \/ last dir = Some SLASH -> SLASH ∉ name ->
  stripLastSegment (dir ++ name) = dir.
Proof.
  intros Hdir Hname. unfold stripLastSegment.
  rewrite rev_app_distr, dropNonSlash_app, rev_involutive; [reflexivity| |].
  - rewrite list_elem_of_In, <- in_rev, <- list_elem_of_In. exact Hname.
  - destruct Hdir as [-> | Hl]; [left; reflexivity | right].
    apply last_Some in Hl as [d ->]. rewrite rev_app_distr. cbn. eauto.
Qed.

Lemma normalize_last_slash (s : jsstring) :
  last s = Some SLASH -> last (normalize s) = Some SLASH.
Proof.
  intros H. apply last_Some in H as [d ->].
  unfold normalize. rewrite map_app. cbn [map]. apply last_snoc.
Qed.

(** The content root is the normalized directory of the declared
    [full-path]: it is empty or ends with a slash and holds no back-slash;
    it is empty when the descriptor does not parse; when the [rootfile]
    element, or the first of several, carries a [full-path] attribute
    (among any others), the root is the directory of that path, empty
    when the path holds no slash; and the handler works with the empty
    root when the archive has no container descriptor. *)
Theorem contentRoot_is_a_directory (rt : Runtime) (xml : jsstring)
    (files : fileMap) :
  let root := getContentRootFromContainerXml rt xml in
  (root = [] \/ last root = Some SLASH)
  /\ (BACKSLASH ∉ root)
  /\ (xmlParse rt xml = None -> root = [])
  /\ (forall doc rf s,
        xmlParse rt xml = Some doc ->
        let rootfile :=
          xget (xget (xget doc (js "container")) (js "rootfiles"))
               (js "rootfile") in
        rootfile = rf \/ (exists rest, rootfile = XArr (rf :: rest)) ->
        xget rf (js "@_full-path") = XStr s ->
        root = normalize (stripLastSegment s)
        /\ (SLASH ∉ s -> root = []))
  /\ (map_get files (js "META-INF/container.xml") = None ->
      contentRootOf rt files = Some []).
Proof.
  intros root; subst root.
  assert (Hshape : forall s,
            (normalize (stripLastSegment s) = []
             \/ last (normalize (stripLastSegment s)) = Some SLASH)).
  { intros s. destruct (stripLastSegment_spec s) as (name & _ & _ & [-> | H]).
    - left; reflexivity.
    - right. apply normalize_last_slash, H. }
  assert (Hcases : getContentRootFromContainerXml rt xml = []
                   \/ exists s, getContentRootFromContainerXml rt xml
                                = normalize (stripLastSegment s)).
  { unfold getContentRootFromContainerXml.
    destruct (xmlParse rt xml) as [doc|]; [|auto].
    set (fp := match xget _ (js "rootfile") with
               | XArr items => _ | _ => _ end).
    destruct (xtruthy fp); cbn [negb]; [|auto].
    destruct fp; eauto. }
  split; [|split; [|split; [|split]]].
  - destruct Hcases as [-> | [s ->]]; [auto | apply Hshape].
  - destruct Hcases as [-> | [s ->]];
      [apply not_elem_of_nil | apply normalize_no_backslash].
  - unfold getContentRootFromContainerXml. intros ->. reflexivity.
  - intros doc rf s Hdoc rootfile Hrf Hfp.
    unfold getContentRootFromContainerXml. rewrite Hdoc. fold rootfile.
    clearbody rootfile.
    assert (Hs : SLASH ∉ s -> stripLastSegment s = []).
    { intros H. rewrite <- (app_nil_l s) at 1.
      apply stripLastSegment_app; auto. }
    assert (E : xorEmpty (XStr s) = if is_empty s then XStr [] else XStr s)
      by (destruct s; reflexivity).
    destruct Hrf as [-> | [rest ->]];
      [destruct rf; try discriminate Hfp|];
      cbn [head default from_option id]; rewrite Hfp, E; clear E;
      (destruct s as [|c s];
       [split; [reflexivity | intros _; reflexivity]|]);
      (split; [reflexivity|]); intros H;
      change (normalize (stripLastSegment (c :: s)) = []);
      rewrite Hs by exact H; reflexivity.
  - unfold contentRootOf. intros ->. reflexivity.
Qed.

Lemma contentRoot_is_a_directory_witness :
  getContentRootFromContainerXml SampleRuns.rtD (js "container descriptor")
  = normalize (stripLastSegment (js "OEBPS/content.opf")).
Proof.
  destruct (contentRoot_is_a_directory SampleRuns.rtD
              (js "container descriptor") []) as (_ & _ & _ & H & _).
  apply (H SampleRuns.containerTree
           (XObj [(js "@_full-path", XStr (js "OEBPS/content.opf"));
                  (js "@_media-type",
                   XStr (js "application/oebps-package+xml"))])
           (js "OEBPS/content.opf"));
    [reflexivity | left; reflexivity | reflexivity].
Defined.

(** ** The manifest images *)

Lemma manifestItem_spec (hrefs hrefs' : gset jsstring) (it : xval) :
  manifestItem hrefs it = Some hrefs' ->
  hrefs' = match imageHrefOf it with
           | Some h => {[ normalize h ]} ∪ hrefs
           | None => hrefs
           end.
Proof.
  unfold manifestItem, imageHrefOf, xorEmpty.
  destruct (xget it (js "@_media-type")) as [|[|c mt]|[|]|l|o];
    destruct (xget it (js "@_href")) as [|[|d h]|[|]|l'|o'];
    cbn [xtruthy is_empty negb andb];
    try discriminate;
    try (intros [= <-]; reflexivity);
    destruct (startsWith (c :: mt) (js "image/")); cbn [andb];
    try discriminate; intros [= <-]; reflexivity.
Qed.

Lemma manifestItem_wellTyped (hrefs : gset jsstring) (it : xval) :
  itemWellTyped it -> is_Some (manifestItem hrefs it).
Proof.
  unfold itemWellTyped, manifestItem, xorEmpty. intros [Hmt Hh].
  destruct (xget it (js "@_media-type")) as [|[|c mt]|[|]|l|o];
    try destruct Hmt;
    destruct (xget it (js "@_href")) as [|[|d h]|[|]|l'|o'];
    try destruct Hh;
    cbn [xtruthy is_empty negb andb]; eauto;
    destruct (startsWith _ (js "image/")); cbn [andb]; eauto.
Qed.

Lemma foldM_manifest_spec (items : list xval) :
  forall hrefs hrefs' : gset jsstring,
    foldM manifestItem items hrefs = Some hrefs' ->
    forall x, x ∈ hrefs' <->
              x ∈ hrefs
              \/ exists it h, In it items /\ imageHrefOf it = Some h
                              /\ x = normalize h.
Proof.
  induction items as [|it items IH]; intros hrefs hrefs' H x; cbn [foldM] in H.
  - injection H as <-. split; [auto|]. intros [H | (? & ? & [] & _)]; exact H.
  - destruct (manifestItem hrefs it) as [h1|] eqn:H1; [|discriminate].
    apply manifestItem_spec in H1. rewrite (IH _ _ H x). subst h1.
    split.
    + intros [Hx | (it' & h & Hin & Hh & ->)].
      * destruct (imageHrefOf it) as [h|] eqn:Hit; [|auto].
        apply elem_of_union in Hx as [Hx | Hx]; [|auto].
        apply elem_of_singleton in Hx as ->.
        right; exists it, h; cbn; auto.
      * right; exists it', h; cbn; auto.
    + intros [Hx | (it' & h & [<- | Hin] & Hh & ->)].
      * left. destruct (imageHrefOf it);
          [apply elem_of_union; right; exact Hx | exact Hx].
      * left. rewrite Hh. apply elem_of_union; left.
        apply elem_of_singleton; reflexivity.
      * right; exists it', h; auto.
Qed.

Lemma foldM_manifest_total (items : list xval) :
  Forall itemWellTyped items ->
  forall hrefs : gset jsstring, is_Some (foldM manifestItem items hrefs).
Proof.
  induction 1 as [|it items Hit _ IH]; intros hrefs; cbn [foldM]; [eauto|].
  destruct (manifestItem_wellTyped hrefs it Hit) as [h1 ->]. apply IH.
Qed.

(** The manifest images are normalized [href]s of items that declare an
    image, never anything else; when the attributes of all items are
    strings they are exactly these; and a package document that does not
    parse declares none. *)
Theorem manifest_images_are_the_declared_images (rt : Runtime)
    (xml : jsstring) :
  (xmlParse rt xml = None -> getManifestImagesFromOpf rt xml = ∅)
  /\ forall doc, xmlParse rt xml = Some doc ->
       (forall x, x ∈ getManifestImagesFromOpf rt xml ->
          exists it h, In it (manifestItemsOf doc)
                       /\ imageHrefOf it = Some h /\ x = normalize h)
       /\ (Forall itemWellTyped (manifestItemsOf doc) ->
           forall it h, In it (manifestItemsOf doc) ->
                        imageHrefOf it = Some h ->
                        normalize h ∈ getManifestImagesFromOpf rt xml).
Proof.
  unfold getManifestImagesFromOpf. split; [intros ->; reflexivity|].
  intros doc ->. fold (manifestItemsOf doc).
  destruct (foldM manifestItem (manifestItemsOf doc) ∅) as [hrefs|] eqn:Hf;
    cbn [default].
  - pose proof (foldM_manifest_spec _ _ _ Hf) as Hspec. split.
    + intros x Hx. apply Hspec in Hx as [Hx | Hx]; [set_solver | exact Hx].
    + intros _ it h Hin Hh. apply Hspec. right; eauto.
  - split; [set_solver|].
    intros Hwt. destruct (foldM_manifest_total _ Hwt ∅) as [? H].
    congruence.
Qed.

Lemma manifest_images_are_the_declared_images_witness :
  normalize (js "images/a.png")
  ∈ getManifestImagesFromOpf SampleRuns.rtD (js "package document").
Proof.
  destruct (manifest_images_are_the_declared_images SampleRuns.rtD
              (js "package document")) as [_ H].
  destruct (H SampleRuns.packageTree eq_refl) as [_ Hc].
  apply (Hc ltac:(repeat constructor)
            (XObj [(js "@_href", XStr (js "images/a.png"));
                   (js "@_media-type", XStr (js "image/png"))])).
  - left; reflexivity.
  - reflexivity.
Defined.

(** ** The archive file map *)

Lemma map_get_set (k k' : jsstring) (v : file) (m : fileMap) :
  map_get (map_set k v m) k'
  = if jsstring_eqb k' k then Some v else map_get m k'.
Proof.
  unfold map_get, jsstring_eqb.
  induction m as [|[k0 v0] m IH]; cbn [map_set assoc].
  - unfold jsstring_eqb. case_bool_decide; reflexivity.
  - unfold jsstring_eqb in *.
    destruct (bool_decide (k = k0)) eqn:Hk; cbn [assoc]; unfold jsstring_eqb.
    + apply bool_decide_eq_true in Hk as <-.
      case_bool_decide; reflexivity.
    + apply bool_decide_eq_false in Hk.
      rewrite IH. repeat case_bool_decide; congruence.
Qed.

Lemma map_keys_set (k : jsstring) (v : file) (m : fileMap) :
  map_keys (map_set k v m)
  = if bool_decide (k ∈ map_keys m) then map_keys m else map_keys m ++ [k].
Proof.
  unfold map_keys, jsstring_eqb.
  induction m as [|[k0 v0] m IH]; cbn [map_set map fst].
  - rewrite bool_decide_eq_false_2 by apply not_elem_of_nil. reflexivity.
  - unfold jsstring_eqb.
    destruct (decide (k = k0)) as [<-|Hne].
    + rewrite bool_decide_eq_true_2 by reflexivity. cbn [map fst].
      rewrite bool_decide_eq_true_2 by apply list_elem_of_here. reflexivity.
    + rewrite (bool_decide_eq_false_2 (k = k0)) by exact Hne.
      cbn [map fst]. rewrite IH.
      destruct (decide (k ∈ map fst m)) as [Hin|Hin].
      * rewrite !bool_decide_eq_true_2;
          [reflexivity | apply list_elem_of_further; exact Hin | exact Hin].
      * rewrite !bool_decide_eq_false_2;
          [reflexivity | | exact Hin].
        intros H. apply elem_of_cons in H as [H|H]; auto.
Qed.

Lemma map_set_NoDup (k : jsstring) (v : file) (m : fileMap) :
  NoDup (map_keys m) -> NoDup (map_keys (map_set k v m)).
Proof.
  intros H. rewrite map_keys_set. case_bool_decide as Hin; [exact H|].
  apply NoDup_app. repeat split.
  - exact H.
  - intros x Hx Hx'. apply list_elem_of_singleton in Hx' as ->. auto.
  - apply NoDup_singleton.
Qed.

Lemma unzipToMap_unfold (rt : Runtime) (buf : bytes) :
  unzipToMap rt buf
  = (directory ← openZip rt buf; foldM unzipStep directory []).
Proof. reflexivity. Qed.

Lemma lastMember_app (k : jsstring) (d1 d2 : list zentry) :
  lastMember k (d1 ++ d2)
  = match lastMember k d2 with
    | Some e => Some e
    | None => lastMember k d1
    end.
Proof.
  induction d1 as [|e d1 IH]; cbn [app lastMember].
  - destruct (lastMember k d2); reflexivity.
  - rewrite IH. destruct (lastMember k d2); reflexivity.
Qed.

Lemma lastMember_Some (k : jsstring) (directory : list zentry) (e : zentry) :
  lastMember k directory = Some e ->
  In e directory /\ ztype e = js "File" /\ normalize (zpath e) = k.
Proof.
  induction directory as [|e0 d IH]; cbn [lastMember]; [discriminate|].
  destruct (lastMember k d) as [e'|].
  - intros [= <-]. destruct (IH eq_refl) as (? & ? & ?). cbn; auto.
  - unfold jsstring_eqb.
    destruct (bool_decide (ztype e0 = js "File")) eqn:H1; [|discriminate].
    destruct (bool_decide (normalize (zpath e0) = k)) eqn:H2; [|discriminate].
    apply bool_decide_eq_true in H1, H2.
    intros [= <-]. cbn; auto.
Qed.

(** The loop of [unzipToMap] keeps the keys distinct and stores under each
    key the last regular member with that path. *)
Lemma unzip_loop_spec (directory : list zentry) :
  forall files files' : fileMap,
    foldM unzipStep directory files = Some files' ->
    NoDup (map_keys files) ->
    NoDup (map_keys files')
    /\ (forall k, map_get files' k
                  = match lastMember k directory with
                    | Some e =>
                        b ← zbuffer e; Some {| path := k; buffer := b |}
                    | None => map_get files k
                    end)
    /\ (forall e, In e directory -> ztype e = js "File" ->
                  is_Some (zbuffer e)).
Proof.
  induction directory as [|e d IH] using rev_ind; intros files files' H Hnd.
  - injection H as <-. repeat split; [exact Hnd | intros ? []].
  - assert (Hsplit : exists mid, foldM unzipStep d files = Some mid
                                 /\ unzipStep mid e = Some files').
    { clear IH Hnd. revert files H.
      induction d as [|e0 d IHd]; intros files H; cbn [app foldM] in *.
      - destruct (unzipStep files e) as [m|] eqn:He; [|discriminate].
        injection H as <-. eauto.
      - destruct (unzipStep files e0) as [m|]; [|discriminate]. eauto. }
    destruct Hsplit as (mid & Hd & He).
    destruct (IH _ _ Hd Hnd) as (Hnd' & Hget & Hbuf).
    unfold unzipStep, jsstring_eqb in He.
    destruct (bool_decide (ztype e = js "File")) eqn:Hty; cbn [negb] in He.
    + apply bool_decide_eq_true in Hty.
      destruct (zbuffer e) as [b|] eqn:Hb; [|discriminate].
      rewrite bind_Some in He. injection He as <-.
      repeat split.
      * apply map_set_NoDup, Hnd'.
      * intros k. rewrite map_get_set, lastMember_app. cbn [lastMember].
        unfold jsstring_eqb.
        rewrite (bool_decide_eq_true_2 (ztype e = js "File") Hty).
        cbn [andb].
        destruct (decide (k = normalize (zpath e))) as [->|Hne].
        -- rewrite !bool_decide_eq_true_2 by reflexivity.
           rewrite Hb. reflexivity.
        -- rewrite (bool_decide_eq_false_2 (k = normalize (zpath e)) Hne).
           rewrite (bool_decide_eq_false_2 (normalize (zpath e) = k))
             by congruence.
           apply Hget.
      * intros e' Hin Hf. apply in_app_or in Hin as [Hin | [<- | []]];
          [apply Hbuf; assumption | rewrite Hb; eauto].
    + apply bool_decide_eq_false in Hty. injection He as <-.
      repeat split.
      * exact Hnd'.
      * intros k. rewrite lastMember_app. cbn [lastMember].
        unfold jsstring_eqb.
        rewrite (bool_decide_eq_false_2 (ztype e = js "File") Hty).
        cbn [andb]. apply Hget.
      * intros e' Hin Hf. apply in_app_or in Hin as [Hin | [<- | []]];
          [apply Hbuf; assumption | contradiction].
Qed.

Lemma map_get_In (files : fileMap) (k : jsstring) (f : file) :
  NoDup (map_keys files) -> (In (k, f) files <-> map_get files k = Some f).
Proof.
  unfold map_get, map_keys, jsstring_eqb.
  induction files as [|[k0 f0] m IH]; cbn [map fst assoc]; intros Hnd.
  - split; [intros [] | discriminate].
  - apply NoDup_cons in Hnd as [Hk0 Hnd]. unfold jsstring_eqb.
    case_bool_decide as Hk.
    + subst k0. split.
      * intros [[= <-] | Hin]; [reflexivity|].
        exfalso. apply Hk0. apply list_elem_of_In, in_map_iff.
        exists (k, f); auto.
      * intros [= <-]. left; reflexivity.
    + rewrite <- (IH Hnd). split.
      * intros [[= <- <-] | Hin]; [congruence | exact Hin].
      * intros Hin; right; exact Hin.
Qed.

(** The file map of an archive that opens: its keys are distinct and hold
    no back-slash; a key is present exactly when the directory has a
    regular member with that normalized path, and it holds the content of
    the last such member under a [path] field equal to the key; directory
    entries that are no regular files are left out; and the map exists
    exactly when every regular member can be extracted. *)
Theorem unzipToMap_is_the_archive (rt : Runtime) (buf : bytes)
    (directory : list zentry) :
  openZip rt buf = Some directory ->
  (is_Some (unzipToMap rt buf) <->
   forall e, In e directory -> ztype e = js "File" -> is_Some (zbuffer e))
  /\ forall files, unzipToMap rt buf = Some files ->
       NoDup (map_keys files)
       /\ (forall k f, In (k, f) files <->
             exists e b, lastMember k directory = Some e
                         /\ zbuffer e = Some b
                         /\ f = {| path := k; buffer := b |})
       /\ (forall k f, In (k, f) files ->
             path f = k /\ (BACKSLASH ∉ k)
             /\ exists e, In e directory /\ ztype e = js "File"
                          /\ normalize (zpath e) = k).
Proof.
  intros Hopen. rewrite unzipToMap_unfold, Hopen, bind_Some.
  assert (Hspec : forall files, foldM unzipStep directory [] = Some files ->
            NoDup (map_keys files)
            /\ (forall k f, In (k, f) files <->
                  exists e b, lastMember k directory = Some e
                              /\ zbuffer e = Some b
                              /\ f = {| path := k; buffer := b |})).
  { intros files Hf.
    destruct (unzip_loop_spec directory [] files Hf (NoDup_nil_2 (A:=jsstring)))
      as (Hnd & Hget & _).
    split; [exact Hnd|]. intros k f.
    rewrite (map_get_In files k f Hnd), Hget.
    destruct (lastMember k directory) as [e|].
    - destruct (zbuffer e) as [b|] eqn:Hb; cbn.
      + split; [intros [= <-]; eauto|].
        intros (e' & b' & He & Hb' & ->). injection He as <-.
        rewrite Hb in Hb'. injection Hb' as <-. reflexivity.
      + split; [discriminate|].
        intros (e' & b' & He & Hb' & _). injection He as <-. congruence.
    - split; [discriminate | intros (e' & b' & ? & _); discriminate]. }
  split.
  - split.
    + intros [files Hf].
      apply (unzip_loop_spec directory [] files Hf (NoDup_nil_2 (A:=jsstring))).
    + intros Hall. clear Hspec Hopen.
      generalize (@nil (jsstring * file)).
      induction directory as [|e d IH]; intros files; cbn [foldM]; [eauto|].
      unfold unzipStep at 1.
      destruct (negb (jsstring_eqb (ztype e) (js "File"))) eqn:Hty.
      * apply IH. intros e' Hin. apply Hall. right; exact Hin.
      * apply negb_false_iff, bool_decide_eq_true in Hty.
        destruct (Hall e (or_introl eq_refl) Hty) as [b ->].
        rewrite bind_Some. apply IH. intros e' Hin. apply Hall.
        right; exact Hin.
  - intros files Hf. destruct (Hspec files Hf) as [Hnd Hin].
    split; [exact Hnd|]. split; [exact Hin|].
    intros k f Hkf. apply Hin in Hkf as (e & b & Hl & Hb & ->).
    apply lastMember_Some in Hl as (He & Hty & <-).
    split; [reflexivity|]. split; [apply normalize_no_backslash | eauto].
Qed.

Lemma unzipToMap_is_the_archive_witness :
  is_Some (unzipToMap Sample.rtA [])
  <-> forall e, In e Sample.archiveA -> ztype e = js "File" ->
                is_Some (zbuffer e).
Proof.
  apply (unzipToMap_is_the_archive Sample.rtA [] Sample.archiveA).
  reflexivity.
Defined.

(** ** The candidates *)

Lemma filter_sublist_mono {A} (P Q : A -> Prop)
    `{forall x, Decision (P x)} `{forall x, Decision (Q x)} (l : list A) :
  (forall x, P x -> Q x) -> filter P l `sublist_of` filter Q l.
Proof.
  intros HPQ. induction l as [|x l IH]; [constructor|].
  rewrite !filter_cons.
  destruct (decide (P x)) as [HP|HP].
  - destruct (decide (Q x)) as [HQ|HQ]; [|destruct (HQ (HPQ _ HP))].
    apply sublist_skip, IH.
  - destruct (decide (Q x)); [apply sublist_cons, IH | exact IH].
Qed.

Lemma lower_char_slash (c : N) : (lower_char c =? SLASH) = (c =? SLASH).
Proof.
  unfold lower_char, is_upper, SLASH.
  destruct (N.leb_spec 65 c); cbn [andb]; [|reflexivity].
  destruct (N.leb_spec c 90); [|reflexivity].
  destruct (N.eqb_spec (c + 32) 47), (N.eqb_spec c 47); try reflexivity; lia.
Qed.

Lemma split_toLowerCase (p : jsstring) :
  split SLASH (toLowerCase p) = map toLowerCase (split SLASH p).
Proof.
  induction p as [|c p IH]; [reflexivity|].
  cbn [toLowerCase map split]. fold (toLowerCase p).
  rewrite lower_char_slash, IH.
  destruct (c =? SLASH); [reflexivity|].
  destruct (split SLASH p); reflexivity.
Qed.

(** The extension that makes a path an image file. *)
Lemma isImageFile_extension (p : jsstring) :
  isImageFile p = true ->
  exists stem ext,
    p = stem ++ DOT :: ext
    /\ In (toLowerCase ext) [js "png"; js "jpg"; js "jpeg"; js "gif"].
Proof.
  unfold isImageFile; rewrite existsb_exists.
  intros (e & He & Hends).
  unfold endsWith in Hends; apply startsWith_spec in Hends as [r Hr].
  apply (f_equal (@rev N)) in Hr.
  rewrite rev_involutive, rev_app_distr, rev_involutive in Hr.
  apply toLowerCase_app_inv in Hr as (p1 & p2 & -> & _ & Hp2).
  assert (Hdot : exists ext, e = DOT :: ext
                 /\ In ext [js "png"; js "jpg"; js "jpeg"; js "gif"]).
  { cbn in He.
    destruct He as [<- | [<- | [<- | [<- | []]]]]; eexists; split;
      try reflexivity; cbn; auto. }
  destruct Hdot as (ext & -> & Hext).
  destruct p2 as [|c r2]; [discriminate|].
  cbn [toLowerCase map] in Hp2; injection Hp2 as Hc Hr2.
  apply lower_char_dot in Hc as ->.
  exists p1, r2. split; [reflexivity|].
  change (toLowerCase r2 = ext) in Hr2. rewrite Hr2. exact Hext.
Qed.

(** The candidates are archive members in archive order, each at most
    once; every one of them ends with a dot and one of the four image
    extensions in either case, and, unless [searchAllImages] is set, has a
    directory segment that reads [images] in either case;
    [searchAllImages] only adds candidates. *)
Theorem candidates_are_images (files : fileMap) (options : Options) :
  let candidates := listCandidateImages files options in
  candidates `sublist_of` map_keys files
  /\ candidates `sublist_of` listCandidateImages files (withSearchAll options)
  /\ (NoDup (map_keys files) -> NoDup candidates)
  /\ forall p, p ∈ candidates ->
       (exists stem ext,
          p = stem ++ DOT :: ext
          /\ In (toLowerCase ext) [js "png"; js "jpg"; js "jpeg"; js "gif"])
       /\ (searchAllImages options = false ->
           exists seg, In seg (split SLASH p)
                       /\ toLowerCase seg = js "images").
Proof.
  intros candidates; subst candidates. unfold listCandidateImages.
  split; [apply sublist_filter|]. split; [|split].
  - apply filter_sublist_mono. intros p Hp.
    apply andb_prop_elim in Hp as [Hi _]. apply andb_prop_intro; split;
      [exact Hi | exact I].
  - intros Hnd. eapply sublist_NoDup; [exact Hnd | apply sublist_filter].
  - intros p Hp. apply list_elem_of_filter in Hp as [Hp _].
    apply andb_prop_elim in Hp as [Hi Hf]. split.
    + apply isImageFile_extension, Is_true_true, Hi.
    + intros Hs. rewrite Hs in Hf. cbn [orb] in Hf.
      unfold inImagesFolder in Hf. apply bool_decide_unpack in Hf.
      rewrite split_toLowerCase in Hf.
      apply list_elem_of_In, in_map_iff in Hf as (seg & Hseg & Hin).
      exists seg; auto.
Qed.

(** ** The entries of a report *)

Lemma takeNonSlash_dropNonSlash (t : jsstring) :
  Posix.takeNonSlash t ++ dropNonSlash t = t.
Proof.
  induction t as [|c t IH]; [reflexivity|].
  cbn [Posix.takeNonSlash dropNonSlash].
  destruct (c =? SLASH); [reflexivity|]. cbn [app]. congruence.
Qed.

Lemma takeNonSlash_free (t : jsstring) : SLASH ∉ Posix.takeNonSlash t.
Proof.
  induction t as [|c t IH]; cbn [Posix.takeNonSlash]; [apply not_elem_of_nil|].
  destruct (N.eqb_spec c SLASH); [apply not_elem_of_nil|].
  apply not_elem_of_cons; auto.
Qed.

(** The [file] field of an entry is the last segment of its path. *)
Lemma basename_is_last_segment (p : jsstring) :
  (SLASH ∉ Posix.basename p)
  /\ (last p <> Some SLASH -> p = stripLastSegment p ++ Posix.basename p).
Proof.
  unfold Posix.basename, stripLastSegment. split.
  - rewrite list_elem_of_In, <- in_rev, <- list_elem_of_In.
    apply takeNonSlash_free.
  - intros Hl.
    assert (Hd : Posix.dropSlashes (rev p) = rev p).
    { destruct p as [|c p] using rev_ind; [reflexivity|].
      rewrite rev_app_distr. cbn [rev app Posix.dropSlashes].
      rewrite last_snoc in Hl.
      destruct (N.eqb_spec c SLASH); [congruence | reflexivity]. }
    rewrite Hd, <- rev_app_distr, takeNonSlash_dropNonSlash, rev_involutive.
    reflexivity.
Qed.

Lemma isImageFile_last (p : jsstring) :
  isImageFile p = true -> last p <> Some SLASH.
Proof.
  intros H Hl. apply isImageFile_extension in H as (stem & ext & -> & Hext).
  destruct ext as [|c ext] using rev_ind.
  - cbn in Hext. intuition discriminate.
  - change (stem ++ DOT :: ext ++ [c])
      with (stem ++ (DOT :: ext) ++ [c]) in Hl.
    rewrite app_assoc, last_snoc in Hl.
    injection Hl as ->.
    unfold toLowerCase in Hext. rewrite map_app in Hext. cbn [map] in Hext.
    assert (Hc : last (map lower_char ext ++ [lower_char SLASH])
                 = Some SLASH) by apply last_snoc.
    destruct Hext as [H | [H | [H | [H | []]]]]; rewrite <- H in Hc;
      vm_compute in Hc; discriminate.
Qed.

Lemma omap_paths_filter rt files options ebp (l : list jsstring) :
  map o_internalPath (omap (oversizedEntryOf rt files options ebp) l)
  = filter (fun p => is_Some (oversizedEntryOf rt files options ebp p)) l.
Proof.
  induction l as [|p l IH]; [reflexivity|].
  cbn [omap list_omap]. rewrite filter_cons.
  destruct (oversizedEntryOf rt files options ebp p) as [e|] eqn:He.
  - destruct (decide (is_Some (Some e))) as [_|Hn]; [|destruct Hn; eauto].
    cbn [map]. rewrite (oversizedEntryOf_path _ _ _ _ _ _ He).
    f_equal. exact IH.
  - destruct (decide (is_Some (@None oversizedEntry))) as [[? H]|_];
      [discriminate | exact IH].
Qed.

Lemma unzipToMap_NoDup (rt : Runtime) (buf : bytes) (files : fileMap) :
  unzipToMap rt buf = Some files -> NoDup (map_keys files).
Proof.
  intros H. rewrite unzipToMap_unfold in H.
  destruct (openZip rt buf) as [directory|]; [|discriminate].
  rewrite bind_Some in H.
  apply (unzip_loop_spec directory [] files H (NoDup_nil_2 (A:=jsstring))).
Qed.

Lemma key_map_get (files : fileMap) (p : jsstring) :
  p ∈ map_keys files -> is_Some (map_get files p).
Proof.
  unfold map_keys, map_get.
  induction files as [|[k f] m IH]; cbn [map fst assoc]; intros H.
  - apply elem_of_nil in H as [].
  - unfold jsstring_eqb. case_bool_decide as Hk; [eauto|].
    apply elem_of_cons in H as [H|H]; [congruence | auto].
Qed.

(** What a report lists: both lists name members of the archive, in
    archive order and each at most once; every listed path is a key of the
    file map with an image extension, and a manifest image when the
    manifest restriction is on. *)
Theorem reported_paths_are_archive_images
    rt req files manifestAbs usedAbs ebp rep :
  stages rt req files manifestAbs usedAbs ebp ->
  validate rt req = Json rep ->
  let ups := map u_internalPath (unreferenced rep) in
  let ops := map o_internalPath (oversized rep) in
  ups `sublist_of` map_keys files
  /\ ops `sublist_of` map_keys files
  /\ NoDup ups /\ NoDup ops
  /\ forall p, p ∈ ups \/ p ∈ ops ->
       is_Some (map_get files p)
       /\ isImageFile p = true
       /\ (followOpfManifestOnly (optionsOf rt (req_query req)) = true ->
           p ∈ manifestAbs).
Proof.
  intros Hst Hv ups ops; subst ups ops.
  rewrite (validate_report _ _ _ _ _ _ _ Hst Hv).
  destruct Hst as ((buf & _ & Hzip) & _).
  apply unzipToMap_NoDup in Hzip.
  set (options := optionsOf rt (req_query req)).
  set (cands := candidatesAbsOf files options manifestAbs).
  assert (Hc : cands `sublist_of` map_keys files).
  { subst cands; unfold candidatesAbsOf.
    etransitivity; [apply sublist_filter|].
    unfold listCandidateImages. apply sublist_filter. }
  assert (Hu : map u_internalPath
                 (unreferenced
                    (reportOf rt req files manifestAbs usedAbs ebp))
               `sublist_of` cands).
  { cbn [reportOf unreferenced]. rewrite map_map.
    change (map (fun x => u_internalPath (unrefEntryOf ebp x)))
      with (map (fun x : jsstring => x)).
    rewrite map_id. apply sublist_filter. }
  assert (Ho : map o_internalPath
                 (oversized (reportOf rt req files manifestAbs usedAbs ebp))
               `sublist_of` cands).
  { cbn [reportOf oversized]. rewrite omap_paths_filter.
    apply sublist_filter. }
  assert (Hmem : forall p, p ∈ cands ->
            is_Some (map_get files p) /\ isImageFile p = true
            /\ (followOpfManifestOnly options = true -> p ∈ manifestAbs)).
  { intros p Hp. repeat split.
    - apply key_map_get. exact (sublist_subseteq _ _ Hc p Hp).
    - apply (candidatesAbsOf_isImageFile _ _ _ _ Hp).
    - intros Hf. subst cands; unfold candidatesAbsOf in Hp.
      apply list_elem_of_filter in Hp as [Hp _]. fold options in Hp.
      rewrite Hf in Hp. cbn [andb] in Hp.
      apply Is_true_true, negb_true_iff, negb_false_iff in Hp.
      apply bool_decide_eq_true in Hp. exact Hp. }
  repeat split.
  - etransitivity; eassumption.
  - etransitivity; eassumption.
  - eapply sublist_NoDup; [exact Hzip | etransitivity; eassumption].
  - eapply sublist_NoDup; [exact Hzip | etransitivity; eassumption].
  - destruct H as [H|H]; apply Hmem;
      (eapply sublist_subseteq; [|exact H]); assumption.
  - destruct H as [H|H]; apply Hmem;
      (eapply sublist_subseteq; [|exact H]); assumption.
  - destruct H as [H|H]; apply Hmem;
      (eapply sublist_subseteq; [|exact H]); assumption.
Qed.

Lemma reported_paths_are_archive_images_witness :
  NoDup (map u_internalPath
           (unreferenced
              (reportOf Sample.rtA (Sample.upload Sample.noQuery)
                        SampleRuns.filesA ∅ SampleRuns.usedA []))).
Proof.
  assert (Hst : stages Sample.rtA (Sample.upload Sample.noQuery)
                       SampleRuns.filesA ∅ SampleRuns.usedA [])
    by (apply stagesA; reflexivity).
  apply (reported_paths_are_archive_images
           Sample.rtA (Sample.upload Sample.noQuery)
           SampleRuns.filesA ∅ SampleRuns.usedA [] _
           Hst (validate_stages _ _ _ _ _ _ Hst)).
Defined.

(** The fields of the entries: the [file] field is the last segment of the
    path and holds no slash, the display path is the path itself without a
    prefix; an unreferenced entry is outside the used-set; an oversized
    entry carries the non-zero dimensions the prober gave for the member
    and their product as the runtime computes it, in double precision: it
    is the product of the integers when that is below 2^53, and it reaches
    the threshold. *)
Theorem report_entries_are_consistent
    rt req files manifestAbs usedAbs ebp rep :
  stages rt req files manifestAbs usedAbs ebp ->
  validate rt req = Json rep ->
  (forall e, e ∈ unreferenced rep ->
     let p := u_internalPath e in
     u_file e = Posix.basename p /\ (SLASH ∉ u_file e)
     /\ p = stripLastSegment p ++ u_file e
     /\ u_fullPath e = buildFullPath p ebp
     /\ (ebp = [] -> u_fullPath e = p)
     /\ (p ∉ usedAbs))
  /\ (forall e, e ∈ oversized rep ->
        let p := o_internalPath e in
        o_file e = Posix.basename p /\ (SLASH ∉ o_file e)
        /\ p = stripLastSegment p ++ o_file e
        /\ o_fullPath e = buildFullPath p ebp
        /\ (ebp = [] -> o_fullPath e = p)
        /\ probeOf rt files p = ProbeDims (Some (o_width e))
                                          (Some (o_height e))
        /\ o_width e <> 0%Z /\ o_height e <> 0%Z
        /\ o_px e = mulNum (o_width e) (o_height e)
        /\ ((Z.abs (o_width e * o_height e) < 2 ^ 53)%Z ->
            o_px e = Finite (inject_Z (o_width e * o_height e)))
        /\ geNum (o_px e) (pixelThreshold (optionsOf rt (req_query req)))
           = true).
Proof.
  intros Hst Hv. rewrite (validate_report _ _ _ _ _ _ _ Hst Hv).
  set (options := optionsOf rt (req_query req)).
  assert (Hseg : forall p,
            p ∈ candidatesAbsOf files options manifestAbs ->
            (SLASH ∉ Posix.basename p)
            /\ p = stripLastSegment p ++ Posix.basename p).
  { intros p Hp. destruct (basename_is_last_segment p) as [H1 H2].
    split; [exact H1|]. apply H2, isImageFile_last.
    apply (candidatesAbsOf_isImageFile _ _ _ _ Hp). }
  split.
  - intros e He p; subst p. cbn [reportOf unreferenced] in He.
    apply list_elem_of_fmap in He as (p & -> & Hp).
    apply list_elem_of_filter in Hp as [Hn Hc].
    destruct (Hseg p Hc) as [H1 H2]. cbn [unrefEntryOf u_file u_internalPath
                                          u_fullPath].
    repeat split; try assumption. intros ->. reflexivity.
  - intros e He p; subst p. cbn [reportOf oversized] in He.
    apply list_elem_of_omap in He as (p & Hc & He).
    destruct (Hseg p Hc) as [H1 H2].
    unfold oversizedEntryOf in He. fold options in He.
    destruct (IMG_EXT_REGEX_test p); [|discriminate].
    destruct (probeOf rt files p) as [| |[w|] [h|]] eqn:Hprobe;
      try discriminate.
    destruct (Z.eqb_spec w 0); cbn [negb andb] in He; [discriminate|].
    destruct (Z.eqb_spec h 0); cbn [negb andb] in He; [discriminate|].
    destruct (geNum (mulNum w h) (pixelThreshold options)) eqn:Hge;
      [|discriminate].
    injection He as <-. cbn [o_file o_internalPath o_fullPath o_width
                             o_height o_px].
    repeat split; try assumption.
    + intros ->. reflexivity.
    + apply mulNum_exact.
Qed.

Lemma report_entries_are_consistent_witness :
  Forall (fun e => o_px e = mulNum (o_width e) (o_height e))
         (oversized (reportOf Sample.rtA (Sample.upload Sample.noQuery)
                              SampleRuns.filesA ∅ SampleRuns.usedA []))
  /\ length (oversized (reportOf Sample.rtA (Sample.upload Sample.noQuery)
                                 SampleRuns.filesA ∅ SampleRuns.usedA []))
     = 1%nat.
Proof.
  assert (Hst : stages Sample.rtA (Sample.upload Sample.noQuery)
                       SampleRuns.filesA ∅ SampleRuns.usedA [])
    by (apply stagesA; reflexivity).
  split; [|vm_compute; reflexivity].
  apply Forall_forall. intros e He.
  apply (report_entries_are_consistent
           Sample.rtA (Sample.upload Sample.noQuery)
           SampleRuns.filesA ∅ SampleRuns.usedA [] _
           Hst (validate_stages _ _ _ _ _ _ Hst)).
  exact He.
Defined.

(** ** Requests that differ in one query value *)

Lemma collectReferences_ext rt files root (o1 o2 : Options) :
  includeHtml o1 = includeHtml o2 -> includeCss o1 = includeCss o2 ->
  includeSvg o1 = includeSvg o2 ->
  collectReferences rt files root o1 = collectReferences rt files root o2.
Proof.
  intros H1 H2 H3. unfold collectReferences. generalize (∅ : gset jsstring).
  induction files as [|[p obj] files IH]; intros used; cbn [foldM];
    [reflexivity|].
  assert (E : scanFile rt o1 root used (p, obj)
              = scanFile rt o2 root used (p, obj)).
  { unfold scanFile, scanMarkup, isDoc. rewrite H1, H2, H3. reflexivity. }
  rewrite E. destruct (scanFile rt o2 root used (p, obj)); auto.
Qed.

Lemma manifestAbsOf_ext rt files root (o1 o2 : Options) :
  followOpfManifestOnly o1 = followOpfManifestOnly o2 ->
  manifestAbsOf rt files o1 root = manifestAbsOf rt files o2 root.
Proof. intros H. unfold manifestAbsOf. rewrite H. reflexivity. Qed.

Lemma candidatesAbsOf_ext files manifestAbs (o1 o2 : Options) :
  searchAllImages o1 = searchAllImages o2 ->
  followOpfManifestOnly o1 = followOpfManifestOnly o2 ->
  candidatesAbsOf files o1 manifestAbs = candidatesAbsOf files o2 manifestAbs.
Proof.
  intros H1 H2. unfold candidatesAbsOf, listCandidateImages.
  rewrite H1, H2. reflexivity.
Qed.

Lemma omap_sublist {A B} (f g : A -> option B) (l : list A) :
  (forall x e, f x = Some e -> g x = Some e) ->
  omap f l `sublist_of` omap g l.
Proof.
  intros H. induction l as [|x l IH]; [constructor|].
  cbn [omap list_omap].
  destruct (f x) as [e|] eqn:Hf.
  - rewrite (H _ _ Hf). apply sublist_skip, IH.
  - destruct (g x); [apply sublist_cons, IH | exact IH].
Qed.

Lemma geNum_mono (a : jsnum) (t1 t2 : Q) :
  (t1 <= t2)%Q -> geNum a (Finite t2) = true -> geNum a (Finite t1) = true.
Proof.
  destruct a as [|na|x]; cbn [geNum]; [discriminate | auto |].
  rewrite !Qle_bool_iff. intros H1 H2.
  eapply Qle_trans; eassumption.
Qed.

(** Raising the pixel threshold leaves the unreferenced list as it is and
    only removes entries from the oversized list. *)
Theorem raising_the_threshold_only_removes
    rt (upload : option bytes) (q : Query) (v1 v2 : qvalue) (t1 t2 : Q)
    rep1 rep2 :
  thresholdOf rt v1 = Finite t1 -> thresholdOf rt v2 = Finite t2 ->
  (t1 <= t2)%Q ->
  validate rt {| req_file := upload; req_query := withThreshold q v1 |}
    = Json rep1 ->
  validate rt {| req_file := upload; req_query := withThreshold q v2 |}
    = Json rep2 ->
  unreferenced rep2 = unreferenced rep1
  /\ oversized rep2 `sublist_of` oversized rep1
  /\ r_contentRoot rep2 = r_contentRoot rep1.
Proof.
  intros Ht1 Ht2 Hle Hv1 Hv2.
  apply validate_Json in Hv1 as (files & man & used & ebp & Hst1 & ->).
  apply validate_Json in Hv2 as (files' & man' & used' & ebp' & Hst2 & ->).
  destruct Hst1 as ((buf & Hb & Hz) & He & _ & Hm & Hu).
  destruct Hst2 as ((buf' & Hb' & Hz') & He' & _ & Hm' & Hu').
  cbn [req_file req_query] in *.
  rewrite Hb in Hb'; injection Hb' as <-.
  rewrite Hz in Hz'; injection Hz' as <-.
  cbn [withThreshold q_epubBasePath] in He, He'.
  rewrite He in He'; injection He' as <-.
  set (o1 := optionsOf rt (withThreshold q v1)) in *.
  set (o2 := optionsOf rt (withThreshold q v2)) in *.
  rewrite (manifestAbsOf_ext rt files _ o1 o2 eq_refl) in Hm.
  rewrite Hm in Hm'; injection Hm' as <-.
  rewrite (collectReferences_ext rt files _ o1 o2 eq_refl eq_refl eq_refl)
    in Hu.
  rewrite Hu in Hu'; injection Hu' as <-.
  unfold reportOf; cbn [req_query unreferenced oversized r_contentRoot].
  fold o1 o2.
  rewrite (candidatesAbsOf_ext files man o1 o2 eq_refl eq_refl).
  split; [reflexivity|]. split; [|reflexivity].
  apply omap_sublist. intros p e. unfold oversizedEntryOf.
  destruct (IMG_EXT_REGEX_test p); [|discriminate].
  destruct (probeOf rt files p) as [| |[w|] [h|]]; try discriminate.
  destruct (negb (w =? 0)%Z && negb (h =? 0)%Z); cbn [andb]; [|discriminate].
  change (pixelThreshold o2) with (thresholdOf rt v2).
  change (pixelThreshold o1) with (thresholdOf rt v1).
  rewrite Ht1, Ht2.
  destruct (geNum (mulNum w h) (Finite t2)) eqn:Hge; [|discriminate].
  rewrite (geNum_mono _ _ _ Hle Hge). auto.
Qed.

Lemma raising_the_threshold_only_removes_witness :
  exists rep1 rep2,
    validate Sample.rtA
      {| req_file := Some [];
         req_query := withThreshold Sample.noQuery (QStr (js "100")) |}
      = Json rep1
    /\ validate Sample.rtA
         {| req_file := Some [];
            req_query := withThreshold Sample.noQuery (QStr (js "7000000")) |}
       = Json rep2
    /\ unreferenced rep2 = unreferenced rep1
    /\ oversized rep2 `sublist_of` oversized rep1
    /\ length (oversized rep1) = 2%nat /\ oversized rep2 = [].
Proof.
  assert (H1 : stages Sample.rtA
                 {| req_file := Some [];
                    req_query := withThreshold Sample.noQuery
                                   (QStr (js "100")) |}
                 SampleRuns.filesA ∅ SampleRuns.usedA [])
    by (apply (stagesA (withThreshold Sample.noQuery (QStr (js "100"))));
        reflexivity).
  assert (H2 : stages Sample.rtA
                 {| req_file := Some [];
                    req_query := withThreshold Sample.noQuery
                                   (QStr (js "7000000")) |}
                 SampleRuns.filesA ∅ SampleRuns.usedA [])
    by (apply (stagesA (withThreshold Sample.noQuery (QStr (js "7000000"))));
        reflexivity).
  eexists; eexists.
  split; [apply (validate_stages _ _ _ _ _ _ H1)|].
  split; [apply (validate_stages _ _ _ _ _ _ H2)|].
  destruct (raising_the_threshold_only_removes
              Sample.rtA (Some []) Sample.noQuery
              (QStr (js "100")) (QStr (js "7000000")) 100 7000000 _ _
              eq_refl eq_refl ltac:(discriminate)
              (validate_stages _ _ _ _ _ _ H1)
              (validate_stages _ _ _ _ _ _ H2)) as (Hu & Ho & _).
  split; [exact Hu|]. split; [exact Ho|].
  split; vm_compute; reflexivity.
Defined.

Lemma stripTrailingSlash_snoc (s : jsstring) (sep : N) :
  sep = SLASH \/ sep = BACKSLASH -> stripTrailingSlash (s ++ [sep]) = s.
Proof.
  intros Hsep. unfold stripTrailingSlash.
  rewrite rev_app_distr. cbn [rev app].
  destruct Hsep as [-> | ->]; cbn; apply rev_involutive.
Qed.

Lemma stripTrailingSlash_id (s : jsstring) :
  last s <> Some SLASH -> last s <> Some BACKSLASH ->
  stripTrailingSlash s = s.
Proof.
  intros H1 H2. unfold stripTrailingSlash.
  destruct s as [|c s] using rev_ind; [reflexivity|].
  rewrite last_snoc in H1, H2. rewrite rev_app_distr. cbn [rev app].
  destruct (N.eqb_spec c SLASH); [congruence|].
  destruct (N.eqb_spec c BACKSLASH); [congruence | reflexivity].
Qed.

Lemma validate_basePath rt (upload : option bytes) (q : Query)
    (v1 v2 : qvalue) :
  epubBasePathOf v1 = epubBasePathOf v2 ->
  validate rt {| req_file := upload; req_query := withBasePath q v1 |}
  = validate rt {| req_file := upload; req_query := withBasePath q v2 |}.
Proof.
  intros H. unfold validate. cbn [req_file req_query withBasePath
                                   q_epubBasePath].
  rewrite H. reflexivity.
Qed.

(** One slash or back-slash at the end of [epubBasePath] does not change
    the response, and a base path that is only a separator counts as
    none. *)
Theorem trailing_separator_of_base_path_is_ignored
    rt (upload : option bytes) (q : Query) (s : jsstring) (sep : N) :
  sep = SLASH \/ sep = BACKSLASH ->
  last s <> Some SLASH -> last s <> Some BACKSLASH ->
  validate rt {| req_file := upload;
                 req_query := withBasePath q (QStr (s ++ [sep])) |}
  = validate rt {| req_file := upload;
                   req_query := withBasePath q
                                  (if is_empty s then QUndef else QStr s) |}.
Proof.
  intros Hsep H1 H2. apply validate_basePath.
  cbn [epubBasePathOf].
  assert (is_empty (s ++ [sep]) = false) as -> by (destruct s; reflexivity).
  rewrite stripTrailingSlash_snoc by exact Hsep.
  destruct s as [|c s]; [reflexivity|].
  cbn [is_empty epubBasePathOf].
  rewrite stripTrailingSlash_id by assumption. reflexivity.
Qed.

Lemma trailing_separator_of_base_path_is_ignored_witness :
  validate Sample.rtA
    {| req_file := Some [];
       req_query := withBasePath Sample.noQuery (QStr (js "books/one/")) |}
  = validate Sample.rtA
      {| req_file := Some [];
         req_query := withBasePath Sample.noQuery (QStr (js "books/one")) |}.
Proof.
  apply (trailing_separator_of_base_path_is_ignored
           Sample.rtA (Some []) Sample.noQuery (js "books/one") SLASH);
    [left; reflexivity | discriminate | discriminate].
Defined.

(** ** The status of the response *)





(** ** [extractUrlsFromCss] *)

Lemma spanWhile_spec (f : N -> bool) (s a b : jsstring) :
  spanWhile f s = (a, b) ->
  s = a ++ b /\ forallb f a = true /\ (forall c r, b = c :: r -> f c = false).
Proof.
  revert a b; induction s as [|c s IH]; intros a b H; cbn [spanWhile] in H.
  - injection H as <- <-.
    split; [reflexivity|]. split; [reflexivity | discriminate].
  - destruct (f c) eqn:Hc.
    + destruct (spanWhile f s) as [a' b'] eqn:Hs.
      injection H as <- <-. destruct (IH _ _ eq_refl) as (-> & Ha & Hb).
      split; [reflexivity|].
      split; [cbn [forallb]; rewrite Hc; exact Ha | exact Hb].
    + injection H as <- <-.
      split; [reflexivity|]. split; [reflexivity|].
      intros c' r Heq. injection Heq as <- <-. exact Hc.
Qed.

Lemma spanWhile_app (f : N -> bool) (a b : jsstring) :
  forallb f a = true -> (forall c r, b = c :: r -> f c = false) ->
  spanWhile f (a ++ b) = (a, b).
Proof.
  intros Ha Hb. induction a as [|c a IH]; cbn [app].
  - destruct b as [|c r]; [reflexivity|]. cbn [spanWhile].
    rewrite (Hb c r eq_refl). reflexivity.
  - cbn [forallb] in Ha. apply andb_true_iff in Ha as [Hc Ha].
    cbn [spanWhile]. rewrite Hc, (IH Ha). reflexivity.
Qed.

Lemma is_space_isUrlArgChar (c : N) :
  is_space c = true -> isUrlArgChar c = true.
Proof.
  unfold isUrlArgChar, isQuote, RPAREN. intros H.
  destruct (N.eqb_spec c 41) as [->|]; [discriminate H|].
  destruct (N.eqb_spec c 34) as [->|]; [discriminate H|].
  destruct (N.eqb_spec c 39) as [->|]; [discriminate H|].
  reflexivity.
Qed.

Lemma trimStart_suffix (s : jsstring) : exists ws, s = ws ++ trimStart s.
Proof.
  induction s as [|c s [ws IH]]; [exists []; reflexivity|].
  cbn [trimStart]. destruct (is_space c).
  - exists (c :: ws). cbn [app]. congruence.
  - exists []. reflexivity.
Qed.

Ltac app_norm := repeat first [rewrite <- app_assoc | progress cbn [app]].

(** A match yields a non-empty run of argument units that stands in the
    text, in front of the rest. *)
Lemma matchUrlAt_spec (s m2 rest : jsstring) :
  matchUrlAt s = Some (m2, rest) ->
  m2 <> [] /\ forallb isUrlArgChar m2 = true
  /\ exists a b, s = a ++ m2 ++ b ++ rest.
Proof.
  unfold matchUrlAt.
  destruct s as [|u [|r [|l [|p t]]]]; try discriminate.
  destruct (_ && _ && _ && _); [|discriminate].
  destruct (spanWhile is_space t) as [ws t1] eqn:Hws.
  apply spanWhile_spec in Hws as (-> & Hws & _).
  destruct t1 as [|c body]; [discriminate|].
  destruct (isQuote c).
  - destruct (spanWhile isUrlArgChar body) as [g2 t2] eqn:Hg.
    apply spanWhile_spec in Hg as (-> & Hg & _).
    destruct g2 as [|g g2]; [discriminate|].
    destruct t2 as [|d t3]; [discriminate|].
    destruct (d =? c); [|discriminate].
    unfold closeParen. destruct (trimStart_suffix t3) as [sp Hsp].
    destruct (trimStart t3) as [|e r'] eqn:Ht; [discriminate|].
    cbn [mbind option_bind].
    destruct (e =? RPAREN); [|discriminate].
    intros [= <- <-]. split; [discriminate|]. split; [exact Hg|].
    exists ([u; r; l; p] ++ ws ++ [c]), (d :: sp ++ [e]).
    rewrite Hsp at 1. app_norm. reflexivity.
  - destruct (spanWhile isUrlArgChar (c :: body)) as [g2 t2] eqn:Hg.
    apply spanWhile_spec in Hg as (Heq & Hg & _).
    destruct t2 as [|d t3]; [discriminate|].
    destruct (d =? RPAREN); [|discriminate].
    destruct g2 as [|g g2].
    + destruct ws as [|w0 ws0] using rev_ind; [discriminate|].
      rewrite last_snoc. cbn [mbind option_bind]. intros [= <- <-].
      split; [discriminate|].
      rewrite forallb_app in Hws. apply andb_true_iff in Hws as [_ Hw].
      cbn [forallb] in Hw. rewrite andb_true_r in Hw.
      split; [cbn [forallb]; rewrite (is_space_isUrlArgChar _ Hw); reflexivity|].
      exists ([u; r; l; p] ++ ws0), [d].
      rewrite Heq. app_norm. reflexivity.
    + intros [= <- <-]. split; [discriminate|]. split; [exact Hg|].
      exists ([u; r; l; p] ++ ws), [d].
      rewrite Heq. app_norm. reflexivity.
Qed.

Lemma scanUrls_spec (fuel : nat) (s u : jsstring) :
  In u (scanUrls fuel s) ->
  u <> [] /\ forallb isUrlArgChar u = true
  /\ exists a b, s = a ++ u ++ b.
Proof.
  revert s; induction fuel as [|fuel IH]; intros s; cbn [scanUrls];
    [intros []|].
  destruct s as [|c s']; [intros []|].
  destruct (matchUrlAt (c :: s')) as [[m2 rest]|] eqn:Hm.
  - apply matchUrlAt_spec in Hm as (Hne & Hall & a & b & Hs).
    intros [<- | Hin].
    + split; [exact Hne|]. split; [exact Hall|].
      exists a, (b ++ rest). rewrite Hs. reflexivity.
    + destruct (IH _ Hin) as (Hu & Hua & a' & b' & ->).
      split; [exact Hu|]. split; [exact Hua|].
      exists (a ++ m2 ++ b ++ a'), b'. rewrite Hs.
      rewrite <- !app_assoc. reflexivity.
  - intros Hin. destruct (IH _ Hin) as (Hu & Hua & a' & b' & ->).
    split; [exact Hu|]. split; [exact Hua|].
    exists (c :: a'), b'. reflexivity.
Qed.

(** Each match takes at least the six units of the shortest call. *)
Lemma matchUrlAt_six (s m2 rest : jsstring) :
  matchUrlAt s = Some (m2, rest) -> (length rest + 6 <= length s)%nat.
Proof.
  intros H. pose proof H as Hl. apply matchUrlAt_spec in H as (Hne & _ & a & b & Hs).
  revert Hl. unfold matchUrlAt.
  destruct s as [|u [|r [|l [|p t]]]]; try discriminate.
  destruct (_ && _ && _ && _); [|discriminate].
  destruct (spanWhile is_space t) as [ws t1] eqn:Hws.
  apply spanWhile_spec in Hws as (-> & Hws & _).
  destruct t1 as [|c body]; [discriminate|].
  destruct (isQuote c).
  - destruct (spanWhile isUrlArgChar body) as [g2 t2] eqn:Hg.
    apply spanWhile_spec in Hg as (-> & Hg & _).
    destruct g2 as [|g g2]; [discriminate|].
    destruct t2 as [|d t3]; [discriminate|].
    destruct (d =? c); [|discriminate].
    intros Hc. destruct (closeParen t3) as [r'|] eqn:Hcp; [|discriminate].
    apply closeParen_length in Hcp. cbn [mbind option_bind] in Hc.
    injection Hc as _ <-.
    cbn [length]. rewrite !length_app. cbn [length]. rewrite !length_app.
    cbn [length]. lia.
  - destruct (spanWhile isUrlArgChar (c :: body)) as [g2 t2] eqn:Hg.
    apply spanWhile_spec in Hg as (Heq & Hg & _).
    destruct t2 as [|d t3]; [discriminate|].
    destruct (d =? RPAREN); [|discriminate].
    destruct g2 as [|g g2].
    + destruct ws as [|w0 ws0] using rev_ind; [discriminate|].
      rewrite last_snoc. cbn [mbind option_bind]. intros [= _ <-].
      rewrite Heq. cbn [length app]. rewrite !length_app. cbn [length]. lia.
    + intros [= _ <-].
      rewrite Heq. cbn [length app]. rewrite !length_app. cbn [length].
      rewrite !length_app. cbn [length]. lia.
Qed.

Lemma scanUrls_count (fuel : nat) (s : jsstring) :
  (6 * length (scanUrls fuel s) <= length s)%nat.
Proof.
  revert s; induction fuel as [|fuel IH]; intros s; cbn [scanUrls];
    [cbn; lia|].
  destruct s as [|c s']; [cbn; lia|].
  destruct (matchUrlAt (c :: s')) as [[m2 rest]|] eqn:Hm.
  - apply matchUrlAt_six in Hm. specialize (IH rest). cbn [length] in *. lia.
  - specialize (IH s'). cbn [length]. lia.
Qed.

(** What [extractUrlsFromCss] returns: each extracted argument is a
    non-empty piece of the text without a closing parenthesis or a quote,
    and a text of n units yields at most n/6 arguments. *)
Theorem extracted_urls_are_pieces_of_the_text (cssText : jsstring) :
  (forall u, In u (extractUrlsFromCss cssText) ->
     u <> []
     /\ Forall (fun c => c <> RPAREN /\ c <> 34 /\ c <> 39) u
     /\ exists a b, cssText = a ++ u ++ b)
  /\ (6 * length (extractUrlsFromCss cssText) <= length cssText)%nat.
Proof.
  split; [|apply scanUrls_count].
  intros u Hin. apply scanUrls_spec in Hin as (Hne & Hall & Hsub).
  split; [exact Hne|]. split; [|exact Hsub].
  apply Forall_forall. intros c Hc.
  rewrite forallb_forall in Hall.
  specialize (Hall c (proj1 (list_elem_of_In _ _) Hc)).
  unfold isUrlArgChar, isQuote in Hall.
  apply negb_true_iff in Hall.
  apply orb_false_iff in Hall as [H1 H2].
  apply orb_false_iff in H2 as [H2 H3].
  apply N.eqb_neq in H1, H2, H3. auto.
Qed.

Lemma matchUrlAt_not_u (c : N) (s : jsstring) :
  lower_char c <> 117 -> matchUrlAt (c :: s) = None.
Proof.
  intros H. unfold matchUrlAt. apply N.eqb_neq in H.
  destruct s as [|r [|l [|p t]]]; try reflexivity.
  rewrite H. reflexivity.
Qed.

Lemma scanUrls_skip (pre s : jsstring) (fuel : nat) :
  Forall (fun c => lower_char c <> 117) pre ->
  scanUrls (length pre + fuel) (pre ++ s) = scanUrls fuel s.
Proof.
  induction 1 as [|c pre Hc _ IH]; [reflexivity|].
  cbn [length app Nat.add scanUrls].
  rewrite (matchUrlAt_not_u c _ Hc). exact IH.
Qed.

Lemma trimStart_spaces (ws s : jsstring) :
  forallb is_space ws = true -> trimStart (ws ++ s) = trimStart s.
Proof.
  induction ws as [|c ws IH]; [reflexivity|]. cbn [forallb app trimStart].
  intros H. apply andb_true_iff in H as [-> H]. exact (IH H).
Qed.

Lemma isUrlArgChar_not_quote (c : N) :
  isUrlArgChar c = true -> isQuote c = false.
Proof.
  unfold isUrlArgChar. intros H. apply negb_true_iff in H.
  apply orb_false_iff in H as [_ H]. exact H.
Qed.

Lemma scanUrls_match (fuel : nat) (s m2 rest : jsstring) :
  matchUrlAt s = Some (m2, rest) -> (length s <= fuel)%nat ->
  scanUrls fuel s = m2 :: extractUrlsFromCss rest.
Proof.
  intros Hm Hlen. pose proof (matchUrlAt_length _ _ _ Hm) as Hl.
  destruct s as [|c s']; [discriminate Hm|].
  destruct fuel as [|fuel]; [cbn [length] in Hlen; lia|].
  cbn [scanUrls]. rewrite Hm. f_equal.
  cbn [length] in *. apply scanUrls_fuel; lia.
Qed.

(** A well-formed call is found: behind a text without the letter u, the
    letters url in either case, a parenthesis, white space, and then either
    a bare argument that starts with a visible unit, or an argument between
    two equal quotes followed by white space; the scan goes on behind the
    closing parenthesis.  A bare argument keeps the white space at its
    end. *)
Theorem well_formed_url_call_is_extracted
    (pre kw ws arg post : jsstring) :
  Forall (fun c => lower_char c <> 117) pre ->
  toLowerCase kw = js "url" ->
  forallb is_space ws = true ->
  arg <> [] -> forallb isUrlArgChar arg = true ->
  (forall c, head arg = Some c -> is_space c = false ->
     extractUrlsFromCss (pre ++ kw ++ [LPAREN] ++ ws ++ arg ++ [RPAREN] ++ post)
     = arg :: extractUrlsFromCss post)
  /\ (forall q ws', isQuote q = true -> forallb is_space ws' = true ->
     extractUrlsFromCss
       (pre ++ kw ++ [LPAREN] ++ ws ++ [q] ++ arg ++ [q] ++ ws' ++ [RPAREN]
            ++ post)
     = arg :: extractUrlsFromCss post).
Proof.
  intros Hpre Hkw Hws Hne Harg.
  destruct kw as [|u [|r [|l [|? ?]]]]; try discriminate Hkw.
  change (js "url") with [117; 114; 108] in Hkw.
  injection Hkw as Hu Hr Hl.
  assert (Hscan : forall body,
    matchUrlAt ([u; r; l] ++ [LPAREN] ++ body) = Some (arg, post) ->
    extractUrlsFromCss (pre ++ [u; r; l] ++ [LPAREN] ++ body)
    = arg :: extractUrlsFromCss post).
  { intros body Hm. unfold extractUrlsFromCss at 1.
    rewrite length_app, (scanUrls_skip pre _ _ Hpre).
    apply scanUrls_match; [exact Hm | lia]. }
  assert (Hkey : (lower_char u =? 117) && (lower_char r =? 114)
                 && (lower_char l =? 108) && (LPAREN =? LPAREN) = true).
  { rewrite Hu, Hr, Hl. reflexivity. }
  split.
  - intros c Hc Hsp.
    apply Hscan.
    unfold matchUrlAt. cbn [app]. rewrite Hkey.
    destruct arg as [|c' arg']; [congruence|]. injection Hc as ->.
    cbn [app].
    rewrite (spanWhile_app is_space ws (c :: arg' ++ RPAREN :: post) Hws)
      by (intros ? ? [= <- _]; exact Hsp).
    pose proof Harg as Harg'. cbn [forallb] in Harg'.
    apply andb_true_iff in Harg' as [Hq _].
    rewrite (isUrlArgChar_not_quote _ Hq).
    change (c :: arg' ++ RPAREN :: post)
      with ((c :: arg') ++ RPAREN :: post).
    rewrite (spanWhile_app isUrlArgChar (c :: arg') (RPAREN :: post) Harg)
      by (intros ? ? [= <- _]; reflexivity).
    reflexivity.
  - intros q ws' Hq Hws'.
    apply Hscan.
    unfold matchUrlAt. cbn [app]. rewrite Hkey.
    assert (Hqs : is_space q = false).
    { destruct (is_space q) eqn:E; [|reflexivity].
      apply is_space_isUrlArgChar, isUrlArgChar_not_quote in E. congruence. }
    rewrite (spanWhile_app is_space ws
               (q :: arg ++ q :: ws' ++ RPAREN :: post) Hws)
      by (intros ? ? [= <- _]; exact Hqs).
    rewrite Hq.
    rewrite (spanWhile_app isUrlArgChar arg
               (q :: ws' ++ RPAREN :: post) Harg)
      by (intros ? ? [= <- _]; unfold isUrlArgChar; rewrite Hq;
          rewrite orb_true_r; reflexivity).
    destruct arg as [|a arg']; [congruence|]. cbn [app].
    rewrite N.eqb_refl. unfold closeParen.
    rewrite (trimStart_spaces ws' _ Hws'). cbn [app trimStart].
    change (is_space RPAREN) with false. cbv iota.
    rewrite N.eqb_refl. reflexivity.
Qed.

Lemma well_formed_url_call_is_extracted_witness :
  extractUrlsFromCss (js "div { src: URL( img/x.png ) }")
  = js "img/x.png " :: extractUrlsFromCss (js " }").
Proof.
  destruct (well_formed_url_call_is_extracted
              (js "div { src: ") (js "URL") (js " ") (js "img/x.png ")
              (js " }")) as [H _].
  - refine (bool_decide_unpack _ _). vm_compute. exact I.
  - reflexivity.
  - reflexivity.
  - discriminate.
  - reflexivity.
  - exact (H 105%N eq_refl eq_refl).
Defined.

(** ** Scanning more kinds of documents *)

Lemma isDoc_mono (o1 o2 : Options) (p : jsstring) :
  (includeHtml o1 = true -> includeHtml o2 = true) ->
  isDoc o1 p = true -> isDoc o2 p = true.
Proof.
  intros H. unfold isDoc. destruct (includeHtml o1).
  - rewrite (H eq_refl). auto.
  - cbn [existsb]. rewrite orb_false_r. intros ->. reflexivity.
Qed.

Lemma rawRefs_mono rt (o1 o2 : Options) (p : jsstring) (obj : file) href :
  (includeHtml o1 = true -> includeHtml o2 = true) ->
  (includeCss o1 = true -> includeCss o2 = true) ->
  (includeSvg o1 = true -> includeSvg o2 = true) ->
  In href (rawRefs rt o1 p obj) -> In href (rawRefs rt o2 p obj).
Proof.
  intros Hh Hc Hs. unfold rawRefs. rewrite !in_app_iff.
  intros [H | [H | H]].
  - left. destruct (isDoc o1 p) eqn:Hd; [|destruct H].
    rewrite (isDoc_mono o1 o2 p Hh Hd).
    revert H. unfold markupRefs.
    destruct (utf8 rt (buffer obj) ≫= _) as [doc|]; [|auto].
    rewrite !in_app_iff. intros [H | [H | [H | H]]]; auto.
    destruct (includeSvg o1); [|destruct H].
    rewrite (Hs eq_refl). auto.
  - right; left. destruct (includeCss o1); [|destruct H].
    rewrite (Hc eq_refl). exact H.
  - right; right. destruct (includeSvg o1); [|destruct H].
    rewrite (Hs eq_refl). exact H.
Qed.

(** Switching on [includeHtml], [includeCss] or [includeSvg] (the other
    query values unchanged) only removes entries from the unreferenced list
    and leaves the oversized list as it is, when both runs end in a
    report. *)
Theorem scanning_more_only_removes_unreferenced
    rt (upload : option bytes) (q1 q2 : Query) rep1 rep2 :
  let o1 := optionsOf rt q1 in
  let o2 := optionsOf rt q2 in
  (includeHtml o1 = true -> includeHtml o2 = true) ->
  (includeCss o1 = true -> includeCss o2 = true) ->
  (includeSvg o1 = true -> includeSvg o2 = true) ->
  searchAllImages o1 = searchAllImages o2 ->
  followOpfManifestOnly o1 = followOpfManifestOnly o2 ->
  pixelThreshold o1 = pixelThreshold o2 ->
  q_epubBasePath q1 = q_epubBasePath q2 ->
  validate rt {| req_file := upload; req_query := q1 |} = Json rep1 ->
  validate rt {| req_file := upload; req_query := q2 |} = Json rep2 ->
  unreferenced rep2 `sublist_of` unreferenced rep1
  /\ oversized rep2 = oversized rep1.
Proof.
  intros o1 o2 Hh Hc Hs Hall Hman Hpx Hebp Hv1 Hv2.
  apply validate_Json in Hv1 as (files & man & used & ebp & Hst1 & ->).
  apply validate_Json in Hv2 as (files' & man' & used' & ebp' & Hst2 & ->).
  destruct Hst1 as ((buf & Hb & Hz) & He & _ & Hm & Hu).
  destruct Hst2 as ((buf' & Hb' & Hz') & He' & _ & Hm' & Hu').
  cbn [req_file req_query] in *.
  rewrite Hb in Hb'; injection Hb' as <-.
  rewrite Hz in Hz'; injection Hz' as <-.
  rewrite Hebp, He' in He; injection He as <-.
  fold o1 in Hm, Hu. fold o2 in Hm', Hu'.
  rewrite (manifestAbsOf_ext rt files _ o1 o2 Hman), Hm' in Hm.
  injection Hm as <-.
  unfold reportOf; cbn [req_query unreferenced oversized]. fold o1 o2.
  rewrite (candidatesAbsOf_ext files man' o1 o2 Hall Hman).
  split.
  - apply fmap_sublist, filter_sublist_mono. intros x Hx Hin. apply Hx.
    unfold collectReferences in Hu, Hu'.
    apply (collect_spec rt o2 _ files ∅ used' x Hu').
    apply (collect_spec rt o1 _ files ∅ used x Hu) in Hin
      as [Hin | (p & obj & Hf & href & Hr & Hres)]; [set_solver|].
    right. exists p, obj. split; [exact Hf|]. exists href.
    split; [|exact Hres]. exact (rawRefs_mono rt o1 o2 p obj href Hh Hc Hs Hr).
  - unfold oversizedEntryOf. rewrite Hpx. reflexivity.
Qed.

Lemma scanning_more_only_removes_unreferenced_witness :
  exists rep1 rep2,
    validate SampleRuns.rtC (Sample.upload Sample.noQuery) = Json rep1
    /\ validate SampleRuns.rtC (Sample.upload SampleRuns.withCss) = Json rep2
    /\ unreferenced rep2 `sublist_of` unreferenced rep1
    /\ oversized rep2 = oversized rep1
    /\ length (unreferenced rep1) = 1%nat /\ unreferenced rep2 = [].
Proof.
  eexists; eexists.
  assert (H1 : validate SampleRuns.rtC (Sample.upload Sample.noQuery)
               = Json (reportOf SampleRuns.rtC (Sample.upload Sample.noQuery)
                         [ (js "css/style.css",
                            {| path := js "css/style.css";
                               buffer := js "div { background: url('../images/c.png') }" |});
                           (js "images/c.png",
                            {| path := js "images/c.png";
                               buffer := js "bytes of c" |}) ] ∅ ∅ [])).
  { apply validate_stages. vm_compute. eauto 10. }
  assert (H2 : validate SampleRuns.rtC (Sample.upload SampleRuns.withCss)
               = Json (reportOf SampleRuns.rtC (Sample.upload SampleRuns.withCss)
                         [ (js "css/style.css",
                            {| path := js "css/style.css";
                               buffer := js "div { background: url('../images/c.png') }" |});
                           (js "images/c.png",
                            {| path := js "images/c.png";
                               buffer := js "bytes of c" |}) ] ∅
                         {[ js "images/c.png" ]} [])).
  { apply validate_stages. unfold stages.
    split; [exists []; split; vm_compute; reflexivity|].
    split; [reflexivity|]. split; [vm_compute; reflexivity|].
    split; vm_compute; reflexivity. }
  split; [exact H1|]. split; [exact H2|].
  destruct (scanning_more_only_removes_unreferenced
              SampleRuns.rtC (Some []) Sample.noQuery SampleRuns.withCss _ _
              ltac:(discriminate) ltac:(discriminate) ltac:(discriminate)
              eq_refl eq_refl eq_refl eq_refl H1 H2) as (Hu & Ho).
  split; [exact Hu|]. split; [exact Ho|].
  split; vm_compute; reflexivity.
Defined.

(** ** The resolver on paths of plain segments *)

Lemma joinSlash_cons (s : jsstring) (rest : list jsstring) :
  rest <> [] -> joinSlash (s :: rest) = s ++ SLASH :: joinSlash rest.
Proof. destruct rest; [congruence | reflexivity]. Qed.

Lemma joinSlash_app (a b : list jsstring) :
  a <> [] -> b <> [] ->
  joinSlash (a ++ b) = joinSlash a ++ SLASH :: joinSlash b.
Proof.
  intros Ha Hb. induction a as [|s a IH]; [congruence|].
  destruct a as [|s' a].
  - cbn [app]. apply joinSlash_cons. exact Hb.
  - change ((s :: s' :: a) ++ b) with (s :: ((s' :: a) ++ b)).
    rewrite joinSlash_cons by discriminate.
    rewrite IH by discriminate.
    rewrite (joinSlash_cons s (s' :: a)) by discriminate.
    rewrite <- app_assoc. reflexivity.
Qed.

Lemma joinSlash_snoc (stack : list jsstring) (s : jsstring) :
  joinSlash (stack ++ [s])
  = match stack with [] => s | _ :: _ => joinSlash stack ++ SLASH :: s end.
Proof.
  destruct stack as [|t stack]; [reflexivity|].
  apply joinSlash_app; discriminate.
Qed.

Lemma joinSlash_nonempty (stack : list jsstring) :
  Forall (fun s => s <> []) stack -> stack <> [] -> joinSlash stack <> [].
Proof.
  intros H Hne. destruct H as [|s rest Hs _]; [congruence|].
  destruct rest; cbn [joinSlash]; [exact Hs|].
  destruct s; [congruence | discriminate].
Qed.

Lemma joinSlash_free (c : N) (stack : list jsstring) :
  c <> SLASH -> Forall (fun s => c ∉ s) stack -> c ∉ joinSlash stack.
Proof.
  intros Hc. induction 1 as [|s rest Hs _ IH]; [apply not_elem_of_nil|].
  destruct rest as [|s' rest]; [exact Hs|].
  rewrite joinSlash_cons by discriminate.
  rewrite elem_of_app, elem_of_cons. intros [H | [H | H]]; auto.
Qed.

Lemma lastIndexOf_none (c : N) (t : jsstring) :
  c ∉ t -> lastIndexOf c t = None.
Proof.
  induction t as [|d t IH]; [reflexivity|]. intros H.
  apply not_elem_of_cons in H as [Hd Ht]. cbn [lastIndexOf].
  rewrite (IH Ht). destruct (N.eqb_spec d c); [congruence | reflexivity].
Qed.

Lemma lastIndexOf_app (c : N) (x t : jsstring) :
  c ∉ t -> lastIndexOf c (x ++ c :: t) = Some (length x).
Proof.
  intros Ht. induction x as [|d x IH]; cbn [app lastIndexOf length].
  - rewrite (lastIndexOf_none c t Ht), N.eqb_refl. reflexivity.
  - rewrite IH. reflexivity.
Qed.

Lemma fold_chars (a : bool) (s : jsstring) : forall st,
  SLASH ∉ s ->
  fold_left (Posix.step a) s st
  = Posix.mkN (Posix.res st) (Posix.lastSegmentLength st)
              (Posix.seg st ++ s) (fold_left dotStep s (Posix.dots st)).
Proof.
  induction s as [|c s IH]; intros st H.
  - cbn [fold_left]. rewrite app_nil_r. destruct st; reflexivity.
  - apply not_elem_of_cons in H as [Hc Hs]. cbn [fold_left].
    rewrite IH by exact Hs. unfold Posix.step.
    destruct (N.eqb_spec c SLASH); [congruence|].
    unfold Posix.char_step, dotStep at 2.
    cbn [Posix.res Posix.lastSegmentLength Posix.seg Posix.dots].
    rewrite <- app_assoc. reflexivity.
Qed.

Lemma fold_chars_flush (a : bool) (s r : jsstring) (l : nat) :
  SLASH ∉ s ->
  fold_left (Posix.step a) s (Posix.flush r l)
  = Posix.mkN r l s (fold_left dotStep s 0%Z).
Proof. intros H. rewrite fold_chars by exact H. reflexivity. Qed.

Lemma dots_dead (s : jsstring) : fold_left dotStep s (-1)%Z = (-1)%Z.
Proof.
  induction s as [|c s IH]; [reflexivity|]. cbn [fold_left].
  unfold dotStep at 2. rewrite andb_false_r. exact IH.
Qed.

Lemma dots_count (s : jsstring) : forall d, (0 <= d)%Z ->
  fold_left dotStep s d
  = if forallb (fun c => c =? DOT) s
    then (d + Z.of_nat (length s))%Z else (-1)%Z.
Proof.
  induction s as [|c s IH]; intros d Hd; cbn [fold_left forallb length].
  - lia.
  - unfold dotStep at 2. destruct (c =? DOT); cbn [andb].
    + destruct (Z.eqb_spec d (-1)); [lia|]. cbn [negb].
      rewrite IH by lia. destruct (forallb _ s); lia.
    + apply dots_dead.
Qed.

Lemma dots_of_name (s : jsstring) :
  s <> [] -> s <> js "." -> s <> js ".." ->
  fold_left dotStep s 0%Z <> 1%Z /\ fold_left dotStep s 0%Z <> 2%Z.
Proof.
  intros H0 H1 H2. rewrite dots_count by lia.
  destruct (forallb (fun c => c =? DOT) s) eqn:Hall; [|lia].
  destruct s as [|c1 [|c2 [|c3 s]]]; [congruence| | |cbn [length]; lia].
  - cbn [forallb] in Hall. rewrite andb_true_r in Hall.
    apply N.eqb_eq in Hall as ->. exfalso. apply H1. reflexivity.
  - cbn [forallb] in Hall. rewrite andb_true_r in Hall.
    apply andb_true_iff in Hall as [E1 E2].
    apply N.eqb_eq in E1 as ->. apply N.eqb_eq in E2 as ->.
    exfalso. apply H2. reflexivity.
Qed.

Lemma segStep_stay (a : bool) (stack : list jsstring) (s : jsstring) :
  s = [] \/ s = js "." -> segStep a (stateOf stack) s = stateOf stack.
Proof. intros [-> | ->]; reflexivity. Qed.

Lemma segStep_down (a : bool) (stack : list jsstring) (s : jsstring) :
  Forall (fun s => s <> []) stack ->
  SLASH ∉ s -> s <> [] -> s <> js "." -> s <> js ".." ->
  segStep a (stateOf stack) s = stateOf (stack ++ [s]).
Proof.
  intros Hst Hs H0 H1 H2. unfold segStep, stateOf.
  rewrite fold_chars_flush by exact Hs.
  destruct (dots_of_name s H0 H1 H2) as [D1 D2].
  unfold Posix.sep_step.
  cbn [Posix.res Posix.lastSegmentLength Posix.seg Posix.dots].
  apply is_empty_false in H0. rewrite H0. cbn [orb].
  apply Z.eqb_neq in D1, D2. rewrite D1, D2.
  rewrite last_snoc, joinSlash_snoc. cbn [default].
  destruct stack as [|t stack]; [reflexivity|].
  assert (Hne : joinSlash (t :: stack) <> [])
    by (apply joinSlash_nonempty; [exact Hst | discriminate]).
  apply is_empty_false in Hne. rewrite Hne. reflexivity.
Qed.

Lemma not_dotdot_tail (top x : jsstring) :
  top <> js ".." -> length top = 2%nat ->
  Posix.ends_with_dotdot (x ++ top) = false.
Proof.
  intros Hne Hlen. destruct top as [|c1 [|c2 [|? ?]]]; try discriminate Hlen.
  unfold Posix.ends_with_dotdot. rewrite rev_app_distr. cbn [rev app].
  destruct (N.eqb_spec c2 DOT) as [->|]; [|reflexivity].
  destruct (N.eqb_spec c1 DOT) as [->|]; [|reflexivity].
  exfalso. apply Hne. reflexivity.
Qed.

Lemma stateOf_snoc (stack : list jsstring) (top : jsstring) :
  stateOf (stack ++ [top])
  = Posix.flush (joinSlash (stack ++ [top])) (length top).
Proof. unfold stateOf. rewrite last_snoc. reflexivity. Qed.

(** The state behind [stack], read back from its text: the length of the
    last segment is what the source recomputes with [lastIndexOf]. *)
Lemma stateOf_lastIndexOf (stack : list jsstring) :
  Forall (fun s => SLASH ∉ s) stack ->
  stateOf stack
  = Posix.flush (joinSlash stack)
      (match lastIndexOf SLASH (joinSlash stack) with
       | None => length (joinSlash stack)
       | Some j => length (joinSlash stack) - 1 - j
       end).
Proof.
  intros H. destruct stack as [|top stack _] using rev_ind; [reflexivity|].
  rewrite stateOf_snoc. f_equal.
  apply Forall_app in H as [_ Htop]. inversion Htop as [|? ? Ht _]; subst.
  rewrite joinSlash_snoc. destruct stack as [|t stack].
  - rewrite lastIndexOf_none by exact Ht. reflexivity.
  - rewrite lastIndexOf_app by exact Ht. rewrite length_app. cbn [length]. lia.
Qed.

Lemma segStep_up (a : bool) (stack : list jsstring) :
  Forall plainName stack -> stack <> [] ->
  segStep a (stateOf stack) (js "..") = stateOf (removelast stack).
Proof.
  intros Hst Hne.
  destruct stack as [|top stack _] using rev_ind; [congruence|].
  rewrite removelast_last, stateOf_snoc.
  apply Forall_app in Hst as [Hst Htop].
  inversion Htop as [|? ? (Ht0 & (Htsl & _) & _ & Htdd) _]; subst.
  assert (Hfree : Forall (fun s => SLASH ∉ s) stack).
  { eapply Forall_impl; [exact Hst|]. intros s (_ & (H & _) & _). exact H. }
  unfold segStep. rewrite fold_chars_flush
    by (intros H; apply list_elem_of_In in H; cbv in H; intuition discriminate).
  change (fold_left dotStep (js "..") 0%Z) with 2%Z.
  unfold Posix.sep_step.
  cbn [Posix.res Posix.lastSegmentLength Posix.seg Posix.dots].
  change (is_empty (js "..") || (2 =? 1)%Z) with false.
  change (2 =? 2)%Z with true. cbv iota.
  rewrite joinSlash_snoc.
  destruct stack as [|t stack].
  - assert (Hdd : (length top =? 2)%nat = true ->
                  Posix.ends_with_dotdot top = false).
    { intros E. apply Nat.eqb_eq in E.
      exact (not_dotdot_tail top [] Htdd E). }
    assert (Hcond : (length top <? 2)%nat || negb (length top =? 2)%nat
                    || negb (Posix.ends_with_dotdot top) = true).
    { destruct (length top =? 2)%nat; [|apply orb_true_iff; left;
                                        apply orb_true_r].
      rewrite (Hdd eq_refl). apply orb_true_r. }
    rewrite Hcond. rewrite (lastIndexOf_none SLASH top Htsl).
    apply is_empty_false in Ht0. rewrite Ht0. cbn [negb].
    destruct (2 <? length top)%nat; reflexivity.
  - set (x := joinSlash (t :: stack)).
    assert (Hcond : (length (x ++ SLASH :: top) <? 2)%nat
                    || negb (length top =? 2)%nat
                    || negb (Posix.ends_with_dotdot (x ++ SLASH :: top))
                    = true).
    { destruct (Nat.eqb_spec (length top) 2) as [E|E];
        [|apply orb_true_iff; left; apply orb_true_r].
      change (x ++ SLASH :: top) with (x ++ [SLASH] ++ top).
      rewrite app_assoc, (not_dotdot_tail top _ Htdd E). apply orb_true_r. }
    rewrite Hcond.
    assert (Hlen : (2 <? length (x ++ SLASH :: top))%nat = true).
    { apply Nat.ltb_lt. rewrite length_app. cbn [length].
      assert (Hx : x <> []).
      { apply joinSlash_nonempty; [|discriminate].
        eapply Forall_impl; [exact Hst|]. intros s (H & _). exact H. }
      destruct x; [congruence|].
      destruct top; [congruence|]. cbn [length]. lia. }
    rewrite Hlen, (lastIndexOf_app SLASH x top Htsl).
    rewrite take_app_length. subst x.
    symmetry. apply stateOf_lastIndexOf. exact Hfree.
Qed.

Lemma plainName_push (stack : list jsstring) (s : jsstring) :
  Forall plainName stack -> sepFree s ->
  is_empty s || jsstring_eqb s (js ".") = false ->
  jsstring_eqb s (js "..") = false ->
  Forall plainName (stack ++ [s]).
Proof.
  intros Hst Hs H1 H2. apply Forall_app. split; [exact Hst|].
  constructor; [|constructor].
  apply orb_false_iff in H1 as [H0 H1].
  unfold jsstring_eqb in *.
  apply bool_decide_eq_false in H1, H2.
  apply is_empty_false in H0. repeat split; try assumption; apply Hs.
Qed.

Lemma Forall_removelast {A} (P : A -> Prop) (l : list A) :
  Forall P l -> Forall P (removelast l).
Proof.
  destruct l as [|x l _] using rev_ind; [auto|].
  rewrite removelast_last. intros H. apply Forall_app in H as [H _]. exact H.
Qed.

(** [normalizeString] follows the walk: the segments of the text, taken
    one by one from the state behind [dir], end in the state behind the
    directory the walk ends in. *)
Lemma fold_segStep_walk (a : bool) (segs : list jsstring) :
  forall dir stack,
    Forall plainName dir -> Forall sepFree segs ->
    walk dir segs = Some stack ->
    fold_left (segStep a) segs (stateOf dir) = stateOf stack
    /\ Forall plainName stack.
Proof.
  induction segs as [|s segs IH]; intros dir stack Hdir Hsegs Hw.
  - injection Hw as <-. split; [reflexivity | exact Hdir].
  - inversion Hsegs as [|? ? Hs Hrest]; subst. cbn [walk] in Hw.
    cbn [fold_left].
    destruct (is_empty s || jsstring_eqb s (js ".")) eqn:E1.
    + rewrite segStep_stay; [exact (IH _ _ Hdir Hrest Hw)|].
      apply orb_true_iff in E1 as [E | E].
      * left. apply is_empty_true. exact E.
      * right. unfold jsstring_eqb in E. apply bool_decide_eq_true in E.
        exact E.
    + destruct (jsstring_eqb s (js "..")) eqn:E2.
      * unfold jsstring_eqb in E2. apply bool_decide_eq_true in E2. subst s.
        destruct dir as [|d dir]; [discriminate|].
        rewrite segStep_up by (auto; discriminate).
        apply (IH _ _ (Forall_removelast _ _ Hdir) Hrest Hw).
      * pose proof (plainName_push dir s Hdir Hs E1 E2) as Hpush.
        apply orb_false_iff in E1 as [E0 E1].
        unfold jsstring_eqb in E1, E2.
        apply bool_decide_eq_false in E1, E2. apply is_empty_false in E0.
        rewrite segStep_down; try assumption; [| |apply Hs].
        -- exact (IH _ _ Hpush Hrest Hw).
        -- eapply Forall_impl; [exact Hdir|]. intros x (H & _). exact H.
Qed.

Lemma fold_step_joinSlash (a : bool) (segs : list jsstring) :
  forall st, segs <> [] ->
    Posix.sep_step a (fold_left (Posix.step a) (joinSlash segs) st)
    = fold_left (segStep a) segs st.
Proof.
  induction segs as [|s segs IH]; intros st Hne; [congruence|].
  destruct segs as [|s' segs]; [reflexivity|].
  rewrite joinSlash_cons by discriminate.
  rewrite fold_left_app. cbn [fold_left].
  unfold Posix.step at 2. rewrite N.eqb_refl.
  rewrite IH by discriminate. reflexivity.
Qed.

(** [normalizeString] of a relative text is the walk of its segments from
    the top directory. *)
Lemma normalizeString_walk (a : bool) (segs stack : list jsstring) :
  segs <> [] -> Forall sepFree segs -> walk [] segs = Some stack ->
  Posix.normalizeString (joinSlash segs) a = joinSlash stack
  /\ Forall plainName stack.
Proof.
  intros Hne Hsegs Hw. unfold Posix.normalizeString.
  rewrite fold_step_joinSlash by exact Hne.
  change (Posix.flush [] 0) with (stateOf []).
  destruct (fold_segStep_walk a segs [] stack (Forall_nil_2 _) Hsegs Hw)
    as [-> Hst].
  split; [reflexivity | exact Hst].
Qed.

Lemma walk_app (a b : list jsstring) : forall dir,
  walk dir (a ++ b) = walk dir a ≫= fun d => walk d b.
Proof.
  induction a as [|s a IH]; intros dir; [reflexivity|].
  cbn [app walk].
  destruct (is_empty s || jsstring_eqb s (js ".")); [apply IH|].
  destruct (jsstring_eqb s (js "..")); [|apply IH].
  destruct dir; [reflexivity | apply IH].
Qed.

Lemma walk_plain (d : list jsstring) : forall dir,
  Forall plainName d -> walk dir d = Some (dir ++ d).
Proof.
  induction d as [|s d IH]; intros dir H.
  - rewrite app_nil_r. reflexivity.
  - inversion H as [|? ? (H0 & _ & H1 & H2) Hd]; subst. cbn [walk].
    apply is_empty_false in H0. rewrite H0. unfold jsstring_eqb.
    rewrite !bool_decide_eq_false_2 by assumption. cbn [orb].
    rewrite IH by exact Hd. rewrite <- app_assoc. reflexivity.
Qed.

Lemma startsWith_joinSlash (s : jsstring) (rest : list jsstring) :
  s <> [] -> SLASH ∉ s ->
  startsWith (joinSlash (s :: rest)) [SLASH] = false.
Proof.
  intros Hne Hs. destruct s as [|c s]; [congruence|].
  apply not_elem_of_cons in Hs as [Hc _].
  assert (E : exists t, joinSlash ((c :: s) :: rest) = c :: t).
  { destruct rest; cbn [joinSlash app]; eauto. }
  destruct E as [t ->]. cbn [startsWith].
  destruct (N.eqb_spec SLASH c); [congruence | reflexivity].
Qed.

Lemma endsWith_joinSlash (segs : list jsstring) (s : jsstring) :
  s <> [] -> SLASH ∉ s ->
  endsWith (joinSlash (segs ++ [s])) [SLASH] = false.
Proof.
  intros Hne Hs. destruct s as [|c s _] using rev_ind; [congruence|].
  apply not_elem_of_app in Hs as [_ Hc].
  apply not_elem_of_cons in Hc as [Hc _].
  assert (E : exists t, joinSlash (segs ++ [s ++ [c]]) = t ++ [c]).
  { rewrite joinSlash_snoc. destruct segs; [eauto|].
    exists (joinSlash (l :: segs) ++ SLASH :: s).
    rewrite <- app_assoc. reflexivity. }
  destruct E as [t ->]. unfold endsWith. rewrite rev_app_distr.
  cbn [rev app startsWith].
  destruct (N.eqb_spec SLASH c); [congruence | reflexivity].
Qed.

(** [path.posix.normalize] of a relative text without a trailing slash is
    the walk of its segments from the top directory, [.] when the walk
    ends there. *)
Lemma posix_normalize_walk (segs stack : list jsstring) :
  Forall sepFree segs -> hd [] segs <> [] -> last segs <> Some [] ->
  walk [] segs = Some stack ->
  Posix.normalize (joinSlash segs)
  = match stack with [] => js "." | _ :: _ => joinSlash stack end
  /\ Forall plainName stack.
Proof.
  intros Hsegs Hhd Hlast Hw.
  destruct segs as [|s segs]; [cbn in Hhd; congruence|]. cbn [hd] in Hhd.
  assert (Hs : SLASH ∉ s) by (inversion Hsegs as [|? ? [H _] _]; exact H).
  destruct (normalizeString_walk true (s :: segs) stack
              ltac:(discriminate) Hsegs Hw) as [Hn Hst].
  split; [|exact Hst].
  unfold Posix.normalize.
  rewrite (startsWith_joinSlash s segs Hhd Hs). cbn [negb].
  assert (He : is_empty (joinSlash (s :: segs)) = false).
  { destruct s; [congruence|]. destruct segs; reflexivity. }
  rewrite He, Hn.
  assert (Hend : endsWith (joinSlash (s :: segs)) [SLASH] = false).
  { destruct (s :: segs) as [|l ls _] using rev_ind; [reflexivity|].
    rewrite last_snoc in Hlast.
    apply Forall_app in Hsegs as [_ Hl].
    inversion Hl as [|? ? [Hl' _] _]; subst.
    apply endsWith_joinSlash; [congruence | exact Hl']. }
  rewrite Hend.
  destruct stack as [|t stack]; [reflexivity|].
  assert (Hne : joinSlash (t :: stack) <> []).
  { apply joinSlash_nonempty; [|discriminate].
    eapply Forall_impl; [exact Hst|]. intros x (H & _). exact H. }
  apply is_empty_false in Hne. rewrite Hne. reflexivity.
Qed.

Lemma plainName_sepFree (stack : list jsstring) :
  Forall plainName stack -> Forall sepFree stack.
Proof.
  intros H. eapply Forall_impl; [exact H|]. intros s (_ & Hs & _). exact Hs.
Qed.

Lemma joinSlash_no_backslash (stack : list jsstring) :
  Forall sepFree stack -> BACKSLASH ∉ joinSlash stack.
Proof.
  intros H. apply joinSlash_free; [discriminate|].
  eapply Forall_impl; [exact H|]. intros s [_ Hs]. exact Hs.
Qed.

(** A normalized path of plain names is a fixed point of
    [path.posix.normalize]. *)
Lemma posix_normalize_plain (stack : list jsstring) :
  Forall plainName stack -> stack <> [] ->
  Posix.normalize (joinSlash stack) = joinSlash stack.
Proof.
  intros Hst Hne.
  destruct (posix_normalize_walk stack stack) as [-> _].
  - apply plainName_sepFree, Hst.
  - destruct Hst as [|s rest (H & _) _]; [congruence | exact H].
  - destruct stack as [|l ls _] using rev_ind; [congruence|].
    rewrite last_snoc. apply Forall_app in Hst as [_ Hl].
    inversion Hl as [|? ? (H & _) _]; subst. congruence.
  - apply (walk_plain stack [] Hst).
  - destruct stack; [congruence | reflexivity].
Qed.

Lemma stripLastSegment_joinSlash (dir : list jsstring) (name : jsstring) :
  SLASH ∉ name ->
  stripLastSegment (joinSlash (dir ++ [name]))
  = match dir with [] => [] | _ :: _ => joinSlash dir ++ [SLASH] end.
Proof.
  intros Hname. rewrite joinSlash_snoc. destruct dir as [|d dir].
  - apply (stripLastSegment_app [] name); [left; reflexivity | exact Hname].
  - change (joinSlash (d :: dir) ++ SLASH :: name)
      with (joinSlash (d :: dir) ++ [SLASH] ++ name).
    rewrite app_assoc. apply stripLastSegment_app; [|exact Hname].
    right. apply last_snoc.
Qed.

(** The directory of the referencing member and the segments of the
    reference, as one text to normalize. *)
Lemma resolveClean_walk (dir segs stack : list jsstring) (name : jsstring) :
  Forall plainName dir -> sepFree name -> Forall sepFree segs ->
  hd [] segs <> [] -> last segs <> Some [] ->
  walk dir segs = Some stack ->
  resolveClean (joinSlash (dir ++ [name])) (joinSlash segs)
  = match stack with [] => js "." | _ :: _ => joinSlash stack end
  /\ Forall plainName stack.
Proof.
  intros Hdir [Hn1 Hn2] Hsegs Hhd Hlast Hw.
  assert (Hsne : segs <> []) by (destruct segs; [cbn in Hhd|]; congruence).
  assert (Hclean : joinSlash segs <> []).
  { destruct segs as [|[|c s] rest]; cbn [hd] in Hhd; try congruence.
    destruct rest; discriminate. }
  unfold resolveClean, safeJoin.
  rewrite (normalize_id (joinSlash (dir ++ [name]))).
  2:{ apply joinSlash_no_backslash, Forall_app. split.
      - apply plainName_sepFree, Hdir.
      - constructor; [split; assumption | constructor]. }
  rewrite stripLastSegment_joinSlash by exact Hn1.
  assert (Hjoin : exists segs',
    Posix.join [match dir with
                | [] => []
                | _ :: _ => joinSlash dir ++ [SLASH]
                end; joinSlash segs]
    = Posix.normalize (joinSlash segs')
    /\ Forall sepFree segs' /\ hd [] segs' <> [] /\ last segs' <> Some []
    /\ walk [] segs' = Some stack).
  { destruct dir as [|d dir].
    - exists segs. split; [|auto].
      unfold Posix.join. rewrite filter_cons.
      destruct (decide (@nil N <> [])); [congruence|].
      rewrite filter_cons. destruct (decide (joinSlash segs <> []));
        [reflexivity | contradiction].
    - exists ((d :: dir) ++ [] :: segs). split; [|split; [|split; [|split]]].
      + unfold Posix.join. rewrite filter_cons.
        destruct (decide (joinSlash (d :: dir) ++ [SLASH] <> [])) as [_|H];
          [|exfalso; apply H; destruct (joinSlash (d :: dir)); discriminate].
        rewrite filter_cons. destruct (decide (joinSlash segs <> []));
          [|contradiction].
        cbn [filter list_filter fold_left]. f_equal.
        rewrite joinSlash_app by discriminate.
        rewrite (joinSlash_cons [] segs) by exact Hsne.
        rewrite <- app_assoc. reflexivity.
      + apply Forall_app. split; [apply plainName_sepFree, Hdir|].
        constructor; [|exact Hsegs].
        split; apply not_elem_of_nil.
      + inversion Hdir as [|? ? (H & _) _]; exact H.
      + destruct segs as [|l ls _] using rev_ind; [congruence|].
        change ((d :: dir) ++ [] :: ls ++ [l])
          with ((d :: dir) ++ ([] :: ls) ++ [l]).
        rewrite app_assoc, last_snoc. rewrite last_snoc in Hlast. exact Hlast.
      + rewrite walk_app, (walk_plain (d :: dir) [] Hdir).
        cbn [mbind option_bind app]. exact Hw. }
  destruct Hjoin as (segs' & -> & Hs' & Hhd' & Hlast' & Hw').
  destruct (posix_normalize_walk segs' stack Hs' Hhd' Hlast' Hw') as [-> Hst].
  split; [|exact Hst].
  destruct stack as [|t stack]; [reflexivity|].
  pose proof (joinSlash_no_backslash _ (plainName_sepFree _ Hst)) as Hb.
  rewrite (normalize_id _ Hb).
  rewrite posix_normalize_plain by (auto; discriminate).
  apply normalize_id, Hb.
Qed.

Lemma trimStart_id (s : jsstring) :
  (forall c, head s = Some c -> is_space c = false) -> trimStart s = s.
Proof.
  destruct s as [|c s]; [reflexivity|]. intros H. cbn [trimStart].
  rewrite (H c eq_refl). reflexivity.
Qed.

Lemma trim_id (s : jsstring) :
  (forall c, head s = Some c -> is_space c = false) ->
  (forall c, last s = Some c -> is_space c = false) ->
  trim s = s.
Proof.
  intros Hh Hl. unfold trim. rewrite (trimStart_id s Hh).
  rewrite trimStart_id; [apply rev_involutive|].
  intros c Hc. apply Hl.
  destruct s as [|d s _] using rev_ind; [discriminate|].
  rewrite rev_app_distr in Hc. cbn in Hc. injection Hc as ->.
  apply last_snoc.
Qed.

Lemma plainRef_head (href : jsstring) :
  plainRef href ->
  exists c r, href = c :: r /\ c <> SLASH /\ is_space c = false.
Proof.
  intros [H _]. destruct href as [|c r]; [destruct H|].
  exists c, r. destruct H. auto.
Qed.

(** A reference without white space around it, without fragment, query
    and escape, and without a leading slash is its own cleaned form. *)
Lemma cleanRef_id (href : jsstring) :
  plainRef href -> (HASH ∉ href) -> (QMARK ∉ href) -> (PERCENT ∉ href) ->
  (forall c, last href = Some c -> is_space c = false) ->
  cleanRef href = href.
Proof.
  intros Hp Hh Hq Hpc Hl.
  destruct (plainRef_head href Hp) as (c & r & -> & Hc & Hsp).
  unfold cleanRef. rewrite trim_id; [|intros ? [= <-]; exact Hsp | exact Hl].
  unfold stripQueryAndHash.
  rewrite (split_first_id HASH _ Hh), (split_first_id QMARK _ Hq).
  unfold decodeRef, Uri.decodeURI.
  rewrite decode_loop_plain by (auto; lia).
  cbn [default from_option id startsWith].
  destruct (N.eqb_spec SLASH c); [congruence | reflexivity].
Qed.

Lemma plainRef_segments (segs : list jsstring) :
  plainRef (joinSlash segs) -> hd [] segs <> [].
Proof.
  intros H. destruct (plainRef_head _ H) as (c & r & E & Hc & _).
  destruct segs as [|[|d s] rest]; cbn [hd]; [discriminate E | | discriminate].
  destruct rest; [discriminate E|].
  rewrite joinSlash_cons in E by discriminate.
  injection E as <- _. congruence.
Qed.

(** Without a content root, a reference made of segments resolves to the
    member the segments lead to from the directory of the referencing
    member: empty segments and [.] stay, [..] goes up one directory, a
    name goes down.  The result is [.] when the walk ends in the top
    directory. *)
Theorem plain_reference_walks_from_the_document
    (cwd : jsstring) (dir segs stack : list jsstring) (name : jsstring) :
  let href := joinSlash segs in
  Forall plainName dir -> sepFree name ->
  Forall sepFree segs -> last segs <> Some [] ->
  plainRef href ->
  (HASH ∉ href) -> (QMARK ∉ href) -> (PERCENT ∉ href) ->
  (forall c, last href = Some c -> is_space c = false) ->
  walk dir segs = Some stack ->
  resolveRef cwd (joinSlash (dir ++ [name])) (Some href) []
  = match stack with [] => js "." | _ :: _ => joinSlash stack end.
Proof.
  intros href Hdir Hname Hsegs Hlast Hp Hh Hq Hpc Hl Hw.
  rewrite resolveRef_unfold.
  destruct (plainRef_head href Hp) as (c & r & E & _).
  destruct Hp as (Hp0 & Hurl & Hdata).
  rewrite E at 1. cbn [is_empty]. rewrite Hurl, Hdata. cbn [orb].
  unfold escapesRoot. cbn [is_empty negb andb].
  rewrite cleanRef_id; try assumption; [|repeat split; assumption].
  apply (resolveClean_walk dir segs stack name); try assumption.
  apply plainRef_segments. repeat split; assumption.
Qed.

Lemma plain_reference_walks_from_the_document_witness :
  resolveRef (js "/srv/app") (js "OEBPS/text/ch1.xhtml")
             (Some (js "../images//./a.png")) []
  = js "OEBPS/images/a.png".
Proof.
  apply (plain_reference_walks_from_the_document
           (js "/srv/app") [js "OEBPS"; js "text"]
           [js ".."; js "images"; []; js "."; js "a.png"]
           [js "OEBPS"; js "images"; js "a.png"] (js "ch1.xhtml"));
    try (vm_compute; reflexivity);
    try (vm_compute; congruence);
    try (refine (bool_decide_unpack _ _); vm_compute; exact I).
  intros c Hc. vm_compute in Hc. injection Hc as <-. reflexivity.
Defined.

(** ** The containment check on paths of plain segments *)

Lemma split_id (sep : N) (s : jsstring) : sep ∉ s -> split sep s = [s].
Proof.
  induction s as [|c s IH]; intros H; [reflexivity|].
  apply not_elem_of_cons in H as [Hc Hs]. cbn [split].
  destruct (N.eqb_spec c sep); [congruence|].
  rewrite (IH Hs). reflexivity.
Qed.

Lemma split_app_sep (sep : N) (a b : jsstring) :
  sep ∉ a -> split sep (a ++ sep :: b) = a :: split sep b.
Proof.
  induction a as [|c a IH]; intros H; cbn [app split].
  - rewrite N.eqb_refl. reflexivity.
  - apply not_elem_of_cons in H as [Hc Ha].
    destruct (N.eqb_spec c sep); [congruence|].
    rewrite (IH Ha). reflexivity.
Qed.

Lemma split_joinSlash (segs : list jsstring) :
  Forall (fun s => SLASH ∉ s) segs -> segs <> [] ->
  split SLASH (joinSlash segs) = segs.
Proof.
  induction 1 as [|s rest Hs _ IH]; intros Hne; [congruence|].
  destruct rest as [|s' rest]; [apply split_id; exact Hs|].
  rewrite joinSlash_cons by discriminate.
  rewrite split_app_sep by exact Hs. rewrite IH by discriminate. reflexivity.
Qed.

Lemma split_joinSlash_app (segs : list jsstring) (rest : jsstring) :
  Forall (fun s => SLASH ∉ s) segs -> segs <> [] ->
  split SLASH (joinSlash segs ++ SLASH :: rest) = segs ++ split SLASH rest.
Proof.
  induction 1 as [|s more Hs _ IH]; intros Hne; [congruence|].
  destruct more as [|s' more].
  - cbn [joinSlash app]. apply split_app_sep. exact Hs.
  - rewrite joinSlash_cons by discriminate. rewrite <- app_assoc.
    cbn [app]. rewrite split_app_sep by exact Hs.
    rewrite IH by discriminate. reflexivity.
Qed.

(** [path.posix.resolve] of a relative text under a working directory of
    plain names is the walk of its segments from that directory. *)
Lemma resolve_plain (cwdNames psegs st : list jsstring) :
  Forall plainName cwdNames -> Forall sepFree psegs -> hd [] psegs <> [] ->
  walk cwdNames psegs = Some st ->
  Posix.resolve (SLASH :: joinSlash cwdNames) [joinSlash psegs]
  = SLASH :: joinSlash st.
Proof.
  intros Hc Hp Hhd Hw.
  destruct psegs as [|p psegs]; [cbn in Hhd; congruence|]. cbn [hd] in Hhd.
  assert (Hps : SLASH ∉ p) by (inversion Hp as [|? ? [H _] _]; exact H).
  assert (He : is_empty (joinSlash (p :: psegs)) = false).
  { destruct p; [congruence|]. destruct psegs; reflexivity. }
  unfold Posix.resolve.
  change (rev [joinSlash (p :: psegs)] ++ [SLASH :: joinSlash cwdNames])
    with [joinSlash (p :: psegs); SLASH :: joinSlash cwdNames].
  cbn [Posix.resolve_loop]. rewrite He, (startsWith_joinSlash p psegs Hhd Hps).
  cbn [is_empty startsWith]. rewrite N.eqb_refl. cbn [andb negb].
  f_equal.
  assert (E : exists all,
    (SLASH :: joinSlash cwdNames)
      ++ SLASH :: joinSlash (p :: psegs) ++ [SLASH] = joinSlash all
    /\ all <> [] /\ Forall sepFree all /\ walk [] all = Some st).
  { assert (Hsnoc : joinSlash ((p :: psegs) ++ [[]])
                    = joinSlash (p :: psegs) ++ [SLASH])
      by (rewrite joinSlash_snoc; reflexivity).
    assert (Hnil : sepFree []) by (split; apply not_elem_of_nil).
    assert (Hwalk : walk cwdNames ((p :: psegs) ++ [[]]) = Some st)
      by (rewrite walk_app, Hw; reflexivity).
    assert (Hfree : Forall sepFree ((p :: psegs) ++ [[]]))
      by (apply Forall_app; split; [exact Hp | constructor; [exact Hnil|constructor]]).
    destruct cwdNames as [|c cwdNames].
    - exists ([] :: [] :: (p :: psegs) ++ [[]]).
      split; [|split; [discriminate|split]].
      + rewrite <- Hsnoc. reflexivity.
      + constructor; [exact Hnil|]. constructor; [exact Hnil | exact Hfree].
      + exact Hwalk.
    - exists ([] :: (c :: cwdNames) ++ (p :: psegs) ++ [[]]).
      split; [|split; [discriminate|split]].
      + rewrite <- Hsnoc.
        rewrite (joinSlash_cons [] ((c :: cwdNames) ++ _)) by discriminate.
        rewrite (joinSlash_app (c :: cwdNames) ((p :: psegs) ++ [[]]))
          by discriminate.
        reflexivity.
      + constructor; [exact Hnil|]. apply Forall_app.
        split; [apply plainName_sepFree, Hc | exact Hfree].
      + change (walk [] ([] :: (c :: cwdNames) ++ (p :: psegs) ++ [[]]))
          with (walk [] ((c :: cwdNames) ++ (p :: psegs) ++ [[]])).
        rewrite walk_app, (walk_plain (c :: cwdNames) [] Hc).
        exact Hwalk. }
  destruct E as (all & -> & Hne & Hall & Hwall).
  destruct (normalizeString_walk false all st Hne Hall Hwall) as [-> _].
  reflexivity.
Qed.

Lemma common_loop_prefix (F rest : jsstring) (n : nat) : forall i lcs,
  (i + n <= length F)%nat ->
  exists lcs',
    Posix.common_loop (SLASH :: F) (SLASH :: F ++ rest) n i lcs
    = ((i + n)%nat, lcs').
Proof.
  induction n as [|n IH]; intros i lcs H; cbn [Posix.common_loop].
  - exists lcs. rewrite Nat.add_0_r. reflexivity.
  - change ((SLASH :: F) !! (1 + i)%nat) with (F !! i).
    change ((SLASH :: F ++ rest) !! (1 + i)%nat) with ((F ++ rest) !! i).
    destruct (lookup_lt_is_Some_2 F i) as [a Ha]; [lia|].
    rewrite (lookup_app_l_Some _ _ _ _ Ha), Ha, N.eqb_refl.
    destruct (IH (S i) (if a =? SLASH then Z.of_nat i else lcs))
      as [lcs' ->]; [lia|].
    exists lcs'. f_equal. lia.
Qed.

(** [path.posix.relative] between two resolved paths of which the first is
    the second or a directory above it. *)
Lemma relative_under (cwd from to F : jsstring) :
  from <> to -> Posix.resolve cwd [from] = SLASH :: F ->
  (Posix.resolve cwd [to] = SLASH :: F -> Posix.relative cwd from to = [])
  /\ (forall jm, Posix.resolve cwd [to] = SLASH :: F ++ SLASH :: jm ->
        Posix.relative cwd from to = jm).
Proof.
  intros Hne HF. unfold Posix.relative, jsstring_eqb.
  rewrite (bool_decide_eq_false_2 _ Hne), HF. split.
  - intros ->. rewrite bool_decide_eq_true_2 by reflexivity. reflexivity.
  - intros jm ->.
    rewrite bool_decide_eq_false_2.
    2:{ intros E. injection E as E. apply (f_equal length) in E.
        rewrite length_app in E. cbn [length] in E. lia. }
    cbn [length]. rewrite !Nat.sub_succ, !Nat.sub_0_r.
    assert (Hlt : (length F <? length (F ++ SLASH :: jm))%nat = true).
    { apply Nat.ltb_lt. rewrite length_app. cbn [length]. lia. }
    rewrite Hlt.
    destruct (common_loop_prefix F (SLASH :: jm) (length F) 0 (-1)%Z)
      as [lcs ->]; [lia|].
    cbn [Nat.add]. rewrite Nat.eqb_refl. cbn [andb].
    rewrite bool_decide_eq_true_2.
    2:{ change ((SLASH :: F ++ SLASH :: jm) !! S (length F))
          with ((F ++ SLASH :: jm) !! length F).
        apply list_lookup_middle. reflexivity. }
    change (drop (S (length F + 1)) (SLASH :: F ++ SLASH :: jm))
      with (drop (length F + 1) (F ++ SLASH :: jm)).
    rewrite drop_app_add' by reflexivity. rewrite ?Hlt. reflexivity.
Qed.

Lemma startsWith_dotdot_joinSlash (m : jsstring) (more : list jsstring) :
  plainName m ->
  startsWith (joinSlash (m :: more)) (js "..") = startsWith m (js "..").
Proof.
  intros (H0 & _ & H1 & _).
  destruct more as [|m' more]; [reflexivity|].
  rewrite joinSlash_cons by discriminate.
  destruct m as [|c1 [|c2 m]]; [congruence| |reflexivity].
  change (js "..") with [DOT; DOT]. cbn [app startsWith].
  destruct (N.eqb_spec DOT c1) as [<-|]; [|reflexivity].
  exfalso. apply H1. reflexivity.
Qed.

Lemma last_joinSlash_not_slash (stack : list jsstring) :
  Forall plainName stack -> last (joinSlash stack) <> Some SLASH.
Proof.
  intros H. destruct stack as [|s stack _] using rev_ind; [discriminate|].
  apply Forall_app in H as [_ Hs].
  inversion Hs as [|? ? (H0 & (Hsl & _) & _) _]; subst.
  destruct s as [|c s _] using rev_ind; [congruence|].
  apply not_elem_of_app in Hsl as [_ Hc].
  apply not_elem_of_cons in Hc as [Hc _].
  rewrite joinSlash_snoc.
  destruct stack as [|t stack].
  - rewrite last_snoc. congruence.
  - change (joinSlash (t :: stack) ++ SLASH :: s ++ [c])
      with (joinSlash (t :: stack) ++ (SLASH :: s) ++ [c]).
    rewrite app_assoc, last_snoc. congruence.
Qed.

(** Under a content root made of plain directory names, take a reference
    made of segments whose walk from the directory of the referencing
    member never climbs above the top directory of the archive.  It is
    resolved exactly when that walk ends at the root directory or below
    it; one case apart: a member below the root whose first name under the
    root begins with two dots is dropped, because the relative path from
    the root then begins with two dots as well.  A walk that climbs above
    the top directory is not covered. *)
Theorem scoped_reference_is_kept_under_the_root
    (cwdNames rootNames dir segs stack : list jsstring) (name : jsstring) :
  let cwd := SLASH :: joinSlash cwdNames in
  let root := joinSlash rootNames ++ [SLASH] in
  let href := joinSlash segs in
  let result := resolveRef cwd (joinSlash (dir ++ [name])) (Some href) root in
  Forall plainName cwdNames ->
  Forall plainName rootNames -> rootNames <> [] ->
  Forall plainName dir -> sepFree name ->
  Forall sepFree segs -> last segs <> Some [] ->
  plainRef href ->
  (HASH ∉ href) -> (QMARK ∉ href) -> (PERCENT ∉ href) ->
  (forall c, last href = Some c -> is_space c = false) ->
  walk dir segs = Some stack ->
  (stack = rootNames -> result = joinSlash rootNames)
  /\ (forall m more, stack = rootNames ++ m :: more ->
        result = if startsWith m (js "..") then [] else joinSlash stack)
  /\ ((forall more, stack <> rootNames ++ more) -> result = []).
Proof.
  intros cwd root href result Hcwd Hroot Hrne Hdir Hname Hsegs Hlast
         Hp Hh Hq Hpc Hl Hw.
  subst result href. rewrite resolveRef_unfold.
  destruct (plainRef_head _ Hp) as (c & r & E & _).
  pose proof Hp as (_ & Hurl & Hdata).
  assert (He : is_empty (joinSlash segs) = false) by (rewrite E; reflexivity).
  rewrite He, Hurl, Hdata. cbn [orb].
  rewrite cleanRef_id by assumption.
  destruct (resolveClean_walk dir segs stack name Hdir Hname Hsegs
              (plainRef_segments segs Hp) Hlast Hw) as [-> Hst].
  set (abs := match stack with [] => js "." | _ :: _ => joinSlash stack end).
  assert (Hrootne : joinSlash rootNames <> []).
  { apply joinSlash_nonempty; [|exact Hrne].
    eapply Forall_impl; [exact Hroot|]. intros x (H & _). exact H. }
  assert (Hrootb : BACKSLASH ∉ root).
  { unfold root. rewrite elem_of_app, elem_of_cons.
    intros [H | [H | H]]; [|discriminate H | inversion H].
    exact (joinSlash_no_backslash _ (plainName_sepFree _ Hroot) H). }
  assert (HF : Posix.resolve cwd [root]
               = SLASH :: joinSlash (cwdNames ++ rootNames)).
  { unfold root. replace (joinSlash rootNames ++ [SLASH])
      with (joinSlash (rootNames ++ [[]]))
      by (rewrite joinSlash_snoc; destruct rootNames; [congruence|reflexivity]).
    apply resolve_plain; [exact Hcwd | | |].
    - apply Forall_app. split; [apply plainName_sepFree, Hroot|].
      constructor; [split; apply not_elem_of_nil | constructor].
    - destruct Hroot as [|x l (H & _) _]; [congruence | exact H].
    - rewrite walk_app, (walk_plain rootNames cwdNames Hroot). reflexivity. }
  assert (HT : Posix.resolve cwd [abs]
               = SLASH :: joinSlash (cwdNames ++ stack)).
  { subst abs. destruct stack as [|t stack].
    - change (js ".") with (joinSlash [js "."]).
      apply resolve_plain; [exact Hcwd | | discriminate |].
      + constructor; [|constructor].
        split; intros H; apply list_elem_of_In in H; cbv in H;
          intuition discriminate.
      + rewrite app_nil_r. reflexivity.
    - apply resolve_plain; [exact Hcwd | apply plainName_sepFree, Hst | |].
      + inversion Hst as [|? ? (H & _) _]; exact H.
      + apply walk_plain, Hst. }
  assert (Hne : root <> abs).
  { intros Heq. assert (Hlr : last root = Some SLASH) by apply last_snoc.
    rewrite Heq in Hlr. subst abs. destruct stack as [|t stack].
    - discriminate Hlr.
    - exact (last_joinSlash_not_slash _ Hst Hlr). }
  unfold escapesRoot.
  assert (Hre : is_empty root = false)
    by (unfold root; destruct (joinSlash rootNames); reflexivity).
  rewrite Hre, (normalize_id root Hrootb). cbn [negb andb].
  destruct (relative_under cwd root abs _ Hne HF) as [Hsame Hbelow].
  assert (Hallne : joinSlash (cwdNames ++ rootNames) <> []).
  { apply joinSlash_nonempty.
    - apply Forall_app. split; (eapply Forall_impl; [eassumption|]);
        intros x (H & _); exact H.
    - destruct cwdNames; [exact Hrne | discriminate]. }
  assert (Hfree : forall l, Forall plainName l ->
                            Forall (fun s => SLASH ∉ s) (cwdNames ++ l)).
  { intros l Hl'. apply Forall_app.
    split; (eapply Forall_impl; [eassumption|]);
      intros x (_ & (H & _) & _); exact H. }
  split; [|split].
  - intros ->. rewrite (Hsame HT). cbn [startsWith].
    subst abs. destruct rootNames; [congruence | reflexivity].
  - intros m more ->.
    assert (Hm : plainName m).
    { apply Forall_app in Hst as [_ Hst]. inversion Hst; assumption. }
    rewrite (Hbelow (joinSlash (m :: more))).
    + rewrite (startsWith_dotdot_joinSlash m more Hm).
      subst abs. destruct (rootNames ++ m :: more) eqn:Eq; [|reflexivity].
      destruct rootNames; discriminate Eq.
    + rewrite HT, app_assoc.
      rewrite joinSlash_app; [reflexivity | | discriminate].
      destruct cwdNames; [exact Hrne | discriminate].
  - intros Hout.
    destruct (startsWith (Posix.relative cwd root abs) (js "..")) eqn:Hrel;
      [reflexivity | exfalso].
    apply relative_inside in Hrel; [|reflexivity].
    rewrite HF, HT in Hrel.
    assert (Hsne : cwdNames ++ stack <> [] \/ cwdNames ++ stack = [])
      by (destruct (cwdNames ++ stack); [right | left]; congruence).
    pose proof (Hfree _ Hst) as Hf1. pose proof (Hfree _ Hroot) as Hf2.
    assert (Hn2 : cwdNames ++ rootNames <> [])
      by (destruct cwdNames; [exact Hrne | discriminate]).
    destruct Hrel as [H | [[rest H] | [H _]]].
    + injection H as H. destruct Hsne as [Hsne | Hnil].
      * apply (f_equal (split SLASH)) in H.
        rewrite (split_joinSlash _ Hf1 Hsne), (split_joinSlash _ Hf2 Hn2)
          in H.
        apply app_inv_head in H. apply (Hout []). rewrite app_nil_r. exact H.
      * rewrite Hnil in H. cbn in H. congruence.
    + injection H as H. destruct Hsne as [Hsne | Hnil].
      * apply (f_equal (split SLASH)) in H.
        rewrite (split_joinSlash_app _ rest Hf2 Hn2),
                (split_joinSlash _ Hf1 Hsne) in H.
        rewrite <- app_assoc in H. apply app_inv_head in H.
        exact (Hout _ H).
      * rewrite Hnil in H. apply (f_equal length) in H.
        rewrite length_app in H. cbn [joinSlash length] in H. lia.
    + injection H as H. congruence.
Qed.

Lemma scoped_reference_is_kept_under_the_root_witness :
  resolveRef (js "/srv/app") (js "OEBPS/text/ch1.xhtml")
             (Some (js "../images/a.png")) (js "OEBPS/")
  = js "OEBPS/images/a.png"
  /\ resolveRef (js "/srv/app") (js "OEBPS/text/ch1.xhtml")
                (Some (js "../..cache/a.png")) (js "OEBPS/")
     = [].
Proof.
  split.
  - refine (proj1 (proj2 (scoped_reference_is_kept_under_the_root
                [js "srv"; js "app"] [js "OEBPS"] [js "OEBPS"; js "text"]
                [js ".."; js "images"; js "a.png"]
                [js "OEBPS"; js "images"; js "a.png"] (js "ch1.xhtml")
                _ _ _ _ _ _ _ _ _ _ _ _ _))
              (js "images") [js "a.png"] eq_refl);
      try (vm_compute; reflexivity);
      try (vm_compute; congruence);
      try (refine (bool_decide_unpack _ _); vm_compute; exact I).
    intros c Hc. vm_compute in Hc. injection Hc as <-. reflexivity.
  - refine (proj1 (proj2 (scoped_reference_is_kept_under_the_root
                [js "srv"; js "app"] [js "OEBPS"] [js "OEBPS"; js "text"]
                [js ".."; js "..cache"; js "a.png"]
                [js "OEBPS"; js "..cache"; js "a.png"] (js "ch1.xhtml")
                _ _ _ _ _ _ _ _ _ _ _ _ _))
              (js "..cache") [js "a.png"] eq_refl);
      try (vm_compute; reflexivity);
      try (vm_compute; congruence);
      try (refine (bool_decide_unpack _ _); vm_compute; exact I).
    intros c Hc. vm_compute in Hc. injection Hc as <-. reflexivity.
Defined.

(** ** Root containment *)

Lemma resolve_names (cwdNames stack : list jsstring) (slash : bool) :
  Forall plainName cwdNames -> Forall plainName stack -> stack <> [] ->
  Posix.resolve (SLASH :: joinSlash cwdNames)
                [joinSlash stack ++ (if slash then [SLASH] else [])]
  = SLASH :: joinSlash (cwdNames ++ stack).
Proof.
  intros Hc Hs Hne.
  assert (Hhd : forall more, hd [] (stack ++ more) <> []).
  { intros more. destruct Hs as [|x l (H & _) _]; [congruence | exact H]. }
  destruct slash.
  - replace (joinSlash stack ++ [SLASH]) with (joinSlash (stack ++ [[]]))
      by (rewrite joinSlash_snoc; destruct stack; [congruence|reflexivity]).
    apply resolve_plain; [exact Hc | | apply Hhd |].
    + apply Forall_app. split; [apply plainName_sepFree, Hs|].
      constructor; [split; apply not_elem_of_nil | constructor].
    + rewrite walk_app, (walk_plain stack cwdNames Hs). reflexivity.
  - rewrite app_nil_r.
    apply resolve_plain; [exact Hc | apply plainName_sepFree, Hs | |].
    + rewrite <- (app_nil_r stack). apply Hhd.
    + apply walk_plain, Hs.
Qed.

(** Between two resolved paths of plain names, [beneath] is the prefix
    order of the names. *)
Lemma beneath_names (cwdNames rootNames stack : list jsstring) :
  Forall plainName cwdNames -> Forall plainName rootNames ->
  Forall plainName stack -> rootNames <> [] ->
  beneath (SLASH :: joinSlash (cwdNames ++ rootNames))
          (SLASH :: joinSlash (cwdNames ++ stack)) ->
  exists more, stack = rootNames ++ more.
Proof.
  intros Hc Hroot Hst Hrne Hb.
  assert (Hfree : forall l, Forall plainName l ->
                            Forall (fun s => SLASH ∉ s) (cwdNames ++ l)).
  { intros l Hl. apply Forall_app.
    split; (eapply Forall_impl; [eassumption|]);
      intros x (_ & (H & _) & _); exact H. }
  pose proof (Hfree _ Hst) as Hf1. pose proof (Hfree _ Hroot) as Hf2.
  assert (Hn2 : cwdNames ++ rootNames <> [])
    by (destruct cwdNames; [exact Hrne | discriminate]).
  assert (Hallne : joinSlash (cwdNames ++ rootNames) <> []).
  { apply joinSlash_nonempty; [|exact Hn2].
    apply Forall_app. split; (eapply Forall_impl; [eassumption|]);
      intros x (H & _); exact H. }
  assert (Hsne : cwdNames ++ stack <> [] \/ cwdNames ++ stack = [])
    by (destruct (cwdNames ++ stack); [right | left]; congruence).
  destruct Hb as [H | [[rest H] | [H _]]].
  - injection H as H. destruct Hsne as [Hsne | Hnil].
    + apply (f_equal (split SLASH)) in H.
      rewrite (split_joinSlash _ Hf1 Hsne), (split_joinSlash _ Hf2 Hn2) in H.
      apply app_inv_head in H. exists []. rewrite app_nil_r. exact H.
    + rewrite Hnil in H. cbn in H. congruence.
  - injection H as H. destruct Hsne as [Hsne | Hnil].
    + apply (f_equal (split SLASH)) in H.
      rewrite (split_joinSlash_app _ rest Hf2 Hn2),
              (split_joinSlash _ Hf1 Hsne) in H.
      rewrite <- app_assoc in H. apply app_inv_head in H. eauto.
    + rewrite Hnil in H. apply (f_equal length) in H.
      rewrite length_app in H. cbn [joinSlash length] in H. lia.
  - injection H as H. congruence.
Qed.

(** C2 (as amended) -- root containment.  Under a non-empty root, a
    reference whose resolved path has a relative path from the root that
    begins with [..] is Unresolvable.  When the root is a path of directory
    names closed by a slash and the resolved path is a path of names,
    without a [..] segment, every result that is not Unresolvable is that
    resolved path, and it is the root directory itself, written without
    the closing slash, or begins with the root. *)
Theorem resolveRef_root_containment (cwd base href root : jsstring) :
  root <> [] ->
  let abs := resolveClean base (cleanRef href) in
  let result := resolveRef cwd base (Some href) root in
  (startsWith (Posix.relative cwd (normalize root) abs) (js "..") = true ->
   result = [])
  /\ (forall (cwdNames rootNames stack : list jsstring) (slash : bool),
        cwd = SLASH :: joinSlash cwdNames ->
        root = joinSlash rootNames ++ [SLASH] ->
        abs = joinSlash stack ++ (if slash then [SLASH] else []) ->
        Forall plainName cwdNames -> Forall plainName rootNames ->
        Forall plainName stack -> rootNames <> [] -> stack <> [] ->
        result <> [] ->
        result = abs
        /\ (result = joinSlash rootNames
            \/ startsWith result root = true)).
Proof.
  intros Hroot abs result; subst result.
  rewrite resolveRef_unfold; fold abs; unfold escapesRoot.
  apply is_empty_false in Hroot; rewrite Hroot; cbn [negb andb].
  split.
  - intros ->.
    destruct (is_empty href); [reflexivity|].
    destruct (isUrlLike href || startsWith href (js "data:")); reflexivity.
  - intros cwdNames rootNames stack slash Hcwd Hr Habs Hc Hrn Hst Hrne Hsne.
    destruct (is_empty href); [congruence|].
    destruct (isUrlLike href || startsWith href (js "data:")); [congruence|].
    destruct (startsWith (Posix.relative cwd (normalize root) abs) (js ".."))
      eqn:Hrel; [congruence|].
    intros _. split; [reflexivity|].
    assert (Hrootb : normalize root = root).
    { apply normalize_id. rewrite Hr, elem_of_app, elem_of_cons.
      intros [H | [H | H]]; [|discriminate H | inversion H].
      exact (joinSlash_no_backslash _ (plainName_sepFree _ Hrn) H). }
    apply relative_inside in Hrel; [|rewrite Hcwd; reflexivity].
    rewrite Hrootb, Hcwd, Hr, Habs in Hrel.
    rewrite (resolve_names cwdNames rootNames true Hc Hrn Hrne),
            (resolve_names cwdNames stack slash Hc Hst Hsne) in Hrel.
    destruct (beneath_names _ _ _ Hc Hrn Hst Hrne Hrel) as [more ->].
    rewrite Habs, Hr.
    destruct more as [|m more].
    + rewrite app_nil_r. destruct slash.
      * right. rewrite <- (app_nil_r (joinSlash rootNames ++ [SLASH])) at 1.
        apply startsWith_app.
      * left. apply app_nil_r.
    + right. rewrite joinSlash_app by (assumption || discriminate).
      change (SLASH :: joinSlash (m :: more))
        with ([SLASH] ++ joinSlash (m :: more)).
      rewrite app_assoc, <- app_assoc. apply startsWith_app.
Qed.

Lemma resolveRef_root_containment_witness :
  let result := resolveRef (js "/srv/app") (js "OEBPS/text/ch1.xhtml")
                           (Some (js "../images/a.png")) (js "OEBPS/") in
  result = resolveClean (js "OEBPS/text/ch1.xhtml")
                        (cleanRef (js "../images/a.png"))
  /\ (result = joinSlash [js "OEBPS"]
      \/ startsWith result (js "OEBPS/") = true).
Proof.
  assert (Hpl : forall s : jsstring,
            s <> [] -> bool_decide (SLASH ∈ s) = false ->
            bool_decide (BACKSLASH ∈ s) = false ->
            s <> js "." -> s <> js ".." -> plainName s).
  { intros s H0 H1 H2 H3 H4. split; [exact H0|].
    split; [|split; assumption].
    split; intros H; [rewrite (bool_decide_eq_true_2 _ H) in H1
                     | rewrite (bool_decide_eq_true_2 _ H) in H2];
      discriminate. }
  refine (proj2 (resolveRef_root_containment
                   (js "/srv/app") (js "OEBPS/text/ch1.xhtml")
                   (js "../images/a.png") (js "OEBPS/") _)
            [js "srv"; js "app"] [js "OEBPS"]
            [js "OEBPS"; js "images"; js "a.png"] false
            _ _ _ _ _ _ _ _ _);
    try (vm_compute; reflexivity);
    try (intros E; vm_compute in E; discriminate E);
    repeat (constructor;
            [apply Hpl; try (vm_compute; reflexivity);
             intros E; vm_compute in E; discriminate E|]);
    constructor.
Defined.

(** C2, the claim as stated fails: a reference to the root directory
    itself is resolved to the name of that directory, which does not begin
    with the root, since the root ends with a slash. *)
Lemma resolved_path_not_prefixed_by_root :
  resolveRef (js "/srv/app") (js "OEBPS/ch1.xhtml") (Some (js "."))
             (js "OEBPS/") = js "OEBPS"
  /\ js "OEBPS" <> []
  /\ startsWith (js "OEBPS") (js "OEBPS/") = false.
Proof.
  split; [vm_compute; reflexivity|].
  split; [intros E; discriminate E | vm_compute; reflexivity].
Qed.

(** ** The candidates of a [srcset] attribute *)

Lemma split_joinComma (parts : list jsstring) :
  Forall (fun s => COMMA ∉ s) parts -> parts <> [] ->
  split COMMA (joinComma parts) = parts.
Proof.
  induction 1 as [|s rest Hs _ IH]; intros Hne; [congruence|].
  destruct rest as [|s' rest]; [apply split_id; exact Hs|].
  change (joinComma (s :: s' :: rest))
    with (s ++ COMMA :: joinComma (s' :: rest)).
  rewrite split_app_sep by exact Hs. rewrite IH by discriminate. reflexivity.
Qed.

Lemma trimStart_visible (a b : jsstring) (c : N) :
  is_space c = false -> trimStart (a ++ c :: b) = trimStart a ++ c :: b.
Proof.
  intros Hc. induction a as [|d a IH]; cbn [app trimStart].
  - rewrite Hc. reflexivity.
  - destruct (is_space d); [exact IH | reflexivity].
Qed.

(** The first word of a candidate is its address. *)
Lemma first_word_of_candidate (c : candidate) :
  wellFormedCandidate c ->
  split_first SPACE (trim (candidateText c)) = c_url c.
Proof.
  destruct c as [ws u tail]. unfold wellFormedCandidate, candidateText.
  cbn [c_ws c_url c_tail]. intros (Hws & Hne & Hu & _ & Htail).
  assert (Hsp : SPACE ∉ u).
  { intros Hin. rewrite Forall_forall in Hu.
    destruct (Hu _ Hin) as [H _]. discriminate H. }
  destruct u as [|x u0 _] using rev_ind; [congruence|].
  apply Forall_app in Hu as [Hu0 Hx].
  inversion Hx as [|? ? [Hxs _] _]; subst.
  assert (Hhead : trimStart (ws ++ (u0 ++ [x]) ++ tail)
                  = (u0 ++ [x]) ++ tail).
  { rewrite (trimStart_spaces ws _ Hws). apply trimStart_id.
    intros c Hc.
    destruct u0 as [|y u0]; cbn in Hc; injection Hc as <-; [exact Hxs|].
    inversion Hu0 as [|? ? [Hy _] _]; exact Hy. }
  unfold trim. rewrite Hhead.
  rewrite rev_app_distr, rev_app_distr. cbn [rev app].
  rewrite (trimStart_visible (rev tail) (rev u0) x Hxs).
  rewrite rev_app_distr. cbn [rev]. rewrite rev_involutive, <- app_assoc.
  cbn [app].
  set (t := rev (trimStart (rev tail))).
  assert (Ht : t = [] \/ exists d, t = SPACE :: d).
  { subst t. destruct Htail as [-> | [d ->]]; [left; reflexivity|].
    cbn [rev]. destruct (trimStart (rev d ++ [SPACE])) as [|z zs] eqn:E.
    - left. reflexivity.
    - right. destruct (trimStart (rev d)) as [|w ws'] eqn:E'.
      + exfalso.
        assert (Hall : forall l, trimStart l = [] ->
                                 trimStart (l ++ [SPACE]) = []).
        { induction l as [|a l IH]; [reflexivity|]. cbn [trimStart app].
          destruct (is_space a); [exact IH | discriminate]. }
        rewrite (Hall _ E') in E. discriminate E.
      + rewrite trimStart_app in E by congruence.
        rewrite <- E, rev_app_distr. cbn [rev app]. eauto. }
  change (u0 ++ x :: t) with (u0 ++ [x] ++ t). rewrite app_assoc.
  destruct Ht as [-> | [d ->]].
  - rewrite app_nil_r. apply split_first_id. exact Hsp.
  - rewrite split_first_app. apply split_first_id. exact Hsp.
Qed.

(** A [srcset] value made of well-formed candidates, joined by commas,
    gives the address of every candidate, in order: white space before the
    address and a descriptor behind it are dropped. *)
Theorem srcset_candidates_are_read (el : element) (cands : list candidate) :
  Forall wellFormedCandidate cands -> cands <> [] ->
  attr el (js "srcset") = Some (joinComma (map candidateText cands)) ->
  srcsetRefs el = map (fun c => Some (c_url c)) cands.
Proof.
  intros Hwf Hne Hattr. unfold srcsetRefs. rewrite Hattr.
  cbn [orEmpty default from_option id].
  rewrite split_joinComma.
  - rewrite map_map. apply map_ext_Forall.
    eapply Forall_impl; [exact Hwf|]. intros c Hc. cbn beta.
    rewrite (first_word_of_candidate c Hc). reflexivity.
  - apply Forall_map. eapply Forall_impl; [exact Hwf|].
    intros [ws u tail] (Hws & _ & Hu & Ht & _). unfold candidateText.
    cbn [c_ws c_url c_tail] in *.
    rewrite !elem_of_app. intros [H | [H | H]].
    + rewrite forallb_forall in Hws.
      specialize (Hws _ (proj1 (list_elem_of_In _ _) H)). discriminate Hws.
    + rewrite Forall_forall in Hu. destruct (Hu _ H) as [_ Hc]. congruence.
    + exact (Ht H).
  - destruct cands; [congruence | discriminate].
Qed.

Lemma srcset_candidates_are_read_witness :
  srcsetRefs {| attrs := [(js "srcset", js "a.png 1x, img/b.png 2x,c.png")];
                text := [] |}
  = [Some (js "a.png"); Some (js "img/b.png"); Some (js "c.png")].
Proof.
  apply (srcset_candidates_are_read
           {| attrs := [(js "srcset", js "a.png 1x, img/b.png 2x,c.png")];
              text := [] |}
           [ mkCandidate [] (js "a.png") (js " 1x");
             mkCandidate (js " ") (js "img/b.png") (js " 2x");
             mkCandidate [] (js "c.png") [] ]).
  - assert (Hwf : forall ws u tail,
              forallb is_space ws = true -> u <> [] ->
              Forall (fun x => is_space x = false /\ x <> COMMA) u ->
              (COMMA ∉ tail) -> (tail = [] \/ exists d, tail = SPACE :: d) ->
              wellFormedCandidate (mkCandidate ws u tail))
      by (intros; repeat split; assumption).
    constructor; [|constructor; [|constructor; [|constructor]]]; apply Hwf;
      try reflexivity; try discriminate;
      try (refine (bool_decide_unpack _ _); vm_compute; exact I);
      try (left; reflexivity); right; eexists; reflexivity.
  - discriminate.
  - reflexivity.
Defined.

(** ** Joined paths *)

Lemma posix_normalize_walk_abs (segs stack : list jsstring) :
  Forall sepFree segs -> segs <> [] -> last segs <> Some [] ->
  walk [] segs = Some stack -> stack <> [] ->
  Posix.normalize (SLASH :: joinSlash segs) = SLASH :: joinSlash stack.
Proof.
  intros Hsegs Hne Hlast Hw Hst.
  assert (Hnil : sepFree []) by (split; apply not_elem_of_nil).
  assert (E : SLASH :: joinSlash segs = joinSlash ([] :: segs))
    by (rewrite joinSlash_cons by exact Hne; reflexivity).
  destruct (normalizeString_walk false ([] :: segs) stack
              ltac:(discriminate) (Forall_cons_2 _ _ _ Hnil Hsegs) Hw)
    as [Hn Hpl].
  unfold Posix.normalize. cbn [is_empty startsWith].
  rewrite N.eqb_refl. cbn [andb negb]. rewrite E, Hn.
  assert (Hend : endsWith (joinSlash ([] :: segs)) [SLASH] = false).
  { destruct segs as [|l ls _] using rev_ind; [congruence|].
    rewrite last_snoc in Hlast.
    apply Forall_app in Hsegs as [_ Hl].
    inversion Hl as [|? ? [Hl' _] _]; subst.
    change ([] :: ls ++ [l]) with (([] :: ls) ++ [l]).
    apply endsWith_joinSlash; [congruence | exact Hl']. }
  rewrite Hend.
  assert (He : joinSlash stack <> []).
  { apply joinSlash_nonempty; [|exact Hst].
    eapply Forall_impl; [exact Hpl|]. intros x (H & _). exact H. }
  apply is_empty_false in He. rewrite He. reflexivity.
Qed.

(** [path.posix.join] of a directory of plain names, relative or absolute,
    with or without a slash at its end, and of a relative text: the walk of
    the text from the directory. *)
Lemma join_walk (absolute trailing : bool)
    (aNames bsegs stack : list jsstring) :
  Forall plainName aNames -> aNames <> [] ->
  Forall sepFree bsegs -> hd [] bsegs <> [] -> last bsegs <> Some [] ->
  walk aNames bsegs = Some stack -> stack <> [] ->
  Posix.join [(if absolute then [SLASH] else []) ++ joinSlash aNames
                ++ (if trailing then [SLASH] else []);
              joinSlash bsegs]
  = (if absolute then [SLASH] else []) ++ joinSlash stack.
Proof.
  intros Ha Hane Hb Hhd Hlast Hw Hst.
  assert (Hbne : bsegs <> []) by (destruct bsegs; [cbn in Hhd|]; congruence).
  assert (Hb0 : joinSlash bsegs <> []).
  { destruct bsegs as [|[|c s] rest]; cbn [hd] in Hhd; try congruence.
    destruct rest; discriminate. }
  assert (Ha0 : joinSlash aNames <> []).
  { apply joinSlash_nonempty; [|exact Hane].
    eapply Forall_impl; [exact Ha|]. intros x (H & _). exact H. }
  set (mid := if trailing then [[]] else @nil jsstring).
  assert (Htext : joinSlash aNames ++ (if trailing then [SLASH] else [])
                    ++ SLASH :: joinSlash bsegs
                  = joinSlash (aNames ++ mid ++ bsegs)).
  { subst mid. destruct trailing; cbn [app].
    - rewrite joinSlash_app by (auto; discriminate).
      rewrite (joinSlash_cons [] bsegs Hbne). reflexivity.
    - rewrite joinSlash_app by assumption. reflexivity. }
  assert (Hfree : Forall sepFree (aNames ++ mid ++ bsegs)).
  { apply Forall_app. split; [apply plainName_sepFree, Ha|].
    apply Forall_app. split; [|exact Hb].
    subst mid. destruct trailing; constructor; [|constructor].
    split; apply not_elem_of_nil. }
  assert (Hwalk : walk [] (aNames ++ mid ++ bsegs) = Some stack).
  { rewrite walk_app, (walk_plain aNames [] Ha).
    cbn [mbind option_bind app]. rewrite walk_app.
    subst mid. destruct trailing; exact Hw. }
  assert (Hl : last (aNames ++ mid ++ bsegs) <> Some []).
  { destruct bsegs as [|l ls _] using rev_ind; [congruence|].
    rewrite !app_assoc, last_snoc. rewrite last_snoc in Hlast. exact Hlast. }
  unfold Posix.join. rewrite filter_cons.
  destruct (decide ((if absolute then [SLASH] else []) ++ joinSlash aNames
                      ++ (if trailing then [SLASH] else []) <> []))
    as [_|H].
  2:{ exfalso. apply H. destruct absolute; [discriminate|].
      destruct (joinSlash aNames); [congruence | discriminate]. }
  rewrite filter_cons. destruct (decide (joinSlash bsegs <> []));
    [|contradiction].
  cbn [filter list_filter fold_left].
  rewrite <- !app_assoc, Htext.
  destruct absolute; cbn [app].
  - apply posix_normalize_walk_abs; try assumption.
    destruct aNames; [congruence | discriminate].
  - destruct (posix_normalize_walk _ stack Hfree) as [-> _];
      try assumption.
    + destruct aNames as [|a0 aNames]; [congruence|]. cbn [app hd].
      inversion Ha as [|? ? (H & _) _]; exact H.
    + destruct stack; [congruence | reflexivity].
Qed.

(** The display path of an entry: with a base path of plain names,
    relative or absolute, it is the base path, a slash, and the path of
    the member inside the archive. *)
Theorem full_path_is_base_then_member
    (absolute : bool) (baseNames names : list jsstring) :
  let base := (if absolute then [SLASH] else []) ++ joinSlash baseNames in
  Forall plainName baseNames -> baseNames <> [] ->
  Forall plainName names -> names <> [] ->
  buildFullPath (joinSlash names) base = base ++ SLASH :: joinSlash names
  /\ epubBasePathOf (QStr (base ++ [SLASH])) = Some base
  /\ epubBasePathOf (QStr base) = Some base.
Proof.
  intros base Hb Hbne Hn Hnne.
  assert (Hb0 : joinSlash baseNames <> []).
  { apply joinSlash_nonempty; [|exact Hbne].
    eapply Forall_impl; [exact Hb|]. intros x (H & _). exact H. }
  assert (Hbase : is_empty base = false).
  { subst base. destruct absolute; [reflexivity|].
    apply is_empty_false. exact Hb0. }
  assert (Hlast : last base <> Some SLASH /\ last base <> Some BACKSLASH).
  { assert (Hl : last base = last (joinSlash baseNames)).
    { subst base. destruct absolute; [|reflexivity].
      destruct (joinSlash baseNames) as [|c s] using rev_ind; [congruence|].
      change ([SLASH] ++ s ++ [c]) with ((SLASH :: s) ++ [c]).
      rewrite !last_snoc. reflexivity. }
    rewrite Hl. split; [apply last_joinSlash_not_slash, Hb|].
    intros H. apply last_Some in H as [l' H].
    apply (joinSlash_no_backslash baseNames (plainName_sepFree _ Hb)).
    rewrite H. apply elem_of_app. right. left. }
  split; [|split].
  - unfold buildFullPath. rewrite Hbase. subst base.
    pose proof (join_walk absolute false baseNames names (baseNames ++ names)
                  Hb Hbne (plainName_sepFree _ Hn)) as H.
    rewrite app_nil_r in H. rewrite H.
    + rewrite joinSlash_app by assumption. rewrite <- app_assoc. reflexivity.
    + destruct Hn as [|x l (Hx & _) _]; [congruence | exact Hx].
    + destruct names as [|l ls _] using rev_ind; [congruence|].
      rewrite last_snoc. apply Forall_app in Hn as [_ Hl].
      inversion Hl as [|? ? (Hx & _) _]; subst. congruence.
    + apply walk_plain, Hn.
    + destruct baseNames; [congruence | discriminate].
  - cbn [epubBasePathOf].
    assert (is_empty (base ++ [SLASH]) = false) as ->
      by (destruct base; reflexivity).
    rewrite stripTrailingSlash_snoc by (left; reflexivity). reflexivity.
  - cbn [epubBasePathOf]. rewrite Hbase.
    rewrite stripTrailingSlash_id; [reflexivity | apply Hlast..].
Qed.

Lemma full_path_is_base_then_member_witness :
  buildFullPath (js "OEBPS/images/a.png") (js "/books/one")
  = js "/books/one/OEBPS/images/a.png".
Proof.
  refine (proj1 (full_path_is_base_then_member true
                   [js "books"; js "one"]
                   [js "OEBPS"; js "images"; js "a.png"] _ _ _ _));
    try discriminate;
    repeat (constructor; [repeat split; try discriminate;
      refine (bool_decide_unpack _ _); vm_compute; exact I|]);
    constructor.
Defined.

(** ** The manifest-image set of the handler *)

Lemma walk_keeps_plain (dir segs stack : list jsstring) :
  Forall plainName dir -> Forall sepFree segs ->
  walk dir segs = Some stack -> Forall plainName stack.
Proof.
  intros Hd Hs Hw.
  exact (proj2 (fold_segStep_walk true segs dir stack Hd Hs Hw)).
Qed.

(** With the manifest restriction on and a content root of plain
    directory names, the manifest-image set is read from the first member
    under the root whose name ends with [.opf]; it is empty when there is
    none; its members are the declared image addresses joined to the
    content root, and a declared address made of segments stands in the set
    as the path its segments lead to from the root directory. *)
Theorem manifest_set_is_joined_to_the_root
    (rt : Runtime) (files : fileMap) (options : Options)
    (rootNames : list jsstring) (M : gset jsstring) :
  let root := joinSlash rootNames ++ [SLASH] in
  Forall plainName rootNames -> rootNames <> [] ->
  followOpfManifestOnly options = true ->
  manifestAbsOf rt files options root = Some M ->
  (firstPackageDocument files root = None -> M = ∅)
  /\ (forall p, firstPackageDocument files root = Some p ->
        p ∈ map_keys files
        /\ startsWith p root = true
        /\ endsWith (toLowerCase p) (js ".opf") = true
        /\ exists f xml, map_get files p = Some f
           /\ utf8 rt (buffer f) = Some xml
           /\ (forall x, x ∈ M ->
                 exists h, h ∈ getManifestImagesFromOpf rt xml
                           /\ x = normalize (Posix.join [root; normalize h]))
           /\ (forall hsegs stack,
                 joinSlash hsegs ∈ getManifestImagesFromOpf rt xml ->
                 Forall sepFree hsegs ->
                 hd [] hsegs <> [] -> last hsegs <> Some [] ->
                 walk rootNames hsegs = Some stack -> stack <> [] ->
                 joinSlash stack ∈ M)).
Proof.
  intros root Hroot Hrne Hf HM.
  assert (Hrootb : normalize root = root).
  { apply normalize_id. unfold root. rewrite elem_of_app, elem_of_cons.
    intros [H | [H | H]]; [|discriminate H | inversion H].
    exact (joinSlash_no_backslash _ (plainName_sepFree _ Hroot) H). }
  assert (Hre : is_empty root = false)
    by (unfold root; destruct (joinSlash rootNames); reflexivity).
  unfold manifestAbsOf in HM. rewrite Hf, Hre in HM. cbn [andb negb] in HM.
  fold (firstPackageDocument files root) in HM.
  destruct (firstPackageDocument files root) as [p|] eqn:Hfind.
  2:{ split; [intros _; congruence | discriminate]. }
  split; [discriminate|]. intros p' [= <-].
  unfold firstPackageDocument in Hfind.
  apply find_some in Hfind as [Hin Hp].
  apply andb_true_iff in Hp as [Hp1 Hp2].
  apply list_elem_of_In in Hin.
  split; [exact Hin|]. split; [exact Hp1|]. split; [exact Hp2|].
  destruct (key_map_get files p Hin) as [f Hget].
  rewrite Hget, bind_Some in HM.
  destruct (utf8 rt (buffer f)) as [xml|] eqn:Hxml; [|discriminate HM].
  rewrite bind_Some in HM. injection HM as <-.
  exists f, xml. split; [exact Hget|]. split; [exact Hxml|].
  rewrite Hrootb. split.
  - intros x Hx. apply elem_of_map in Hx as (h & -> & Hh). eauto.
  - intros hsegs stack Hh Hs Hhd Hlast Hw Hst.
    apply elem_of_map. exists (joinSlash hsegs). split; [|exact Hh].
    rewrite (normalize_id (joinSlash hsegs))
      by (apply joinSlash_no_backslash, Hs).
    pose proof (join_walk false true rootNames hsegs stack
                  Hroot Hrne Hs Hhd Hlast Hw Hst) as Hj.
    cbn [app] in Hj. fold root in Hj. rewrite Hj.
    symmetry. apply normalize_id, joinSlash_no_backslash, plainName_sepFree.
    exact (walk_keeps_plain rootNames hsegs stack Hroot Hs Hw).
Qed.

Lemma manifest_set_is_joined_to_the_root_witness :
  exists M,
    manifestAbsOf SampleRuns.rtD (default [] (unzipToMap SampleRuns.rtD []))
      (optionsOf SampleRuns.rtD SampleRuns.manifestOnly)
      (joinSlash [js "OEBPS"] ++ [SLASH])
    = Some M
    /\ joinSlash [js "OEBPS"; js "images"; js "a.png"] ∈ M.
Proof.
  assert (Hpl : Forall plainName [js "OEBPS"]).
  { constructor; [|constructor].
    repeat split; try (intros E; vm_compute in E; discriminate E);
      refine (bool_decide_unpack _ _); vm_compute; exact I. }
  assert (Hne : [js "OEBPS"] <> []) by (intros E; discriminate E).
  assert (Hsegs : Forall sepFree [js "images"; js "a.png"]).
  { repeat (constructor; [split;
      refine (bool_decide_unpack _ _); vm_compute; exact I|]); constructor. }
  assert (Hhd : hd [] [js "images"; js "a.png"] <> [])
    by (intros E; vm_compute in E; discriminate E).
  assert (Hlast : last [js "images"; js "a.png"] <> Some [])
    by (intros E; vm_compute in E; discriminate E).
  assert (Hstack : [js "OEBPS"; js "images"; js "a.png"] <> [])
    by (intros E; discriminate E).
  assert (Hwalk : walk [js "OEBPS"] [js "images"; js "a.png"]
                  = Some [js "OEBPS"; js "images"; js "a.png"])
    by (vm_compute; reflexivity).
  assert (Hfo : followOpfManifestOnly
                  (optionsOf SampleRuns.rtD SampleRuns.manifestOnly) = true)
    by (vm_compute; reflexivity).
  assert (Hfind : firstPackageDocument
                    (default [] (unzipToMap SampleRuns.rtD []))
                    (joinSlash [js "OEBPS"] ++ [SLASH])
                  = Some (js "OEBPS/content.opf"))
    by (vm_compute; reflexivity).
  assert (Hget : map_get (default [] (unzipToMap SampleRuns.rtD []))
                         (js "OEBPS/content.opf")
                 = Some {| path := js "OEBPS/content.opf";
                           buffer := js "package document" |})
    by (vm_compute; reflexivity).
  assert (Hxml : utf8 SampleRuns.rtD (js "package document")
                 = Some (js "package document"))
    by (vm_compute; reflexivity).
  assert (Hdecl : joinSlash [js "images"; js "a.png"]
                    ∈ getManifestImagesFromOpf SampleRuns.rtD
                        (js "package document"))
    by (refine (bool_decide_unpack _ _); vm_compute; exact I).
  assert (HMs : is_Some
                  (manifestAbsOf SampleRuns.rtD
                     (default [] (unzipToMap SampleRuns.rtD []))
                     (optionsOf SampleRuns.rtD SampleRuns.manifestOnly)
                     (joinSlash [js "OEBPS"] ++ [SLASH])))
    by (vm_compute; eexists; reflexivity).
  destruct HMs as [M HM].
  exists M. split; [exact HM|].
  destruct (manifest_set_is_joined_to_the_root
              SampleRuns.rtD (default [] (unzipToMap SampleRuns.rtD []))
              (optionsOf SampleRuns.rtD SampleRuns.manifestOnly)
              [js "OEBPS"] M Hpl Hne Hfo HM) as [_ H].
  destruct (H _ Hfind) as (_ & _ & _ & f & xml & Hget' & Hxml' & _ & Hin).
  rewrite Hget in Hget'. injection Hget' as <-.
  cbn [buffer] in Hxml'. rewrite Hxml in Hxml'. injection Hxml' as <-.
  exact (Hin _ _ Hdecl Hsegs Hhd Hlast Hwalk Hstack).
Defined.

(** ** Escapes and the reserved characters *)

Lemma preserved_facts (c : N) :
  Uri.preserved c = true ->
  c <> PERCENT /\ Uri.hexval c = None /\ c < 128.
Proof.
  unfold Uri.preserved. intros H. apply bool_decide_eq_true in H.
  vm_compute (js ";/?:@&=+$,#") in H.
  repeat (apply elem_of_cons in H as [-> | H];
          [split; [discriminate | split; reflexivity]|]).
  apply elem_of_nil in H as [].
Qed.

Lemma parseHexOctet_digits (h1 h2 b : N) :
  Uri.parseHexOctet h1 h2 = Some b ->
  Uri.hexval h1 <> None /\ Uri.hexval h2 <> None.
Proof.
  unfold Uri.parseHexOctet.
  destruct (Uri.hexval h1); [|discriminate].
  destruct (Uri.hexval h2); [|discriminate]. split; discriminate.
Qed.

Lemma count_escape (c h1 h2 b : N) :
  Uri.preserved c = true -> Uri.parseHexOctet h1 h2 = Some b ->
  count_occ N.eq_dec [PERCENT; h1; h2] c = 0%nat.
Proof.
  intros Hc Hb. destruct (preserved_facts c Hc) as (H0 & Hh & _).
  destruct (parseHexOctet_digits _ _ _ Hb) as [H1 H2].
  cbn [count_occ].
  destruct (N.eq_dec PERCENT c); [congruence|].
  destruct (N.eq_dec h1 c); [congruence|].
  destruct (N.eq_dec h2 c); [congruence | reflexivity].
Qed.

Lemma read_escapes_count (c : N) (n : nat) :
  Uri.preserved c = true ->
  forall s os r, Uri.read_escapes n s = Some (os, r) ->
    count_occ N.eq_dec s c = count_occ N.eq_dec r c.
Proof.
  intros Hc. induction n as [|n IH]; intros s os r H;
    cbn [Uri.read_escapes] in H.
  - injection H as _ <-. reflexivity.
  - destruct s as [|p [|h1 [|h2 s']]]; try discriminate.
    destruct (N.eqb_spec p PERCENT) as [->|]; [|discriminate].
    destruct (Uri.parseHexOctet h1 h2) as [b|] eqn:Hb; [|discriminate].
    rewrite bind_Some in H.
    destruct (Uri.read_escapes n s') as [[os' r']|] eqn:Hr; [|discriminate].
    rewrite bind_Some in H. injection H as _ <-.
    change (PERCENT :: h1 :: h2 :: s') with ([PERCENT; h1; h2] ++ s').
    rewrite count_occ_app, (count_escape c h1 h2 b Hc Hb).
    exact (IH _ _ _ Hr).
Qed.

Lemma codePointToUTF16_count (c v : N) :
  c < 128 -> 128 <= v ->
  count_occ N.eq_dec (Uri.codePointToUTF16 v) c = 0%nat.
Proof.
  intros Hc Hv. unfold Uri.codePointToUTF16.
  destruct (v <? 65536); cbn [count_occ].
  - destruct (N.eq_dec v c); [lia | reflexivity].
  - generalize ((v - 65536) / 1024), ((v - 65536) mod 1024). intros x y.
    destruct (N.eq_dec (55296 + x) c) as [E|_]; [lia|].
    destruct (N.eq_dec (56320 + y) c) as [E|_]; [lia | reflexivity].
Qed.

Lemma leading_ones_ascii (b : N) :
  Uri.leading_ones b = 0%nat -> b < 128.
Proof.
  unfold Uri.leading_ones. destruct (N.ltb_spec b 128); [auto|].
  destruct (b <? 192); [discriminate|].
  destruct (b <? 224); [discriminate|].
  destruct (b <? 240); [discriminate|].
  destruct (b <? 248); discriminate.
Qed.

Lemma decode_loop_count (c : N) (fuel : nat) :
  Uri.preserved c = true ->
  forall s d, Uri.decode_loop fuel s = Some d ->
    count_occ N.eq_dec d c = count_occ N.eq_dec s c.
Proof.
  intros Hc. destruct (preserved_facts c Hc) as (Hpc & _ & Hlt).
  induction fuel as [|fuel IH]; intros s d Hd.
  - destruct s; [injection Hd as <-; reflexivity | discriminate].
  - destruct s as [|x s1]; [injection Hd as <-; reflexivity|].
    cbn [Uri.decode_loop] in Hd.
    destruct (N.eqb_spec x PERCENT) as [->|Hx].
    + destruct s1 as [|h1 [|h2 s2]]; try discriminate.
      destruct (Uri.parseHexOctet h1 h2) as [b|] eqn:Hb; [|discriminate].
      rewrite bind_Some in Hd.
      change (PERCENT :: h1 :: h2 :: s2) with ([PERCENT; h1; h2] ++ s2).
      rewrite count_occ_app, (count_escape c h1 h2 b Hc Hb).
      assert (Hmulti : forall n,
        ('(os, s3) ← Uri.read_escapes n s2;
         v ← Uri.utf8_code_point (b :: os);
         r ← Uri.decode_loop fuel s3;
         Some (Uri.codePointToUTF16 v ++ r)) = Some d ->
        count_occ N.eq_dec d c = (0 + count_occ N.eq_dec s2 c)%nat).
      { intros n H.
        destruct (Uri.read_escapes n s2) as [[os s3]|] eqn:He;
          [|discriminate].
        rewrite bind_Some in H.
        destruct (Uri.utf8_code_point (b :: os)) as [v|] eqn:Hv;
          [|discriminate].
        rewrite bind_Some in H.
        destruct (Uri.decode_loop fuel s3) as [r|] eqn:Hr; [|discriminate].
        rewrite bind_Some in H. injection H as <-.
        rewrite count_occ_app, (IH _ _ Hr).
        rewrite (codePointToUTF16_count c v Hlt (utf8_code_point_ge _ _ Hv)).
        rewrite (read_escapes_count c n Hc _ _ _ He). reflexivity. }
      destruct (Uri.leading_ones b) as [|[|[|[|[|n]]]]] eqn:Hl;
        try discriminate; try (exact (Hmulti _ Hd)).
      destruct (Uri.decode_loop fuel s2) as [r|] eqn:Hr; [|discriminate].
      rewrite bind_Some in Hd. injection Hd as <-.
      rewrite count_occ_app, (IH _ _ Hr).
      destruct (Uri.preserved b) eqn:Hp.
      * rewrite (count_escape c h1 h2 b Hc Hb). reflexivity.
      * cbn [count_occ]. destruct (N.eq_dec b c); [congruence | reflexivity].
    + destruct (Uri.decode_loop fuel s1) as [r|] eqn:Hr; [|discriminate].
      rewrite bind_Some in Hd. injection Hd as <-.
      cbn [count_occ]. rewrite (IH _ _ Hr). reflexivity.
Qed.

(** Escapes cannot bring a reserved character into a reference: the
    decoded reference holds each of the characters [; / ? : @ & = + $ , #]
    exactly as often as the raw one, since their escapes stay escaped. *)
Theorem decodeRef_keeps_reserved_characters (ref : jsstring) (c : N) :
  Uri.preserved c = true ->
  count_occ N.eq_dec (decodeRef ref) c = count_occ N.eq_dec ref c.
Proof.
  intros Hc. unfold decodeRef, Uri.decodeURI.
  destruct (Uri.decode_loop (length ref) ref) as [d|] eqn:Hd;
    [|reflexivity].
  exact (decode_loop_count c _ Hc _ _ Hd).
Qed.

Lemma decodeRef_keeps_reserved_characters_witness :
  decodeRef (js "a%2Fb%20c/d.png") = js "a%2Fb c/d.png"
  /\ count_occ N.eq_dec (decodeRef (js "a%2Fb%20c/d.png")) SLASH
     = count_occ N.eq_dec (js "a%2Fb%20c/d.png") SLASH.
Proof.
  split; [vm_compute; reflexivity|].
  apply (decodeRef_keeps_reserved_characters (js "a%2Fb%20c/d.png") SLASH).
  vm_compute. reflexivity.
Defined.

(** * Set completeness *)

Lemma endsWith_hasExtension (p ext : jsstring) :
  endsWith (toLowerCase p) ext = true <-> hasExtension p ext.
Proof.
  unfold endsWith, hasExtension. rewrite startsWith_spec. split.
  - intros [r Hr]. exists (rev r). apply (f_equal (@rev N)) in Hr.
    rewrite rev_involutive, rev_app_distr, rev_involutive in Hr. exact Hr.
  - intros [stem H]. exists (rev stem). rewrite H, rev_app_distr.
    reflexivity.
Qed.

Lemma isMarkupDocument_isDoc (options : Options) (p : jsstring) :
  isMarkupDocument options p -> isDoc options p = true.
Proof.
  unfold isDoc.
  intros [H | [Hi [H | H]]]; apply endsWith_hasExtension in H.
  - cbn [existsb]. rewrite H. reflexivity.
  - rewrite Hi. cbn [existsb]. rewrite H, orb_true_r. reflexivity.
  - rewrite Hi. cbn [existsb]. rewrite H, !orb_true_r. reflexivity.
Qed.

Lemma lower_url_name (kw : jsstring) :
  toLowerCase kw = js "url" ->
  exists u r l, kw = [u; r; l] /\ lower_char u = 117
                /\ lower_char r = 114 /\ lower_char l = 108.
Proof.
  intros H. destruct kw as [|u [|r [|l [|? ?]]]]; try discriminate H.
  change (js "url") with [117; 114; 108] in H.
  injection H as Hu Hr Hl. eauto 10.
Qed.

Lemma matchUrlAt_opens (s : jsstring) (m : jsstring * jsstring) :
  matchUrlAt s = Some m ->
  exists u r l t, s = u :: r :: l :: LPAREN :: t
    /\ lower_char u = 117 /\ lower_char r = 114 /\ lower_char l = 108.
Proof.
  unfold matchUrlAt.
  destruct s as [|u [|r [|l [|p t]]]]; try discriminate.
  destruct (N.eqb_spec (lower_char u) 117) as [Hu|]; [|discriminate].
  destruct (N.eqb_spec (lower_char r) 114) as [Hr|]; [|discriminate].
  destruct (N.eqb_spec (lower_char l) 108) as [Hl|]; [|discriminate].
  destruct (N.eqb_spec p LPAREN) as [->|]; [|discriminate].
  intros _. eauto 10.
Qed.

(** Inside text without the opening of a call, and in front of the name
    of a call, no match of the pattern begins. *)
Lemma callFree_no_match (a b kw t : jsstring) :
  callFree (a ++ b) -> b <> [] -> toLowerCase kw = js "url" ->
  matchUrlAt (b ++ kw ++ t) = None.
Proof.
  intros Hfree Hb Hkw.
  destruct (matchUrlAt _) as [m|] eqn:Hm; [exfalso | reflexivity].
  apply matchUrlAt_opens in Hm as (u & r & l & t' & Hs & Hu & Hr & Hl).
  destruct (lower_url_name kw Hkw) as (k1 & k2 & k3 & -> & H1 & H2 & H3).
  destruct b as [|b1 [|b2 [|b3 [|b4 b']]]]; [congruence| | | |];
    cbn [app] in Hs.
  - injection Hs as -> E _. subst k1. congruence.
  - injection Hs as -> -> E _. subst k1. congruence.
  - injection Hs as -> -> -> E _. subst k1. vm_compute in H1.
    discriminate H1.
  - injection Hs as -> -> -> -> _.
    apply (Hfree a [u; r; l; LPAREN] b' eq_refl).
    cbn [toLowerCase map]. rewrite Hu, Hr, Hl. reflexivity.
Qed.

Lemma scanUrls_skip_free (other s : jsstring) (fuel : nat) :
  (forall a b, other = a ++ b -> b <> [] -> matchUrlAt (b ++ s) = None) ->
  scanUrls (length other + fuel) (other ++ s) = scanUrls fuel s.
Proof.
  induction other as [|c other IH]; intros H; [reflexivity|].
  cbn [length app Nat.add scanUrls].
  pose proof (H [] (c :: other) eq_refl ltac:(discriminate)) as E.
  cbn [app] in E. rewrite E.
  apply IH. intros a b -> Hb. apply (H (c :: a) b); [reflexivity | exact Hb].
Qed.

Lemma readable_isUrlArgChar (arg : jsstring) :
  Forall (fun x => x <> RPAREN /\ x <> 34 /\ x <> 39) arg ->
  forallb isUrlArgChar arg = true.
Proof.
  intros H. apply forallb_forall. intros x Hx.
  rewrite Forall_forall in H.
  destruct (H x (proj2 (list_elem_of_In _ _) Hx)) as (H1 & H2 & H3).
  unfold isUrlArgChar, isQuote.
  apply N.eqb_neq in H1, H2, H3. rewrite H1, H2, H3. reflexivity.
Qed.

(** At a readable call the pattern matches, and the match ends at the
    closing parenthesis of the call. *)
Lemma matchUrlAt_call (c : urlCall) (post : jsstring) :
  readableUrlCall c ->
  matchUrlAt (urlCallText c ++ post) = Some (extractedArg c, post).
Proof.
  destruct c as [kw ws q arg ws'].
  unfold readableUrlCall, isUrlCall, urlCallText, extractedArg.
  cbn [uc_name uc_lead uc_quote uc_arg uc_trail].
  intros [(Hkw & Hws & Hws' & Hne & Hq) Harg].
  destruct (lower_url_name kw Hkw) as (u & r & l & -> & Hu & Hr & Hl).
  pose proof (readable_isUrlArgChar arg Harg) as Hargb.
  assert (Hkey : (lower_char u =? 117) && (lower_char r =? 114)
                 && (lower_char l =? 108) && (LPAREN =? LPAREN) = true).
  { rewrite Hu, Hr, Hl. reflexivity. }
  destruct q as [q|]; cbn [quoteText].
  - destruct Hq as [Hq _].
    assert (Hqq : isQuote q = true) by (destruct Hq as [-> | ->]; reflexivity).
    assert (Hqs : is_space q = false)
      by (destruct Hq as [-> | ->]; reflexivity).
    replace (([u; r; l] ++ [LPAREN] ++ ws ++ [q] ++ arg ++ [q] ++ ws'
                ++ [RPAREN]) ++ post)
      with (u :: r :: l :: LPAREN
              :: ws ++ q :: arg ++ q :: ws' ++ RPAREN :: post)
      by (app_norm; reflexivity).
    unfold matchUrlAt. rewrite Hkey.
    rewrite (spanWhile_app is_space ws
               (q :: arg ++ q :: ws' ++ RPAREN :: post) Hws)
      by (intros ? ? [= <- _]; exact Hqs).
    rewrite Hqq.
    rewrite (spanWhile_app isUrlArgChar arg
               (q :: ws' ++ RPAREN :: post) Hargb)
      by (intros ? ? [= <- _]; unfold isUrlArgChar; rewrite Hqq;
          rewrite orb_true_r; reflexivity).
    destruct arg as [|a arg']; [congruence|]. cbn [app].
    rewrite N.eqb_refl. unfold closeParen.
    rewrite (trimStart_spaces ws' _ Hws'). cbn [app trimStart].
    change (is_space RPAREN) with false. cbv iota.
    rewrite N.eqb_refl. reflexivity.
  - destruct arg as [|c arg']; [congruence|].
    assert (Hsp : is_space c = false)
      by (inversion Hq as [|? ? (H & _) _]; exact H).
    assert (Hall : forallb isUrlArgChar ((c :: arg') ++ ws') = true).
    { rewrite forallb_app, Hargb. cbn [andb].
      apply forallb_forall. intros x Hx. apply is_space_isUrlArgChar.
      rewrite forallb_forall in Hws'. exact (Hws' x Hx). }
    replace (([u; r; l] ++ [LPAREN] ++ ws ++ [] ++ (c :: arg') ++ []
                ++ ws' ++ [RPAREN]) ++ post)
      with (u :: r :: l :: LPAREN
              :: ws ++ ((c :: arg') ++ ws') ++ RPAREN :: post)
      by (app_norm; reflexivity).
    unfold matchUrlAt. rewrite Hkey.
    change (((c :: arg') ++ ws') ++ RPAREN :: post)
      with (c :: (arg' ++ ws') ++ RPAREN :: post).
    rewrite (spanWhile_app is_space ws
               (c :: (arg' ++ ws') ++ RPAREN :: post) Hws)
      by (intros ? ? [= <- _]; exact Hsp).
    pose proof Hargb as Hc. cbn [forallb] in Hc.
    apply andb_true_iff in Hc as [Hc _].
    rewrite (isUrlArgChar_not_quote _ Hc).
    change (c :: (arg' ++ ws') ++ RPAREN :: post)
      with (((c :: arg') ++ ws') ++ RPAREN :: post).
    rewrite (spanWhile_app isUrlArgChar ((c :: arg') ++ ws')
               (RPAREN :: post) Hall)
      by (intros ? ? [= <- _]; reflexivity).
    reflexivity.
Qed.

Lemma extract_call (other : jsstring) (c : urlCall) (post : jsstring) :
  callFree other -> readableUrlCall c ->
  extractUrlsFromCss (other ++ urlCallText c ++ post)
  = extractedArg c :: extractUrlsFromCss post.
Proof.
  intros Hfree Hc. unfold extractUrlsFromCss at 1.
  rewrite length_app, scanUrls_skip_free.
  - apply scanUrls_match; [apply matchUrlAt_call; exact Hc | lia].
  - intros a b -> Hb. unfold urlCallText. rewrite <- app_assoc.
    apply (callFree_no_match a b); [exact Hfree | exact Hb|].
    destruct Hc as [(Hkw & _) _]. exact Hkw.
Qed.

(** The scan of a style text that begins with readable calls yields what
    it takes from each of them, in order. *)
Lemma extract_styleText (items : list (jsstring * urlCall))
    (rest : jsstring) :
  Forall (fun it => callFree (fst it) /\ readableUrlCall (snd it)) items ->
  extractUrlsFromCss (styleText items rest)
  = map (fun it => extractedArg (snd it)) items ++ extractUrlsFromCss rest.
Proof.
  induction 1 as [|[other c] items [Hf Hc] _ IH]; [reflexivity|].
  cbn [styleText map app fst snd] in *.
  rewrite (extract_call other c _ Hf Hc), IH. reflexivity.
Qed.

(** White space behind a reference does not change what it resolves to. *)
Lemma is_space_not_alpha (c : N) : is_space c = true -> is_alpha c = false.
Proof.
  unfold is_space, is_alpha, is_upper, is_lower. intros H.
  repeat (apply orb_true_iff in H as [H | H]);
    repeat match goal with
           | E : (_ && _) = true |- _ => apply andb_true_iff in E as [? ?]
           | E : (_ <=? _) = true |- _ => apply N.leb_le in E
           | E : (_ =? _) = true |- _ => apply N.eqb_eq in E
           end;
    apply orb_false_iff; split; apply andb_false_iff;
    rewrite !N.leb_gt; lia.
Qed.

Lemma startsWith_trailing_space (ws p : jsstring) :
  forallb is_space ws = true -> Forall (fun c => is_space c = false) p ->
  p <> [] ->
  forall a, startsWith (a ++ ws) p = startsWith a p.
Proof.
  intros Hws Hp. induction Hp as [|c p Hc Hp IH]; intros Hne a; [congruence|].
  destruct a as [|d a]; cbn [app].
  - destruct ws as [|w ws]; [reflexivity|]. cbn [startsWith forallb] in *.
    apply andb_true_iff in Hws as [Hw _].
    destruct (N.eqb_spec c w) as [->|]; [congruence | reflexivity].
  - cbn [startsWith]. destruct p as [|c' p]; [reflexivity|].
    rewrite (IH ltac:(discriminate) a). reflexivity.
Qed.

Lemma skipAlpha_trailing_space (ws p : jsstring) :
  forallb is_space ws = true -> Forall (fun c => is_space c = false) p ->
  p <> [] ->
  forall a, startsWith (skipAlpha (a ++ ws)) p = startsWith (skipAlpha a) p.
Proof.
  intros Hws Hp Hne a. induction a as [|c a IH]; cbn [app skipAlpha].
  - destruct ws as [|w ws]; [reflexivity|]. cbn [skipAlpha].
    pose proof Hws as Hw. cbn [forallb] in Hw.
    apply andb_true_iff in Hw as [Hw _].
    rewrite (is_space_not_alpha w Hw).
    exact (startsWith_trailing_space (w :: ws) p Hws Hp Hne []).
  - destruct (is_alpha c); [exact IH|].
    exact (startsWith_trailing_space ws p Hws Hp Hne (c :: a)).
Qed.

Lemma forallb_rev (f : N -> bool) (l : jsstring) :
  forallb f l = true -> forallb f (rev l) = true.
Proof.
  rewrite !forallb_forall. intros H x Hx. apply H, in_rev. exact Hx.
Qed.

Lemma resolveRef_trailing_space (cwd p root : jsstring) (c : N)
    (r ws : jsstring) :
  is_space c = false -> forallb is_space ws = true ->
  resolveRef cwd p (Some ((c :: r) ++ ws)) root
  = resolveRef cwd p (Some (c :: r)) root.
Proof.
  intros Hc Hws. rewrite !resolveRef_unfold.
  assert (Hurl : isUrlLike ((c :: r) ++ ws) = isUrlLike (c :: r)).
  { unfold isUrlLike.
    rewrite (startsWith_trailing_space ws (js "//") Hws)
      by (repeat constructor || discriminate).
    rewrite (skipAlpha_trailing_space ws (js "://") Hws)
      by (repeat constructor || discriminate).
    reflexivity. }
  assert (Hdata : startsWith ((c :: r) ++ ws) (js "data:")
                  = startsWith (c :: r) (js "data:"))
    by (apply startsWith_trailing_space;
        [exact Hws | repeat constructor | discriminate]).
  assert (Htrim : trim ((c :: r) ++ ws) = trim (c :: r)).
  { unfold trim. cbn [app trimStart]. rewrite Hc.
    change (c :: r ++ ws) with ((c :: r) ++ ws).
    rewrite rev_app_distr.
    rewrite (trimStart_spaces (rev ws) _ (forallb_rev _ _ Hws)).
    reflexivity. }
  unfold cleanRef. rewrite Hurl, Hdata, Htrim. reflexivity.
Qed.

Lemma readsUrl_extracted (css r : jsstring) :
  readsUrl css r ->
  exists u, In u (extractUrlsFromCss css)
    /\ forall cwd p root,
         resolveRef cwd p (Some u) root = resolveRef cwd p (Some r) root.
Proof.
  intros (items & rest & other & c & -> & Hall & Hin & <-).
  rewrite (extract_styleText items rest Hall).
  exists (extractedArg c). split.
  - apply in_or_app. left.
    apply (in_map (fun it => extractedArg (snd it)) items (other, c) Hin).
  - rewrite Forall_forall in Hall.
    destruct (Hall _ (proj2 (list_elem_of_In _ _) Hin)) as [_ [Hc _]].
    cbn [snd] in Hc. destruct Hc as (_ & _ & Htrail & Hne & Hq).
    unfold extractedArg. intros cwd p root.
    destruct (uc_quote c); [reflexivity|].
    destruct (uc_arg c) as [|x arg]; [congruence|].
    inversion Hq as [|? ? (Hx & _) _]; subst.
    apply resolveRef_trailing_space; assumption.
Qed.

Lemma srcsetRefs_candidates (el : element) (cands : list candidate) :
  Forall wellFormedCandidate cands -> cands <> [] ->
  attr el (js "srcset") = Some (joinComma (map candidateText cands)) ->
  srcsetRefs el = map (fun c => Some (c_url c)) cands.
Proof.
  intros Hwf Hne Hattr. unfold srcsetRefs. rewrite Hattr.
  cbn [orEmpty default from_option id].
  rewrite split_joinComma.
  - rewrite map_map. apply map_ext_Forall.
    eapply Forall_impl; [exact Hwf|]. intros c Hc. cbn beta.
    rewrite (first_word_of_candidate c Hc). reflexivity.
  - apply Forall_map. eapply Forall_impl; [exact Hwf|].
    intros [ws u tail] (Hws & _ & Hu & Ht & _). unfold candidateText.
    cbn [c_ws c_url c_tail] in *.
    rewrite !elem_of_app. intros [H | [H | H]].
    + rewrite forallb_forall in Hws.
      specialize (Hws _ (proj1 (list_elem_of_In _ _) H)). discriminate Hws.
    + rewrite Forall_forall in Hu. destruct (Hu _ H) as [_ Hc]. congruence.
    + exact (Ht H).
  - destruct cands; [congruence | discriminate].
Qed.

Lemma imageAddress_imageRef (el : element) (r : jsstring) :
  imageAddress el r -> imageRef el = [Some r].
Proof.
  unfold imageRef, orElse.
  intros [[-> Hne] | [[-> | ->] ->]];
    [destruct r; [congruence | reflexivity] | reflexivity | reflexivity].
Qed.

Lemma markupHolds_refs (options : Options) (doc : cheerioDoc)
    (r : jsstring) :
  markupHolds options doc r ->
  exists href,
    In href (flat_map srcRef (doc (js "img[src]"))
             ++ flat_map srcsetRefs (doc (js "[srcset]"))
             ++ flat_map styleRefs (doc (js "[style]"))
             ++ (if includeSvg options
                 then flat_map imageRef (doc (js "image")) else []))
    /\ forall cwd p root,
         resolveRef cwd p href root = resolveRef cwd p (Some r) root.
Proof.
  intros [el Hel Hsrc | el Hel (cands & c & Hattr & Hwf & Hc & <-)
         | el css Hel Hattr Hcss | el Hsvg Hel Himg].
  - exists (Some r). split; [|reflexivity].
    apply in_or_app. left. apply in_flat_map. exists el.
    split; [exact Hel|]. unfold srcRef. rewrite Hsrc. left. reflexivity.
  - exists (Some (c_url c)). split; [|reflexivity].
    apply in_or_app. right. apply in_or_app. left.
    apply in_flat_map. exists el. split; [exact Hel|].
    rewrite (srcsetRefs_candidates el cands Hwf) by
      (exact Hattr || (intros ->; destruct Hc)).
    apply (in_map (fun c => Some (c_url c)) cands c Hc).
  - destruct (readsUrl_extracted css r Hcss) as (u & Hu & Hres).
    exists (Some u). split; [|exact Hres].
    apply in_or_app. right. apply in_or_app. right. apply in_or_app. left.
    apply in_flat_map. exists el. split; [exact Hel|].
    unfold styleRefs. rewrite Hattr. cbn [orEmpty default from_option id].
    apply in_map. exact Hu.
  - exists (Some r). split; [|reflexivity].
    apply in_or_app. right. apply in_or_app. right. apply in_or_app. right.
    rewrite Hsvg. apply in_flat_map. exists el. split; [exact Hel|].
    rewrite (imageAddress_imageRef el r Himg). left. reflexivity.
Qed.

Lemma vectorHolds_refs (doc : cheerioDoc) (r : jsstring) :
  vectorHolds doc r ->
  exists href,
    In href (flat_map imageRef (doc (js "image"))
             ++ flat_map styleTextRefs (doc (js "style")))
    /\ forall cwd p root,
         resolveRef cwd p href root = resolveRef cwd p (Some r) root.
Proof.
  intros [el Hel Himg | el Hel Hcss].
  - exists (Some r). split; [|reflexivity].
    apply in_or_app. left. apply in_flat_map. exists el.
    split; [exact Hel|].
    rewrite (imageAddress_imageRef el r Himg). left. reflexivity.
  - destruct (readsUrl_extracted (text el) r Hcss) as (u & Hu & Hres).
    exists (Some u). split; [|exact Hres].
    apply in_or_app. right. apply in_flat_map. exists el.
    split; [exact Hel|]. unfold styleTextRefs. apply in_map. exact Hu.
Qed.

(** What a scanned document holds is among the raw references the
    collector takes from it, up to white space behind a bare argument. *)
Lemma holdsReference_rawRefs rt (options : Options) (p : jsstring)
    (obj : file) (r : jsstring) :
  holdsReference rt options p obj r ->
  exists href,
    In href (rawRefs rt options p obj)
    /\ forall root,
         resolveRef (cwd rt) p href root
         = resolveRef (cwd rt) p (Some r) root.
Proof.
  intros [html mode doc Hdoc Hutf Hmode Hload Hholds
         | css [Hcss Hext] Hutf Hreads
         | xml doc [Hsvg Hext] Hutf Hload Hholds]; unfold rawRefs.
  - assert (Em : endsWith (toLowerCase p) (js ".xhtml") = mode).
    { destruct (endsWith (toLowerCase p) (js ".xhtml")) eqn:E.
      - apply endsWith_hasExtension, Hmode in E. congruence.
      - destruct mode; [|reflexivity].
        pose proof (proj1 Hmode eq_refl) as Hx.
        apply endsWith_hasExtension in Hx. congruence. }
    destruct (markupHolds_refs options doc r Hholds) as (href & Hin & Hres).
    exists href. split; [|intros root; apply Hres].
    apply in_or_app. left. rewrite (isMarkupDocument_isDoc _ _ Hdoc).
    unfold markupRefs. rewrite Hutf. cbn [mbind option_bind].
    rewrite Em, Hload. exact Hin.
  - destruct (readsUrl_extracted css r Hreads) as (u & Hu & Hres).
    exists (Some u). split; [|intros root; apply Hres].
    apply in_or_app. right. apply in_or_app. left.
    apply endsWith_hasExtension in Hext. unfold isCss. rewrite Hcss, Hext.
    cbn [andb]. unfold cssRefs. rewrite Hutf.
    cbn [default from_option id]. apply in_map. exact Hu.
  - destruct (vectorHolds_refs doc r Hholds) as (href & Hin & Hres).
    exists href. split; [|intros root; apply Hres].
    apply in_or_app. right. apply in_or_app. right.
    apply endsWith_hasExtension in Hext. unfold isSvg. rewrite Hsvg, Hext.
    cbn [andb]. unfold svgRefs. rewrite Hutf. cbn [mbind option_bind].
    rewrite Hload. exact Hin.
Qed.

Lemma callFreeb_sound (s : jsstring) : callFreeb s = true -> callFree s.
Proof.
  induction s as [|c s IH]; intros H a k b Heq Hk.
  - destruct a; [|discriminate Heq]. destruct k; discriminate.
  - cbn [callFreeb] in H. apply andb_true_iff in H as [H1 H2].
    destruct a as [|d a].
    + cbn [app] in Heq. apply negb_true_iff in H1.
      rewrite Heq in H1. unfold toLowerCase in H1, Hk.
      rewrite map_app, Hk, startsWith_app in H1. discriminate H1.
    + injection Heq as _ Heq. exact (IH H2 a k b Heq Hk).
Qed.

(** The stylesheet of scenario C holds the reference the scan reads. *)
Example stylesheet_of_scenario_C_is_read :
  holdsReference SampleRuns.rtC
    (optionsOf SampleRuns.rtC SampleRuns.withCss) (js "css/style.css")
    {| path := js "css/style.css";
       buffer := js "div { background: url('../images/c.png') }" |}
    (js "../images/c.png").
Proof.
  apply (in_stylesheet _ _ _ _ _
           (js "div { background: url('../images/c.png') }")).
  - split; [reflexivity | exists (js "css/style"); reflexivity].
  - reflexivity.
  - exists [ (js "div { background: ",
              {| uc_name := js "url"; uc_lead := []; uc_quote := Some 39;
                 uc_arg := js "../images/c.png"; uc_trail := [] |}) ],
           (js " }"), (js "div { background: "),
           {| uc_name := js "url"; uc_lead := []; uc_quote := Some 39;
              uc_arg := js "../images/c.png"; uc_trail := [] |}.
    split; [reflexivity|]. split; [|split; [left; reflexivity|reflexivity]].
    constructor; [|constructor]. cbn [fst snd]. split.
    + apply callFreeb_sound. vm_compute. reflexivity.
    + assert (Hfree : forall x : N,
                bool_decide (x ∈ js "../images/c.png") = false ->
                x ∉ js "../images/c.png").
      { intros x Hx Hin. rewrite (bool_decide_eq_true_2 _ Hin) in Hx.
        discriminate Hx. }
      split.
      * unfold isUrlCall. cbn [uc_name uc_lead uc_trail uc_arg uc_quote].
        split; [reflexivity|]. split; [reflexivity|]. split; [reflexivity|].
        split; [discriminate|]. split; [right; reflexivity|].
        apply Hfree. vm_compute. reflexivity.
      * cbn [uc_arg]. apply Forall_forall. intros x Hx.
        repeat split; intros ->; revert Hx; apply Hfree; vm_compute;
          reflexivity.
Qed.

(** C1 (as amended) -- set completeness.  The unreferenced list is the
    candidate list without the members of the collected used-set, in
    candidate order; and no scanned document holds a reference the
    extraction rules read -- the [src] of an image tag, the address of a
    candidate of a well-formed [srcset], the argument of a [url] call
    without a closing parenthesis or a quote in it, the address of an
    [image] element -- that resolves, with the path of the document as
    base and the content root of the run, to the path of an unreferenced
    file. *)
Theorem unreferenced_is_candidates_minus_used
    rt req files manifestAbs usedAbs ebp rep :
  stages rt req files manifestAbs usedAbs ebp ->
  validate rt req = Json rep ->
  let options := optionsOf rt (req_query req) in
  let contentRoot := rootOf rt files in
  let candidatesAbs := candidatesAbsOf files options manifestAbs in
  map u_internalPath (unreferenced rep)
    = filter (fun abs => abs ∉ usedAbs) candidatesAbs
  /\ (list_to_set (map u_internalPath (unreferenced rep)) : gset jsstring)
     = list_to_set candidatesAbs ∖ usedAbs
  /\ (forall e p obj r,
        e ∈ unreferenced rep -> In (p, obj) files ->
        holdsReference rt options p obj r ->
        resolveRef (cwd rt) p (Some r) contentRoot <> u_internalPath e).
Proof.
  intros Hst Hv options contentRoot candidatesAbs.
  rewrite (validate_report _ _ _ _ _ _ _ Hst Hv).
  destruct Hst as (_ & _ & _ & _ & Hused).
  fold options contentRoot in Hused.
  assert (Hmap : map u_internalPath
                   (unreferenced
                      (reportOf rt req files manifestAbs usedAbs ebp))
                 = filter (fun abs => abs ∉ usedAbs) candidatesAbs).
  { cbn [reportOf unreferenced]. fold options candidatesAbs.
    rewrite map_map. apply map_id. }
  split; [exact Hmap|]. split.
  - rewrite Hmap. apply set_eq; intros x.
    rewrite elem_of_list_to_set, list_elem_of_filter, elem_of_difference,
      elem_of_list_to_set. tauto.
  - intros e p obj r He Hin Hholds Heq.
    assert (Hu : inUnreferenced
                   (reportOf rt req files manifestAbs usedAbs ebp)
                   (u_internalPath e)) by (exists e; auto).
    apply inUnreferenced_reportOf in Hu as [Hc Hn].
    destruct (holdsReference_rawRefs rt options p obj r Hholds)
      as (href & Href & Hres).
    apply Hn.
    apply (collect_spec rt options contentRoot files ∅ usedAbs _ Hused).
    right. exists p, obj. split; [exact Hin|].
    exists href. split; [exact Href|]. split.
    + rewrite Hres. exact Heq.
    + apply isImageFile_nonempty, (candidatesAbsOf_isImageFile _ _ _ _ Hc).
Qed.

Lemma unreferenced_is_candidates_minus_used_witness :
  map u_internalPath
      (unreferenced (reportOf Sample.rtA (Sample.upload Sample.noQuery)
                              SampleRuns.filesA ∅ SampleRuns.usedA []))
  = filter (fun abs => abs ∉ SampleRuns.usedA)
           (candidatesAbsOf SampleRuns.filesA
              (optionsOf Sample.rtA Sample.noQuery) ∅)
  /\ Forall (fun e =>
               resolveRef (cwd Sample.rtA) (js "content/index.xhtml")
                          (Some (js "images/a.png"))
                          (rootOf Sample.rtA SampleRuns.filesA)
               <> u_internalPath e)
            (unreferenced (reportOf Sample.rtA (Sample.upload Sample.noQuery)
                                    SampleRuns.filesA ∅ SampleRuns.usedA [])).
Proof.
  assert (Hst : stages Sample.rtA (Sample.upload Sample.noQuery)
                       SampleRuns.filesA ∅ SampleRuns.usedA [])
    by (apply stagesA; reflexivity).
  assert (Hholds : holdsReference Sample.rtA
                     (optionsOf Sample.rtA Sample.noQuery)
                     (js "content/index.xhtml")
                     {| path := js "content/index.xhtml";
                        buffer := Sample.pageText |}
                     (js "images/a.png")).
  { apply (in_markup _ _ _ _ _ Sample.pageText true Sample.page).
    - left. exists (js "content/index"). reflexivity.
    - reflexivity.
    - split; [intros _; exists (js "content/index"); reflexivity
             | reflexivity].
    - reflexivity.
    - apply (holds_src _ _ _
               {| attrs := [(js "src", js "images/a.png")]; text := [] |});
        [left; reflexivity | reflexivity]. }
  destruct (unreferenced_is_candidates_minus_used
              Sample.rtA (Sample.upload Sample.noQuery)
              SampleRuns.filesA ∅ SampleRuns.usedA [] _
              Hst (validate_stages _ _ _ _ _ _ Hst)) as (H1 & _ & H3).
  split; [exact H1|].
  apply Forall_forall. intros e He.
  apply (H3 e (js "content/index.xhtml")
            {| path := js "content/index.xhtml";
               buffer := Sample.pageText |}
            (js "images/a.png") He); [left; reflexivity | exact Hholds].
Defined.

(** C1, the claim as stated fails: the stylesheet of the archive holds a
    [url] call whose quoted argument resolves to the path of the image,
    the stylesheet is scanned, and the image is reported unreferenced: the
    scan does not read an argument with a closing parenthesis in it. *)
Lemma quoted_argument_with_parenthesis_is_missed :
  exists files obj css rep,
    unzipToMap rtParen [] = Some files
    /\ validate rtParen (Sample.upload SampleRuns.withCss) = Json rep
    /\ In (js "css/style.css", obj) files
    /\ isStylesheet (optionsOf rtParen SampleRuns.withCss)
                    (js "css/style.css")
    /\ utf8 rtParen (buffer obj) = Some css
    /\ holdsUrlCall css parenCall
    /\ resolveRef (cwd rtParen) (js "css/style.css")
                  (Some (uc_arg parenCall)) (rootOf rtParen files)
       = js "images/a(1).png"
    /\ inUnreferenced rep (js "images/a(1).png").
Proof.
  exists [ (js "css/style.css",
            {| path := js "css/style.css";
               buffer := js "div { background: url('../images/a(1).png') }" |});
           (js "images/a(1).png",
            {| path := js "images/a(1).png"; buffer := js "bytes of a" |}) ].
  exists {| path := js "css/style.css";
            buffer := js "div { background: url('../images/a(1).png') }" |}.
  exists (js "div { background: url('../images/a(1).png') }").
  eexists.
  split; [vm_compute; reflexivity|].
  split; [apply validate_stages with (manifestAbs := ∅) (usedAbs := ∅);
          unfold stages;
          split; [exists []; split; vm_compute; reflexivity|];
          split; [reflexivity|]; split; [vm_compute; reflexivity|];
          split; vm_compute; reflexivity|].
  split; [left; reflexivity|].
  split; [split; [reflexivity | exists (js "css/style"); reflexivity]|].
  split; [vm_compute; reflexivity|].
  split.
  - split.
    + unfold isUrlCall, parenCall.
      cbn [uc_name uc_lead uc_trail uc_arg uc_quote].
      split; [reflexivity|]. split; [reflexivity|]. split; [reflexivity|].
      split; [discriminate|]. split; [right; reflexivity|].
      intros H. apply (bool_decide_eq_true_2 _) in H.
      vm_compute in H. discriminate H.
    + exists (js "div { background: "), (js " }"). reflexivity.
  - split; [vm_compute; reflexivity|].
    apply inUnreferenced_reportOf. split.
    + refine (bool_decide_unpack _ _). vm_compute. exact I.
    + intros H. apply (bool_decide_eq_true_2 _) in H.
      vm_compute in H. discriminate H.
Qed.
